(** * Semantic memory store of the VS Code extension: a shallow embedding

    The development follows the TypeScript sources:
    - [memory-db.ts] (class [MemoryDB] and [cosineSimilarity]),
    - [embeddings.ts] (classes [TransformersEmbeddings] and [DualEmbeddings],
      in its two revisions),
    and states the properties of the design document about them.

    Modelling conventions.
    - A JavaScript [number] is an IEEE 754 binary64 value: Rocq's primitive
      [float], whose operations are specified bit for bit by [SpecFloat].
    - A [Buffer] is a list of bytes; a [Float64Array] over it reads and
      writes eight bytes per element in the byte order of the machine,
      taken here as least significant byte first.
    - A SQLite table is the list of its rows in storage order; a statement
      is a function on the database value.
    - A method that mutates the store or may throw is a function
      [Database -> outcome A * Database]: the state after the call is
      returned also when the call throws.
    - [Date.now()] and [randomUUID()] are read from the environment; their
      values are explicit arguments of the operation that asks for them.
    - The [limit] of a search is any number, cut with [slice(0, limit)];
      where the program itself passes a count, or a statement is about
      counts, the search is taken at that count. A vector dimension is a
      natural number. *)

From Stdlib Require Import ZArith List Bool String Ascii Lia Floats.
From Stdlib Require Import Strings.Byte.
From Stdlib Require Import Sorted Permutation.
Import ListNotations.

Set Warnings "-inexact-float".

(* ================================================================== *)
(** * Part I.  The embedding of the program                            *)
(* ================================================================== *)

(** ** JavaScript numbers *)

Module Number.

Local Open Scope float_scope.

(** [x === y] on two numbers. *)
Definition strict_eq (x y : float) : bool := x =? y.

(** [x >= y] on two numbers. *)
Definition ge (x y : float) : bool := y <=? x.

(** [x > y] on two numbers. *)
Definition gt (x y : float) : bool := y <? x.

Definition is_nan (x : float) : bool := PrimFloat.is_nan x.

(** [ToBoolean] of a number: [0], [-0] and [NaN] are falsy. *)
Definition truthy (x : float) : bool := negb (x =? 0) && negb (is_nan x).

(** [Math.min(x, y)]: [NaN] if either argument is, and [-0] below [+0]. *)
Definition Math_min (x y : float) : float :=
  if is_nan x || is_nan y then nan
  else if x <? y then x
  else if y <? x then y
  else if get_sign x then x else y.

(** *** The bit pattern of a binary64 value

    Sign in bit 63, biased exponent in bits 62..52, fraction in bits 51..0.
    [NaN] is written as the quiet NaN [0x7FF8000000000000]. *)

Local Open Scope Z_scope.

Definition sign_bit (s : bool) : Z := if s then 2 ^ 63 else 0.

Definition SF_to_bits (x : spec_float) : Z :=
  match x with
  | S754_zero s => sign_bit s
  | S754_infinity s => sign_bit s + 2047 * 2 ^ 52
  | S754_nan => 2047 * 2 ^ 52 + 2 ^ 51
  | S754_finite s m e =>
      sign_bit s +
      (if Zpos (digits2_pos m) =? 53
       then (e + 1075) * 2 ^ 52 + (Zpos m - 2 ^ 52)
       else Zpos m)
  end.

Definition SF_of_bits (b : Z) : spec_float :=
  let s := Z.testbit b 63 in
  let E := (b / 2 ^ 52) mod 2048 in
  let M := b mod 2 ^ 52 in
  if E =? 0 then
    if M =? 0 then S754_zero s else S754_finite s (Z.to_pos M) (-1074)
  else if E =? 2047 then
    if M =? 0 then S754_infinity s else S754_nan
  else S754_finite s (Z.to_pos (M + 2 ^ 52)) (E - 1075).

Definition float_to_bits (x : float) : Z := SF_to_bits (Prim2SF x).
Definition float_of_bits (b : Z) : float := SF2Prim (SF_of_bits b).

(** *** Auxiliary notions used to reason about the order of numbers *)

(** The signed mantissa of a finite value once aligned to exponent [ez]. *)
Definition aligned (s : bool) (m : positive) (e ez : Z) : Z :=
  cond_Zopp s (Zpos (fst (shl_align m e ez))).

(** A result that is finite and not zero, or infinite, of sign [s]. *)
Definition signed_nonzero (s : bool) (r : spec_float) : Prop :=
  match r with
  | S754_finite s' _ _ | S754_infinity s' => s' = s
  | _ => False
  end.

(** An integer that orders the numbers other than [NaN] as [<=] does:
    the value scaled by [2^1074], with the infinities beyond every
    finite value. *)
Definition SFkey (x : spec_float) : Z :=
  match x with
  | S754_zero _ => 0
  | S754_infinity s => cond_Zopp s (2 ^ 2100)
  | S754_nan => 0
  | S754_finite s m e => cond_Zopp s (Zpos m * 2 ^ (e + 1074))
  end.

Definition key (x : float) : Z := SFkey (Prim2SF x).

End Number.

(** ** Buffers and typed arrays *)

Module Buffer.

Local Open Scope Z_scope.

Definition byte_of_Z (z : Z) : byte :=
  match Byte.of_N (Z.to_N (z mod 256)) with
  | Some b => b
  | None => Byte.x00
  end.

Definition Z_of_byte (b : byte) : Z := Z.of_N (Byte.to_N b).

(** The [n] low bytes of [z], least significant first. *)
Fixpoint le_bytes (n : nat) (z : Z) : list byte :=
  match n with
  | O => []
  | S n' => byte_of_Z z :: le_bytes n' (z / 256)
  end.

Fixpoint le_value (l : list byte) : Z :=
  match l with
  | [] => 0
  | b :: l' => Z_of_byte b + 256 * le_value l'
  end.

(** One element of a [Float64Array] as it lies in the underlying buffer. *)
Definition float64_to_bytes (x : float) : list byte :=
  le_bytes 8 (Number.float_to_bits x).

Definition float64_of_bytes (l : list byte) : float :=
  Number.float_of_bits (le_value l).

End Buffer.

(** ** Values of the language shared by both source files *)

Module Js.

Local Open Scope string_scope.

Inductive JsError : Type :=
| Error (message : string)
| RangeError (message : string)
| SqliteError (message : string).

(** [String(err)]. *)
Definition String_of (err : JsError) : string :=
  match err with
  | Error m => "Error: " ++ m
  | RangeError m => "RangeError: " ++ m
  | SqliteError m => "SqliteError: " ++ m
  end.

(** How a call ends: it returns a value or throws. For an [async] function
    the two cases are the promise's fulfilment and its rejection. *)
Inductive outcome (A : Type) : Type :=
| Returned (a : A)
| Thrown (e : JsError).
Arguments Returned {A} a.
Arguments Thrown {A} e.

(** [o ?? d]. *)
Definition nullish {A : Type} (o : option A) (d : A) : A :=
  match o with
  | Some a => a
  | None => d
  end.

(** [Array.prototype.sort(cmp)]. The sort is stable and orders by the sign
    of [cmp]; a comparator result that is not a positive number ([NaN]
    included, which the language reads as [+0]) leaves the two elements
    in their order. Written as a stable insertion sort, which yields the
    sorted order every conforming engine yields for a consistent
    comparator. *)
Fixpoint sort_insert {A : Type} (cmp : A -> A -> float) (x : A) (l : list A) : list A :=
  match l with
  | [] => [x]
  | y :: l' =>
      if Number.gt (cmp x y) 0%float then y :: sort_insert cmp x l'
      else x :: y :: l'
  end.

Fixpoint Array_sort {A : Type} (cmp : A -> A -> float) (l : list A) : list A :=
  match l with
  | [] => []
  | x :: l' => sort_insert cmp x (Array_sort cmp l')
  end.

(** [arr.slice(0, n)] for a count [n]. *)
Definition slice0 {A : Type} (n : nat) (l : list A) : list A := firstn n l.

(** [ToIntegerOrInfinity(x)]: [NaN] and the zeros give [0], the infinities
    stay, and any other number is truncated towards zero. *)
Inductive IntegerOrInfinity : Type :=
| NegInfinity
| Integer (z : Z)
| PosInfinity.

Definition ToIntegerOrInfinity (x : float) : IntegerOrInfinity :=
  match Prim2SF x with
  | S754_nan => Integer 0
  | S754_zero _ => Integer 0
  | S754_infinity true => NegInfinity
  | S754_infinity false => PosInfinity
  | S754_finite s m e =>
      let magnitude :=
        if (0 <=? e)%Z then (Zpos m * 2 ^ e)%Z else (Zpos m / 2 ^ (- e))%Z in
      Integer (if s then (- magnitude)%Z else magnitude)
  end.

(** [arr.slice(0, stop)] for any number [stop]. The index at which the
    copy ends is [min(relativeEnd, len)] when [relativeEnd], the integer
    part of [stop], is not negative, and [max(len + relativeEnd, 0)] when
    it is: a negative [stop] drops elements from the end. *)
Definition slice_final (stop : float) (len : nat) : nat :=
  match ToIntegerOrInfinity stop with
  | NegInfinity => 0
  | PosInfinity => len
  | Integer relativeEnd =>
      if (relativeEnd <? 0)%Z
      then Z.to_nat (Z.max (Z.of_nat len + relativeEnd) 0)
      else Z.to_nat (Z.min relativeEnd (Z.of_nat len))
  end.

Definition Array_slice0 {A : Type} (stop : float) (l : list A) : list A :=
  firstn (slice_final stop (List.length l)) l.

(** A [stop] whose integer part is at least [n]: [slice(0, stop)] keeps
    all of an array of [n] elements. *)
Definition reaches (stop : float) (n : nat) : Prop :=
  match ToIntegerOrInfinity stop with
  | NegInfinity => False
  | PosInfinity => True
  | Integer z => (Z.of_nat n <= z)%Z
  end.

(** [new Float64Array(arrayBuffer)] followed by [Array.from]: a
    [RangeError] unless the byte length is a multiple of 8. *)
Fixpoint Float64Array_from (blob : list byte) : option (list float) :=
  match blob with
  | [] => Some []
  | b0 :: b1 :: b2 :: b3 :: b4 :: b5 :: b6 :: b7 :: rest =>
      option_map (cons (Buffer.float64_of_bytes [b0; b1; b2; b3; b4; b5; b6; b7]))
                 (Float64Array_from rest)
  | _ => None
  end.

End Js.

(** ** memory-db.ts *)

Module MemoryDB.

Import Js.
Local Open Scope string_scope.
Local Open Scope float_scope.

Record MemoryEntry : Type := {
  id : string;
  content : string;
  embedding : list float;
  created_at : Z;
  source : string;
  tags : list string;
  category : string
}.

Record MemorySearchResult : Type := {
  entry : MemoryEntry;
  score : float
}.

(** *** cosineSimilarity *)

(** The loop [for (i = 0; i < len; i++)] with [len = min(a.length, b.length)],
    threading the three accumulators. *)
Fixpoint cosine_loop (a b : list float) (dot normA normB : float) : float * float * float :=
  match a, b with
  | x :: a', y :: b' => cosine_loop a' b' (dot + x * y) (normA + x * x) (normB + y * y)
  | _, _ => (dot, normA, normB)
  end.

Definition cosineSimilarity (a b : list float) : float :=
  let '(dot, normA, normB) := cosine_loop a b 0 0 0 in
  let denom := sqrt normA * sqrt normB in
  if Number.strict_eq denom 0 then 0 else dot / denom.

(** The definition in the words of the design: the cosine of two vectors
    of one length, sums taken from the first index on. *)
Definition dot_product (u v : list float) : float :=
  fold_left (fun acc p => acc + fst p * snd p) (combine u v) 0.

Definition sum_of_squares (u : list float) : float :=
  fold_left (fun acc x => acc + x * x) u 0.

Definition magnitude (u : list float) : float := sqrt (sum_of_squares u).

Definition cosine_of (u v : list float) : float :=
  let denom := magnitude u * magnitude v in
  if Number.strict_eq denom 0 then 0 else dot_product u v / denom.

Definition shared_prefix_length (a b : list float) : nat :=
  Nat.min (List.length a) (List.length b).

(** *** The tables

    [memories.tags] holds [JSON.stringify] of a list of strings and is read
    back with [JSON.parse]; the column is kept as the list it encodes.
    [memories.embedding] is a BLOB or NULL. The [profile] and [sync_state]
    tables take no part in the operations below and are left out. *)

Record memories_row : Type := {
  col_id : string;
  col_content : string;
  col_embedding : option (list byte);
  col_created_at : Z;
  col_source : string;
  col_tags : list string;
  col_category : string
}.

Record memory_edges_row : Type := {
  edge_id : string;
  from_id : string;
  to_id : string;
  relation : string;
  edge_created_at : Z
}.

Record Database : Type := {
  memories : list memories_row;
  memory_edges : list memory_edges_row
}.

(** [id TEXT PRIMARY KEY] on [memories]. *)
Definition primary_key (db : Database) : Prop := NoDup (map col_id (memories db)).

(** [FOREIGN KEY (from_id) REFERENCES memories(id)], and the same for [to_id]. *)
Definition foreign_keys (db : Database) : Prop :=
  forall e, In e (memory_edges db) ->
    In (from_id e) (map col_id (memories db)) /\
    In (to_id e) (map col_id (memories db)).

(** The two constraints together. *)
Definition keys_hold (db : Database) : Prop := primary_key db /\ foreign_keys db.

(** *** Methods as state transformers *)

Definition DB (A : Type) : Type := Database -> outcome A * Database.

Definition ret {A : Type} (a : A) : DB A := fun db => (Returned a, db).

Definition throw {A : Type} (e : JsError) : DB A := fun db => (Thrown e, db).

Definition bind {A B : Type} (c : DB A) (k : A -> DB B) : DB B :=
  fun db =>
    match c db with
    | (Returned a, db') => k a db'
    | (Thrown e, db') => (Thrown e, db')
    end.

Notation "x <- c ;; k" := (bind c (fun x => k))
  (at level 61, c at next level, right associativity).
Notation "c ;;; k" := (bind c (fun _ => k))
  (at level 61, right associativity).

(** A statement that cannot fail, with the number of rows it changed. *)
Definition run (stmt : Database -> nat * Database) : DB nat :=
  fun db => let '(changes, db') := stmt db in (Returned changes, db').

(** A [SELECT]. *)
Definition all {A : Type} (q : Database -> A) : DB A :=
  fun db => (Returned (q db), db).

(** [for (const x of xs) body(x)]. *)
Fixpoint for_of {A : Type} (xs : list A) (body : A -> DB unit) : DB unit :=
  match xs with
  | [] => ret tt
  | x :: xs' => body x ;;; for_of xs' body
  end.

(** *** Statements *)

(** [DELETE FROM memory_edges WHERE from_id = ? OR to_id = ?]. *)
Definition touches (i : string) (e : memory_edges_row) : bool :=
  String.eqb (from_id e) i || String.eqb (to_id e) i.

Definition DELETE_edges_of (i : string) (db : Database) : nat * Database :=
  (List.length (filter (touches i) (memory_edges db)),
   {| memories := memories db;
      memory_edges := filter (fun e => negb (touches i e)) (memory_edges db) |}).

(** [DELETE FROM memories WHERE p]; with [foreign_keys = ON] the edges of
    every removed row go with it ([ON DELETE CASCADE]). The count is that
    of the removed [memories] rows. *)
Definition DELETE_memories_where (p : memories_row -> bool) (db : Database) : nat * Database :=
  let removed := map col_id (filter p (memories db)) in
  (List.length removed,
   {| memories := filter (fun r => negb (p r)) (memories db);
      memory_edges :=
        filter (fun e => negb (existsb (fun i => touches i e) removed)) (memory_edges db) |}).

(** [UPDATE memories SET ... WHERE id = ?]. *)
Definition UPDATE_memories_by_id (i : string) (set : memories_row -> memories_row)
    (db : Database) : nat * Database :=
  (List.length (filter (fun r => String.eqb (col_id r) i) (memories db)),
   {| memories := map (fun r => if String.eqb (col_id r) i then set r else r) (memories db);
      memory_edges := memory_edges db |}).

(** [INSERT INTO memories ...]: refused when the primary key is taken. *)
Definition INSERT_memory (row : memories_row) : DB nat :=
  fun db =>
    if existsb (fun r => String.eqb (col_id r) (col_id row)) (memories db)
    then (Thrown (SqliteError "UNIQUE constraint failed: memories.id"), db)
    else (Returned 1%nat,
          {| memories := memories db ++ [row]; memory_edges := memory_edges db |}).

(** [INSERT OR IGNORE INTO memory_edges ...]: a taken primary key is
    ignored, a missing endpoint is a foreign-key error. *)
Definition INSERT_OR_IGNORE_edge (e : memory_edges_row) : DB nat :=
  fun db =>
    if existsb (fun e' => String.eqb (edge_id e') (edge_id e)) (memory_edges db)
    then (Returned 0%nat, db)
    else if existsb (fun r => String.eqb (col_id r) (from_id e)) (memories db)
            && existsb (fun r => String.eqb (col_id r) (to_id e)) (memories db)
    then (Returned 1%nat,
          {| memories := memories db; memory_edges := memory_edges db ++ [e] |})
    else (Thrown (SqliteError "FOREIGN KEY constraint failed"), db).

(** *** encodeEmbedding / decodeEmbedding *)

Definition encodeEmbedding (vec : list float) : list byte :=
  flat_map Buffer.float64_to_bytes vec.

Definition decodeEmbedding (blob : list byte) : outcome (list float) :=
  match Float64Array_from blob with
  | Some vec => Returned vec
  | None => Thrown (RangeError "byte length of Float64Array should be a multiple of 8")
  end.

(** *** vectorSearch *)

Definition default_limit : nat := 5.
Definition default_minScore : float := 0.3.

(** The body of the loop over the rows: [None] is [continue] or a score
    under [minScore], [Some] is the pushed result. *)
Definition scan_row (queryEmbedding : list float) (minScore : float)
    (row : memories_row) : option MemorySearchResult :=
  match col_embedding row with
  | None => None
  | Some blob =>
      match decodeEmbedding blob with
      | Thrown _ => None
      | Returned stored =>
          let score := cosineSimilarity queryEmbedding stored in
          if Number.ge score minScore then
            Some {| entry := {| id := col_id row;
                                content := col_content row;
                                embedding := stored;
                                created_at := col_created_at row;
                                source := col_source row;
                                tags := col_tags row;
                                category := col_category row |};
                    score := score |}
          else None
      end
  end.

Fixpoint scan (queryEmbedding : list float) (minScore : float)
    (rows : list memories_row) : list MemorySearchResult :=
  match rows with
  | [] => []
  | row :: rest =>
      match scan_row queryEmbedding minScore row with
      | Some r => r :: scan queryEmbedding minScore rest
      | None => scan queryEmbedding minScore rest
      end
  end.

(** The comparator [(a, b) => b.score - a.score]. *)
Definition by_score_desc (a b : MemorySearchResult) : float := score b - score a.

(** [vectorSearch] for a [limit] that is any number: the loop over the
    rows, the sort, and [slice(0, limit)]. *)
Definition vectorSearch_number (db : Database) (queryEmbedding : list float)
    (limit : float) (minScore : float) : list MemorySearchResult :=
  Array_slice0 limit
    (Array_sort by_score_desc (scan queryEmbedding minScore (memories db))).

(** [vectorSearch] for a [limit] that is a count, as [store] calls it with
    1 and [deleteByQuery] with 10: [slice(0, limit)] then keeps the first
    [limit] results. It is [vectorSearch_number] at every number whose
    integer part is that count. *)
Definition vectorSearch (db : Database) (queryEmbedding : list float)
    (limit : nat) (minScore : float) : list MemorySearchResult :=
  slice0 limit (Array_sort by_score_desc (scan queryEmbedding minScore (memories db))).

(** *** vectorSearchBoosted *)

(** [boostCategories] is a plain object whose own properties hold numbers:
    the multiplier that is the own property [c], if there is one. *)
Definition BoostCategories : Type := string -> option float.

(** What the read [boostCategories[c]] yields: [undefined], the number of
    an own property, or, for a name that is not an own property but is
    one of [Object.prototype], the member of the prototype: a function,
    or the prototype itself for [__proto__]. *)
Inductive property : Type :=
| undefined
| number (x : float)
| inherited.

Definition Object_prototype : list string :=
  ["constructor"; "hasOwnProperty"; "isPrototypeOf"; "propertyIsEnumerable";
   "toLocaleString"; "toString"; "valueOf"; "__proto__";
   "__defineGetter__"; "__defineSetter__"; "__lookupGetter__"; "__lookupSetter__"].

Definition Get (boostCategories : BoostCategories) (c : string) : property :=
  match boostCategories c with
  | Some x => number x
  | None =>
      if existsb (String.eqb c) Object_prototype then inherited else undefined
  end.

(** [if (boost)]: an object is truthy. *)
Definition ToBoolean (v : property) : bool :=
  match v with
  | undefined => false
  | number x => Number.truthy x
  | inherited => true
  end.

(** The operand of [r.score * boost] as a number: a function and the
    prototype convert to [NaN], through their [toString]. *)
Definition ToNumber (v : property) : float :=
  match v with
  | undefined => nan
  | number x => x
  | inherited => nan
  end.

Definition boost_one (boostCategories : BoostCategories)
    (r : MemorySearchResult) : MemorySearchResult :=
  let boost := Get boostCategories (category (entry r)) in
  if ToBoolean boost
  then {| entry := entry r; score := Number.Math_min (score r * ToNumber boost) 1 |}
  else r.

Definition vectorSearchBoosted (db : Database) (queryEmbedding : list float)
    (limit : float) (minScore : float) (boostCategories : BoostCategories)
    : list MemorySearchResult :=
  let results := vectorSearch_number db queryEmbedding (limit * 2) minScore in
  Array_slice0 limit (Array_sort by_score_desc (map (boost_one boostCategories) results)).

(** *** store *)

Record StoreOpts : Type := {
  opt_source : option string;
  opt_tags : option (list string);
  opt_category : option string;
  dedupeThreshold : option float
}.

Record StoreResult : Type := {
  result_entry : MemoryEntry;
  isDuplicate : bool;
  updatedId : option string
}.

Definition default_dedupeThreshold : float := 0.95.

(** What the [UPDATE] of the duplicate branch writes into the matched row. *)
Definition overwrite (content : string) (embedding : list float) (now : Z)
    (opts : StoreOpts) (ex : MemoryEntry) (row : memories_row) : memories_row :=
  {| col_id := col_id row;
     col_content := content;
     col_embedding := Some (encodeEmbedding embedding);
     col_created_at := now;
     col_source := nullish (opt_source opts) "";
     col_tags := nullish (opt_tags opts) [];
     col_category := nullish (opt_category opts) (category ex) |}.

(** [now] is the value of [Date.now()] and [uuid] that of [randomUUID()]
    at this call. *)
Definition store (now : Z) (uuid : string) (content : string)
    (embedding : list float) (opts : StoreOpts) : DB StoreResult :=
  let threshold := nullish (dedupeThreshold opts) default_dedupeThreshold in
  existing <- all (fun db => vectorSearch db embedding 1 threshold) ;;
  match existing with
  | r :: _ =>
      let ex := entry r in
      run (UPDATE_memories_by_id (id ex) (overwrite content embedding now opts ex)) ;;;
      ret {| result_entry :=
               {| id := id ex; content := content; embedding := embedding;
                  created_at := now; source := source ex; tags := tags ex;
                  category := category ex |};
             isDuplicate := true;
             updatedId := Some (id ex) |}
  | [] =>
      let entry :=
        {| id := uuid; content := content; embedding := embedding;
           created_at := now;
           source := nullish (opt_source opts) "";
           tags := nullish (opt_tags opts) [];
           category := nullish (opt_category opts) "other" |} in
      INSERT_memory
        {| col_id := uuid; col_content := content;
           col_embedding := Some (encodeEmbedding embedding);
           col_created_at := now; col_source := source entry;
           col_tags := tags entry; col_category := category entry |} ;;;
      ret {| result_entry := entry; isDuplicate := false; updatedId := None |}
  end.

(** *** addEdge, delete, deleteBySource, deleteByQuery, count *)

Definition addEdge (now : Z) (uuid : string) (fromId toId relation : string) : DB unit :=
  INSERT_OR_IGNORE_edge
    {| edge_id := uuid; from_id := fromId; to_id := toId;
       relation := relation; edge_created_at := now |} ;;;
  ret tt.

Definition is_hex_digit (c : ascii) : bool :=
  let n := nat_of_ascii c in
  ((48 <=? n) && (n <=? 57) || (97 <=? n) && (n <=? 102) || (65 <=? n) && (n <=? 70))%nat.

(** [[0-9a-f]{n}] under the [i] flag, at the head of [s]: the rest of [s]. *)
Fixpoint hex_run (n : nat) (s : string) : option string :=
  match n with
  | O => Some s
  | S n' =>
      match s with
      | String c s' => if is_hex_digit c then hex_run n' s' else None
      | EmptyString => None
      end
  end.

Definition hyphen (s : string) : option string :=
  match s with
  | String "-"%char s' => Some s'
  | _ => None
  end.

Definition and_then {A B : Type} (o : option A) (k : A -> option B) : option B :=
  match o with
  | Some a => k a
  | None => None
  end.

(** [/^[0-9a-f]{8}-[0-9a-f]{4}-[0-9a-f]{4}-[0-9a-f]{4}-[0-9a-f]{12}$/i.test(s)]. *)
Definition uuid_regex_test (s : string) : bool :=
  match and_then (hex_run 8 s) (fun s =>
        and_then (hyphen s) (fun s =>
        and_then (hex_run 4 s) (fun s =>
        and_then (hyphen s) (fun s =>
        and_then (hex_run 4 s) (fun s =>
        and_then (hyphen s) (fun s =>
        and_then (hex_run 4 s) (fun s =>
        and_then (hyphen s) (fun s =>
        hex_run 12 s)))))))) with
  | Some EmptyString => true
  | _ => false
  end.

Definition delete (i : string) : DB bool :=
  if negb (uuid_regex_test i) then throw (Error ("Invalid memory ID: " ++ i))
  else
    run (DELETE_edges_of i) ;;;
    run (DELETE_memories_where (fun r => String.eqb (col_id r) i)) ;;;
    ret true.

Definition deleteBySource (src : string) : DB nat :=
  ids <- all (fun db =>
           map col_id (filter (fun r => String.eqb (col_source r) src) (memories db))) ;;
  for_of ids (fun i => run (DELETE_edges_of i) ;;; ret tt) ;;;
  run (DELETE_memories_where (fun r => String.eqb (col_source r) src)).

Definition deleteByQuery (embedding : list float) (threshold : float) : DB nat :=
  matches <- all (fun db => vectorSearch db embedding 10 threshold) ;;
  for_of matches (fun m => delete (id (entry m)) ;;; ret tt) ;;;
  ret (List.length matches).

Definition count (db : Database) : nat := List.length (memories db).

(** *** Notions used to state the properties *)

(** The rows a scan can rank, each with its score against [q]: those whose
    embedding is present and decodes. *)
Definition decoded (row : memories_row) : option (list float) :=
  match col_embedding row with
  | None => None
  | Some blob =>
      match decodeEmbedding blob with
      | Returned v => Some v
      | Thrown _ => None
      end
  end.

Definition score_of (q : list float) (row : memories_row) : option float :=
  option_map (cosineSimilarity q) (decoded row).

(** [row] is a best match for [q] at or above [threshold]: it scores
    [s >= threshold], and [s >= s'] for the score [s'] of every row that
    has one (a score that is [NaN] compares with nothing). *)
Definition best_match (db : Database) (q : list float) (threshold : float)
    (row : memories_row) (s : float) : Prop :=
  In row (memories db) /\ score_of q row = Some s /\
  Number.ge s threshold = true /\
  forall row' s', In row' (memories db) -> score_of q row' = Some s' ->
    Number.is_nan s' = false -> Number.ge s s' = true.

Definition entry_of_row (row : memories_row) (stored : list float) : MemoryEntry :=
  {| id := col_id row; content := col_content row; embedding := stored;
     created_at := col_created_at row; source := col_source row;
     tags := col_tags row; category := col_category row |}.

(** A row that the scan can rank: its embedding is there and decodes. *)
Definition indexed (row : memories_row) : bool :=
  match decoded row with
  | Some _ => true
  | None => false
  end.

Definition only_indexed (db : Database) : Database :=
  {| memories := filter indexed (memories db); memory_edges := memory_edges db |}.




(** A table for the scenarios: against the query [[1; 0; 0; 0]] row ["a"]
    scores 3/5 and row ["d"] scores 2/5; row ["b"] has no embedding and
    the blob of row ["c"] is one byte long. *)
Definition scenario_row (i : string) (blob : option (list byte)) (cat : string)
    : memories_row :=
  {| col_id := i; col_content := "note " ++ i; col_embedding := blob;
     col_created_at := 1700000000000; col_source := "vscode:chat";
     col_tags := []; col_category := cat |}.

Definition scenario_db : Database :=
  {| memories :=
       [scenario_row "a" (Some (encodeEmbedding [3; 4; 0; 0])) "other";
        scenario_row "b" None "decision";
        scenario_row "c" (Some [Byte.x00]) "decision";
        scenario_row "d" (Some (encodeEmbedding [2; 4; 2; 1])) "preference"];
     memory_edges := [] |}.

Definition scenario_boosts : BoostCategories :=
  fun c => if String.eqb c "preference" then Some 2 else None.


(** The default [boostCategories = {}]. *)
Definition no_boosts : BoostCategories := fun _ => None.

(** A table with one memory whose category is the string ["constructor"];
    against the query [[1; 0; 0; 0]] it scores 3/5. *)
Definition constructor_db : Database :=
  {| memories := [scenario_row "k" (Some (encodeEmbedding [3; 4; 0; 0])) "constructor"];
     memory_edges := [] |}.

Definition uuid_1 : string := "00000000-0000-4000-8000-000000000001".
Definition uuid_2 : string := "00000000-0000-4000-8000-000000000002".
Definition uuid_3 : string := "00000000-0000-4000-8000-000000000003".
Definition uuid_4 : string := "00000000-0000-4000-8000-000000000004".

(** A store for the duplicate scenario: one memory, embedded as [[1; 0]]. *)
Definition tabs_db : Database :=
  {| memories :=
       [{| col_id := uuid_1;
           col_content := "Use tabs not spaces";
           col_embedding := Some (encodeEmbedding [1; 0]);
           col_created_at := 1700000000000; col_source := "vscode:chat";
           col_tags := []; col_category := "preference" |}];
     memory_edges := [] |}.

Definition tabs_opts : StoreOpts :=
  {| opt_source := Some "vscode:chat"; opt_tags := Some [];
     opt_category := None; dedupeThreshold := None |}.

(** A table with edges: the memories [uuid_1] and [uuid_4] come from the
    chat, [uuid_2] and [uuid_3] from the indexer. *)
Definition linked_row (i src : string) : memories_row :=
  {| col_id := i; col_content := "note"; col_embedding := None;
     col_created_at := 1700000000000; col_source := src;
     col_tags := []; col_category := "other" |}.

Definition linked_edge (i a b : string) : memory_edges_row :=
  {| edge_id := i; from_id := a; to_id := b; relation := "related";
     edge_created_at := 1700000000000 |}.

Definition linked_db : Database :=
  {| memories :=
       [linked_row uuid_1 "vscode:chat"; linked_row uuid_2 "vscode:index";
        linked_row uuid_3 "vscode:index"; linked_row uuid_4 "vscode:chat"];
     memory_edges :=
       [linked_edge "e1" uuid_1 uuid_2; linked_edge "e2" uuid_2 uuid_3;
        linked_edge "e3" uuid_3 uuid_1; linked_edge "e4" uuid_1 uuid_4] |}.

(** The ids of the stored memories. *)
Definition ids (db : Database) : list string := map col_id (memories db).

(** What [delete] does to the store once the id has passed the test. *)
Definition deleted (i : string) (db : Database) : Database :=
  snd (DELETE_memories_where (fun r => String.eqb (col_id r) i)
         (snd (DELETE_edges_of i db))).

(** Results in descending order of score. *)
Definition descending (l : list MemorySearchResult) : Prop :=
  StronglySorted (fun r1 r2 => Number.ge (score r1) (score r2) = true) l.

End MemoryDB.

(** ** embeddings.ts

    The file is present in two revisions. They share [DualEmbeddings.embed]
    and the synchronous part of [TransformersEmbeddings.ensureInitialized];
    they differ in what the initialisation does when the model fails to
    load, and in when the constructor sets up the Ollama fallback. *)

Module Embeddings.

Import Js.
Local Open Scope string_scope.

Inductive revision : Type :=
| without_reset  (* the earlier one: no try/catch around the load *)
| with_reset.    (* the later one: the catch resets initPromise *)

(** *** TransformersEmbeddings: lazy initialisation

    The object, with the promises made by [ensureInitialized] kept in a
    store and named by their index in it. [loading] lists the runs of the
    async function that are suspended at [await pipeline(...)], each by
    the promise it returned. [pipeline_calls] and [loads_completed] count
    the calls of [pipeline] and those of them that resolved. *)

Inductive promise_state : Type :=
| Pending
| Fulfilled
| Rejected (reason : JsError).

Record TransformersEmbeddings : Type := {
  extractor : option nat;
  initPromise : option nat;
  promises : list promise_state;
  loading : list nat;
  pipeline_calls : nat;
  loads_completed : nat;
  log : list string
}.

Definition model : string := "Xenova/bge-small-en-v1.5".

Definition new_TransformersEmbeddings : TransformersEmbeddings :=
  {| extractor := None; initPromise := None; promises := []; loading := [];
     pipeline_calls := 0; loads_completed := 0; log := [] |}.

(** What a caller of [ensureInitialized] is handed: a promise already
    fulfilled, or one that settles as promise [p] does. *)
Inductive awaited : Type :=
| Ready
| Awaits (p : nat).

(** The call itself, up to the first [await]: the same in both revisions. *)
Definition ensureInitialized (t : TransformersEmbeddings)
    : awaited * TransformersEmbeddings :=
  match extractor t with
  | Some _ => (Ready, t)
  | None =>
      match initPromise t with
      | Some p => (Awaits p, t)
      | None =>
          let p := List.length (promises t) in
          (Awaits p,
           {| extractor := None;
              initPromise := Some p;
              promises := promises t ++ [Pending];
              loading := loading t ++ [p];
              pipeline_calls := S (pipeline_calls t);
              loads_completed := loads_completed t;
              log := log t ++ ["Loading Transformers.js model: " ++ model ++ "..."] |})
      end
  end.

Fixpoint settle (p : nat) (s : promise_state) (ps : list promise_state)
    : list promise_state :=
  match ps, p with
  | [], _ => []
  | _ :: ps', O => s :: ps'
  | q :: ps', S p' => q :: settle p' s ps'
  end.

Definition is_loading (p : nat) (t : TransformersEmbeddings) : bool :=
  existsb (Nat.eqb p) (loading t).

Definition stop_loading (p : nat) (t : TransformersEmbeddings) : list nat :=
  filter (fun q => negb (Nat.eqb p q)) (loading t).

(** [pipeline(...)] resolves with [ext] in the run that returned [p]: the
    run stores the extractor, logs, and its promise is fulfilled. *)
Definition pipeline_resolves (p ext : nat) (t : TransformersEmbeddings)
    : TransformersEmbeddings :=
  if is_loading p t then
    {| extractor := Some ext;
       initPromise := initPromise t;
       promises := settle p Fulfilled (promises t);
       loading := stop_loading p t;
       pipeline_calls := pipeline_calls t;
       loads_completed := S (loads_completed t);
       log := log t ++ ["Model " ++ model ++ " loaded successfully (384-dim)"] |}
  else t.

(** [pipeline(...)] rejects with [err] in the run that returned [p]: its
    promise is rejected; the revision with the [catch] first sets
    [initPromise] to [null]. *)
Definition pipeline_rejects (rev : revision) (p : nat) (err : JsError)
    (t : TransformersEmbeddings) : TransformersEmbeddings :=
  if is_loading p t then
    {| extractor := extractor t;
       initPromise := match rev with
                      | with_reset => None
                      | without_reset => initPromise t
                      end;
       promises := settle p (Rejected err) (promises t);
       loading := stop_loading p t;
       pipeline_calls := pipeline_calls t;
       loads_completed := loads_completed t;
       log := log t |}
  else t.

(** What happens to the object: a call of [ensureInitialized] (from
    [embed]), or the settling of a load in flight. *)
Inductive event : Type :=
| Call
| PipelineResolves (p ext : nat)
| PipelineRejects (p : nat) (err : JsError).

Definition step (rev : revision) (t : TransformersEmbeddings) (ev : event)
    : TransformersEmbeddings :=
  match ev with
  | Call => snd (ensureInitialized t)
  | PipelineResolves p ext => pipeline_resolves p ext t
  | PipelineRejects p err => pipeline_rejects rev p err t
  end.

Definition run (rev : revision) (evs : list event) : TransformersEmbeddings :=
  fold_left (step rev) evs new_TransformersEmbeddings.

Definition promise (t : TransformersEmbeddings) (p : nat) : promise_state :=
  nth p (promises t) Pending.

(** The invariant of the object between events. *)
Definition consistent (t : TransformersEmbeddings) : Prop :=
  (forall p, In p (loading t) ->
     initPromise t = Some p /\ extractor t = None /\ promise t p = Pending /\
     (p < List.length (promises t))%nat) /\
  (List.length (loading t) <= 1)%nat /\
  loads_completed t = (match extractor t with Some _ => 1 | None => 0 end)%nat.

(** *** DualEmbeddings *)

(** [embed(text)] of a provider, as the awaited call ends. *)
Definition EmbeddingProvider : Type := string -> outcome (list float).

Record DualEmbeddings : Type := {
  primary : option EmbeddingProvider;
  fallback : option EmbeddingProvider;
  default : option EmbeddingProvider;
  _dimension : nat
}.

(** The padding or truncation of the fallback's vector to [_dimension]. *)
Definition reconcile (D : nat) (vec : list float) : list float :=
  if (List.length vec <? D)%nat
  then vec ++ repeat 0%float (D - List.length vec)
  else slice0 D vec.

(** [embed], with the lines it logs. *)
Definition try_default (d : DualEmbeddings) (text : string) (logged : list string)
    : outcome (list float) * list string :=
  match default d with
  | Some p =>
      match p text with
      | Returned vec => (Returned vec, logged)
      | Thrown err =>
          (Thrown (Error ("All embedding providers failed. Last error: " ++ String_of err)),
           logged)
      end
  | None => (Thrown (Error "No embedding provider available"), logged)
  end.

Definition try_fallback (d : DualEmbeddings) (text : string) (logged : list string)
    : outcome (list float) * list string :=
  match fallback d with
  | Some p =>
      match p text with
      | Returned vec => (Returned (reconcile (_dimension d) vec), logged)
      | Thrown err =>
          try_default d text
            (logged ++ ["Fallback provider failed, using default: " ++ String_of err])
      end
  | None => try_default d text logged
  end.

Definition embed (d : DualEmbeddings) (text : string)
    : outcome (list float) * list string :=
  match primary d with
  | Some p =>
      match p text with
      | Returned vec => (Returned vec, [])
      | Thrown err =>
          try_fallback d text ["Primary provider failed, falling back: " ++ String_of err]
      end
  | None => try_fallback d text []
  end.

(** The constructor. The three provider classes reach services outside
    the program; their [embed] is taken as given. *)
Record Backends : Type := {
  OpenAIEmbeddings : string -> option string -> nat -> EmbeddingProvider;
  OllamaEmbeddings : string -> string -> nat -> EmbeddingProvider;
  TransformersEmbeddings_embed : string -> EmbeddingProvider
}.

Record DualOpts : Type := {
  openaiKey : option string;
  openaiModel : option string;
  ollamaEndpoint : option string;
  ollamaModel : option string;
  dimension : option nat
}.

(** A string that is there and not empty. *)
Definition nonempty (o : option string) : option string :=
  match o with
  | Some (String c s) => Some (String c s)
  | _ => None
  end.

Definition new_DualEmbeddings (rev : revision) (B : Backends)
    (OPENAI_API_KEY : option string) (opts : DualOpts) : DualEmbeddings :=
  let dim := nullish (dimension opts) 384%nat in
  let apiKey :=
    match nonempty (openaiKey opts) with
    | Some k => Some k
    | None => nonempty OPENAI_API_KEY
    end in
  let ollama :=
    match nonempty (ollamaEndpoint opts), nonempty (ollamaModel opts) with
    | Some endpoint, Some m => Some (OllamaEmbeddings B endpoint m dim)
    | _, _ => None
    end in
  {| primary :=
       match apiKey with
       | Some k => Some (OpenAIEmbeddings B k (openaiModel opts) dim)
       | None => None
       end;
     fallback :=
       match rev, apiKey with
       | without_reset, Some _ => None
       | _, _ => ollama
       end;
     default := Some (TransformersEmbeddings_embed B model);
     _dimension := dim |}.

(** A backend that is not configured, or whose call for [text] failed. *)
Definition failed (p : option EmbeddingProvider) (text : string) : Prop :=
  match p with
  | Some f => exists err, f text = Thrown err
  | None => True
  end.

(** A chain for the scenarios: the remote provider fails, the local-HTTP
    one answers with two numbers, the configured dimension is four. *)
Definition example_chain : DualEmbeddings :=
  {| primary := Some (fun _ => Thrown (Error "401"));
     fallback := Some (fun _ => Returned [1; 2]%float);
     default := Some (fun _ => Thrown (Error "model not found"));
     _dimension := 4 |}.

End Embeddings.

(** ** memory-db.ts: the other methods of [MemoryDB] *)

Module MemoryDBRest.

Import Js MemoryDB.
Local Open Scope string_scope.
Local Open Scope float_scope.

(** *** storeRaw, setEmbedding *)

(** The argument of [storeRaw]: a [MemoryEntry] without its embedding. The
    method reads [source], [tags] and [category] through [??]. *)
Record RawEntry : Type := {
  raw_id : string;
  raw_content : string;
  raw_created_at : Z;
  raw_source : option string;
  raw_tags : option (list string);
  raw_category : option string
}.

(** What the [UPDATE] of [storeRaw] writes: every column but the id and
    the embedding. *)
Definition raw_update (e : RawEntry) (row : memories_row) : memories_row :=
  {| col_id := col_id row;
     col_content := raw_content e;
     col_embedding := col_embedding row;
     col_created_at := raw_created_at e;
     col_source := nullish (raw_source e) "";
     col_tags := nullish (raw_tags e) [];
     col_category := nullish (raw_category e) "other" |}.

(** The row that the [INSERT] of [storeRaw] adds: the embedding is NULL. *)
Definition raw_row (e : RawEntry) : memories_row :=
  {| col_id := raw_id e;
     col_content := raw_content e;
     col_embedding := None;
     col_created_at := raw_created_at e;
     col_source := nullish (raw_source e) "";
     col_tags := nullish (raw_tags e) [];
     col_category := nullish (raw_category e) "other" |}.

Definition storeRaw (e : RawEntry) : DB bool :=
  existing <- all (fun db =>
                find (fun r => String.eqb (col_id r) (raw_id e)) (memories db)) ;;
  match existing with
  | Some _ =>
      run (UPDATE_memories_by_id (raw_id e) (raw_update e)) ;;;
      ret true
  | None =>
      dup <- all (fun db =>
               find (fun r => String.eqb (col_content r) (raw_content e)) (memories db)) ;;
      match dup with
      | Some _ => ret false
      | None => INSERT_memory (raw_row e) ;;; ret true
      end
  end.

Definition with_embedding (embedding : list float) (row : memories_row) : memories_row :=
  {| col_id := col_id row;
     col_content := col_content row;
     col_embedding := Some (encodeEmbedding embedding);
     col_created_at := col_created_at row;
     col_source := col_source row;
     col_tags := col_tags row;
     col_category := col_category row |}.

Definition setEmbedding (i : string) (embedding : list float) : DB unit :=
  run (UPDATE_memories_by_id i (with_embedding embedding)) ;;;
  ret tt.

(** *** getRelated *)

(** The entry made of a row by the queries that do not select the
    embedding: [embedding: []]. *)
Definition entry_without_embedding (row : memories_row) : MemoryEntry :=
  entry_of_row row [].

(** The join of [memories] with [memory_edges]: one result for every pair
    of a memory [m] and an edge [e] such that [e] has [m] at one end, has
    the queried memory at one end, bears the relation asked for, if any,
    and [m] is not the queried memory. A relation that is absent or the
    empty string selects every edge. The pairs are listed memory by
    memory; nothing below depends on their order. *)
Definition related_pair (memoryId : string) (rel : option string)
    (m : memories_row) (e : memory_edges_row) : bool :=
  touches (col_id m) e && touches memoryId e &&
  match rel with
  | Some (String c s) => String.eqb (relation e) (String c s)
  | _ => true
  end &&
  negb (String.eqb (col_id m) memoryId).

Definition getRelated (memoryId : string) (rel : option string) (db : Database)
    : list MemoryEntry :=
  flat_map (fun m =>
              map (fun _ => entry_without_embedding m)
                  (filter (related_pair memoryId rel m) (memory_edges db)))
           (memories db).

(** *** getLastCaptureTime *)

(** [SELECT MAX(created_at)]: NULL on an empty table. *)
Definition getLastCaptureTime (db : Database) : option Z :=
  fold_left (fun acc r =>
               Some (match acc with
                     | Some t => Z.max t (col_created_at r)
                     | None => col_created_at r
                     end))
            (memories db) None.

(** *** getMemoriesSince, getMemoriesByIds: what a peer reads to sync *)

(** The entry made of a row by the two queries: no embedding, and the
    other fields as the row has them. *)
Definition raw_of_row (row : memories_row) : RawEntry :=
  {| raw_id := col_id row;
     raw_content := col_content row;
     raw_created_at := col_created_at row;
     raw_source := Some (col_source row);
     raw_tags := Some (col_tags row);
     raw_category := Some (col_category row) |}.

(** [ORDER BY created_at ASC]. Rows of one created_at come in the order
    of the table here; nothing below depends on it. *)
Fixpoint insert_by_created_at (r : memories_row) (l : list memories_row)
    : list memories_row :=
  match l with
  | [] => [r]
  | r' :: l' =>
      if (col_created_at r <=? col_created_at r')%Z then r :: r' :: l'
      else r' :: insert_by_created_at r l'
  end.

(** The order of the result. *)
Definition by_created_at (r1 r2 : memories_row) : Prop :=
  (col_created_at r1 <= col_created_at r2)%Z.

Definition ORDER_BY_created_at (rows : list memories_row) : list memories_row :=
  fold_right insert_by_created_at [] rows.

Definition getMemoriesSince (timestamp : Z) (db : Database) : list RawEntry :=
  map raw_of_row
      (ORDER_BY_created_at
         (filter (fun r => (timestamp <? col_created_at r)%Z) (memories db))).

(** [getMemoriesByIds] binds one parameter for every id; the engine
    refuses a statement with more than [SQLITE_MAX_VARIABLE_NUMBER] of
    them, a bound set when the engine is built. The rows come in the
    order of the table here, while the engine is free to follow the index
    on the ids; nothing below depends on their order. *)
Definition getMemoriesByIds (SQLITE_MAX_VARIABLE_NUMBER : nat) (ids : list string)
    (db : Database) : outcome (list RawEntry) :=
  match ids with
  | [] => Returned []
  | _ :: _ =>
      if (SQLITE_MAX_VARIABLE_NUMBER <? List.length ids)%nat
      then Thrown (SqliteError "too many SQL variables")
      else Returned (map raw_of_row
                         (filter (fun r => existsb (String.eqb (col_id r)) ids)
                                 (memories db)))
  end.

(** An entry as [storeRaw] writes it: what is absent takes its default. *)
Definition with_defaults (e : RawEntry) : RawEntry :=
  {| raw_id := raw_id e;
     raw_content := raw_content e;
     raw_created_at := raw_created_at e;
     raw_source := Some (nullish (raw_source e) "");
     raw_tags := Some (nullish (raw_tags e) []);
     raw_category := Some (nullish (raw_category e) "other") |}.

(** *** getLastSyncTime, setLastSyncTime

    The table [sync_state], with [peer_id] as its primary key. *)
Record sync_state_row : Type := {
  peer_id : string;
  last_sync_at : Z
}.

Definition SyncState : Type := list sync_state_row.

(** [row?.last_sync_at ?? 0]. *)
Definition getLastSyncTime (peerId : string) (tbl : SyncState) : Z :=
  match find (fun r => String.eqb (peer_id r) peerId) tbl with
  | Some r => last_sync_at r
  | None => 0
  end.

(** [INSERT ... ON CONFLICT(peer_id) DO UPDATE SET last_sync_at = excluded.last_sync_at]. *)
Definition setLastSyncTime (peerId : string) (timestamp : Z) (tbl : SyncState) : SyncState :=
  if existsb (fun r => String.eqb (peer_id r) peerId) tbl
  then map (fun r => if String.eqb (peer_id r) peerId
                     then {| peer_id := peer_id r; last_sync_at := timestamp |}
                     else r) tbl
  else (tbl ++ [{| peer_id := peerId; last_sync_at := timestamp |}])%list.

(** *** Calls of the mutating methods, to speak of the stores they reach *)

Inductive call : Type :=
| call_store (now : Z) (uuid content : string) (embedding : list float) (opts : StoreOpts)
| call_storeRaw (e : RawEntry)
| call_setEmbedding (i : string) (embedding : list float)
| call_addEdge (now : Z) (uuid fromId toId rel : string)
| call_delete (i : string)
| call_deleteBySource (src : string)
| call_deleteByQuery (embedding : list float) (threshold : float).

(** The store after a call, whether it returned or threw. *)
Definition after (c : call) (db : Database) : Database :=
  match c with
  | call_store now uuid content embedding opts => snd (store now uuid content embedding opts db)
  | call_storeRaw e => snd (storeRaw e db)
  | call_setEmbedding i embedding => snd (setEmbedding i embedding db)
  | call_addEdge now uuid fromId toId rel => snd (addEdge now uuid fromId toId rel db)
  | call_delete i => snd (delete i db)
  | call_deleteBySource src => snd (deleteBySource src db)
  | call_deleteByQuery embedding threshold => snd (deleteByQuery embedding threshold db)
  end.

Definition empty_db : Database := {| memories := []; memory_edges := [] |}.

(** The store reached from the empty one by a sequence of calls. *)
Definition reached (calls : list call) : Database := fold_left (fun db c => after c db) calls empty_db.

(** *** Notions used to state the properties *)

(** What a search shows of a result to its caller's ranking: id and score. *)
Definition hit (r : MemorySearchResult) : string * float := (id (entry r), score r).

(** The store after the deletion of each id of a list, in turn. *)
Definition forget (l : list string) (db : Database) : Database :=
  fold_left (fun d i => deleted i d) l db.

(** The edges that [getRelated] looks at: all of them when [relation] is
    absent or empty, those of that relation otherwise. *)
Definition selects (rel : option string) (e : memory_edges_row) : Prop :=
  match rel with
  | Some (String c s) => relation e = String c s
  | _ => True
  end.

(** *** A store filled by a sync *)

Definition synced_row (i : string) (embedding : list float) : memories_row :=
  {| col_id := i; col_content := "note of " ++ i;
     col_embedding := Some (encodeEmbedding embedding);
     col_created_at := 1700000000000; col_source := "sync";
     col_tags := []; col_category := "other" |}.

(** Three memories that [storeRaw] and [setEmbedding] have put there; the
    second one came with the id that its peer gave it. *)
Definition synced_db : Database :=
  {| memories :=
       [synced_row uuid_1 [1; 0]; synced_row "peer-7:42" [4; 3]; synced_row uuid_3 [3; 4]];
     memory_edges := [] |}.

End MemoryDBRest.

(** ** embeddings.ts: the provider classes *)

Module Providers.

Import Js Embeddings.
Local Open Scope string_scope.

(** *** Notions used to state the properties of the lazy initialisation *)

Definition is_rejected (s : promise_state) : bool :=
  match s with
  | Rejected _ => true
  | _ => false
  end.

(** The number of loads that have failed so far. *)
Definition failures (t : TransformersEmbeddings) : nat :=
  List.length (filter is_rejected (promises t)).

(** What the count of the calls of [pipeline] is, by revision: the loads
    that have failed, where a failure lets a later call start a new load,
    and the load that [initPromise] stands for. *)
Definition calls_accounted (rev : revision) (t : TransformersEmbeddings) : Prop :=
  pipeline_calls t =
  ((match rev with
    | with_reset => failures t
    | without_reset => 0
    end) +
   (match initPromise t with
    | Some _ => 1
    | None => 0
    end))%nat.

(** *** String(n) for a count *)

Fixpoint digits (d : Decimal.uint) : string :=
  match d with
  | Decimal.Nil => ""
  | Decimal.D0 d' => String "0" (digits d')
  | Decimal.D1 d' => String "1" (digits d')
  | Decimal.D2 d' => String "2" (digits d')
  | Decimal.D3 d' => String "3" (digits d')
  | Decimal.D4 d' => String "4" (digits d')
  | Decimal.D5 d' => String "5" (digits d')
  | Decimal.D6 d' => String "6" (digits d')
  | Decimal.D7 d' => String "7" (digits d')
  | Decimal.D8 d' => String "8" (digits d')
  | Decimal.D9 d' => String "9" (digits d')
  end.

Definition String_of_nat (n : nat) : string := digits (Nat.to_uint n).

(** *** OpenAIEmbeddings

    What the [openai] package does is taken as given: the import of the
    package, which the later revision awaits in [ensureClient], and
    [embeddings.create], by the key, the model, the [dimensions] asked
    for, if any, and the input: [response.data[0].embedding], or the
    rejection. *)
Record OpenAI_package : Type := {
  import_openai : outcome unit;
  embeddings_create : string -> string -> option nat -> string -> outcome (list float)
}.

Definition default_OpenAI_model : string := "text-embedding-3-small".

Definition newline : string := String "010" "".

(** [embed]: the earlier revision returns the embedding as it comes; the
    later one asks for [dimension] numbers, and pads with zeros or
    truncates what it gets to that length. *)
Definition OpenAIEmbeddings_embed (rev : revision) (pkg : OpenAI_package)
    (apiKey : string) (model : option string) (dimension : nat) : EmbeddingProvider :=
  fun text =>
    let model := nullish model default_OpenAI_model in
    match rev with
    | without_reset => embeddings_create pkg apiKey model None text
    | with_reset =>
        match import_openai pkg with
        | Thrown err =>
            Thrown (Error ("OpenAI package not found. Install it to use OpenAI embeddings."
                           ++ newline ++ "Error: " ++ String_of err))
        | Returned _ =>
            match embeddings_create pkg apiKey model (Some dimension) text with
            | Thrown err => Thrown err
            | Returned embedding =>
                if negb (List.length embedding =? dimension)%nat then
                  if (List.length embedding <? dimension)%nat
                  then Returned (embedding ++ repeat 0%float (dimension - List.length embedding))%list
                  else Returned (slice0 dimension embedding)
                else Returned embedding
            end
        end
    end.

(** *** OllamaEmbeddings *)

(** What [fetch] resolves to: a response that is not [ok], or one whose
    body parses to an object with this [embedding], or does not. *)
Inductive Response : Type :=
| NotOk (status : nat) (statusText : string)
| Ok (embedding : outcome (list float)).

(** [embed], with the [dimension] of the object after the call: the
    vector is returned as it comes, and the object takes its length as
    its dimension. *)
Definition OllamaEmbeddings_embed (fetch : string -> string -> string -> outcome Response)
    (endpoint model : string) (dimension : nat) (text : string)
    : outcome (list float) * nat :=
  match fetch (endpoint ++ "/api/embeddings") model text with
  | Thrown err => (Thrown err, dimension)
  | Returned (NotOk status statusText) =>
      (Thrown (Error ("Ollama embedding failed: " ++ String_of_nat status ++ " " ++ statusText)),
       dimension)
  | Returned (Ok (Thrown err)) => (Thrown err, dimension)
  | Returned (Ok (Returned embedding)) =>
      (Returned embedding,
       if negb (List.length embedding =? dimension)%nat
       then List.length embedding else dimension)
  end.

(** *** TransformersEmbeddings.embed

    [pipeline] is how the load that the call awaits ends: with an
    extractor, which maps a text to [output.data] or throws, or with the
    error of the load. When the load has ended with an extractor the
    field [extractor] holds it, so the check [if (!this.extractor)] that
    follows the [await] does not throw. The dimension of the class is
    384 and is never assigned. *)
Definition Transformers_dimension : nat := 384.

Definition TransformersEmbeddings_embed_with
    (pipeline : string -> outcome (string -> outcome (list float)))
    (model : string) : EmbeddingProvider :=
  fun text =>
    match pipeline model with
    | Thrown err => Thrown err
    | Returned extractor =>
        match extractor text with
        | Thrown err => Thrown err
        | Returned embedding =>
            if negb (List.length embedding =? Transformers_dimension)%nat
            then Thrown (Error ("Expected " ++ String_of_nat Transformers_dimension
                                ++ "-dim embedding, got "
                                ++ String_of_nat (List.length embedding) ++ "-dim"))
            else Returned embedding
        end
    end.

(** *** The three classes over what lies outside the program *)

Record Outside : Type := {
  openai : OpenAI_package;
  fetch : string -> string -> string -> outcome Response;
  pipeline : string -> outcome (string -> outcome (list float))
}.

Definition classes (rev : revision) (W : Outside) : Backends :=
  {| OpenAIEmbeddings := OpenAIEmbeddings_embed rev (openai W);
     OllamaEmbeddings := fun endpoint m dim text =>
                           fst (OllamaEmbeddings_embed (fetch W) endpoint m dim text);
     TransformersEmbeddings_embed := TransformersEmbeddings_embed_with (pipeline W) |}.

(** What [MemoryProvider.ensureInitialized] passes to the constructor:
    the dimension is always 384. *)
Definition provider_opts (openaiKey openaiModel ollamaEndpoint ollamaModel : option string)
    : DualOpts :=
  {| openaiKey := openaiKey; openaiModel := openaiModel;
     ollamaEndpoint := ollamaEndpoint; ollamaModel := ollamaModel;
     dimension := Some 384%nat |}.

(** An outside for the scenarios: the remote service answers with three
    numbers whatever it is asked, the local one is down, and the model
    loads and yields 384 zeros. *)
Definition example_outside : Outside :=
  {| openai := {| import_openai := Returned tt;
                  embeddings_create := fun _ _ _ _ => Returned [1; 2; 3]%float |};
     fetch := fun _ _ _ => Returned (NotOk 503 "Service Unavailable");
     pipeline := fun _ => Returned (fun _ => Returned (repeat 0%float 384)) |}.

End Providers.

(* ================================================================== *)
(** * Part II.  Properties                                             *)
(* ================================================================== *)

(** ** Facts about binary64 arithmetic

    Derived from the specification of the primitive operations in
    [SpecFloat]: the order of the numbers other than [NaN] is that of
    their integer keys, and the sign of a difference is that of the
    comparison of its operands. *)

Module NumberFacts.

Import Number.
Local Open Scope Z_scope.

Lemma digits2_pos_size (m : positive) : digits2_pos m = Pos.size m.
Proof. induction m; simpl; congruence. Qed.

Lemma digits2_pos_bounds (m : positive) :
  2 ^ (Zpos (digits2_pos m) - 1) <= Zpos m < 2 ^ Zpos (digits2_pos m).
Proof.
  rewrite digits2_pos_size. split.
  - pose proof (Pos.size_le m) as H.
    assert (Hs : Zpos (Pos.size m) = Z.succ (Zpos (Pos.size m) - 1)) by lia.
    assert (H2 : 2 ^ Zpos (Pos.size m) <= 2 * Zpos m).
    { change (2 * Zpos m) with (Zpos (m~0)). rewrite <- Pos2Z.inj_pow. lia. }
    rewrite Hs, Z.pow_succ_r in H2 by lia. lia.
  - pose proof (Pos.size_gt m) as H. rewrite <- Pos2Z.inj_pow. lia.
Qed.

(** What [valid_binary] says of a finite binary64 value. *)
Lemma bounded_inv (m : positive) (e : Z) :
  bounded prec emax m e = true ->
  -1074 <= e <= 971 /\ Zpos (digits2_pos m) <= 53 /\
  (e <> -1074 -> Zpos (digits2_pos m) = 53).
Proof.
  unfold bounded, canonical_mantissa, fexp, SpecFloat.emin, prec, emax.
  intros H. apply andb_true_iff in H. destruct H as [H1 H2].
  apply Z.eqb_eq in H1. apply Z.leb_le in H2. lia.
Qed.

Lemma bounded_mantissa (m : positive) (e : Z) :
  bounded prec emax m e = true -> Zpos m < 2 ^ 53.
Proof.
  intros B. apply bounded_inv in B. destruct B as (_ & D & _).
  pose proof (digits2_pos_bounds m) as [_ U].
  eapply Z.lt_le_trans; [exact U|]. apply Z.pow_le_mono_r; lia.
Qed.

Lemma iter_xO_pow2 (m d : positive) : Zpos (Pos.iter xO m d) = Zpos m * 2 ^ Zpos d.
Proof.
  revert m. induction d using Pos.peano_ind; intros m.
  - simpl. lia.
  - rewrite Pos.iter_succ, Pos2Z.inj_succ, Z.pow_succ_r by lia.
    change (Zpos (Pos.iter xO m d)~0) with (2 * Zpos (Pos.iter xO m d)).
    rewrite IHd. lia.
Qed.

Lemma shl_align_value (m : positive) (e ez : Z) :
  ez <= e -> Zpos (fst (shl_align m e ez)) = Zpos m * 2 ^ (e - ez).
Proof.
  intros Hle. unfold shl_align.
  destruct (ez - e) as [|d|d] eqn:Hd; simpl fst.
  - replace (e - ez) with 0 by lia. simpl. lia.
  - lia.
  - rewrite iter_xO_pow2. replace (e - ez) with (Zpos d) by lia. reflexivity.
Qed.

Lemma aligned_value s m e ez :
  ez <= e -> aligned s m e ez = cond_Zopp s (Zpos m * 2 ^ (e - ez)).
Proof. intros H. unfold aligned. now rewrite shl_align_value. Qed.

Lemma pow2_ge_2 (k : Z) : 0 < k -> 2 <= 2 ^ k.
Proof. intros H. change 2 with (2 ^ 1) at 1. apply Z.pow_le_mono_r; lia. Qed.

Lemma mantissa_lt_across_exponents m1 e1 m2 e2 :
  bounded prec emax m1 e1 = true -> bounded prec emax m2 e2 = true ->
  e1 < e2 -> Zpos m1 < Zpos m2 * 2 ^ (e2 - e1).
Proof.
  intros B1 B2 Hlt.
  pose proof (bounded_mantissa _ _ B1) as U1.
  apply bounded_inv in B1. apply bounded_inv in B2.
  destruct B1 as (Be1 & _ & _). destruct B2 as (Be2 & _ & Bd2).
  assert (D2 : Zpos (digits2_pos m2) = 53) by (apply Bd2; lia).
  pose proof (digits2_pos_bounds m2) as [L2 _].
  rewrite D2 in L2. change (2 ^ (53 - 1)) with 4503599627370496 in L2.
  change (2 ^ 53) with 9007199254740992 in U1.
  pose proof (pow2_ge_2 (e2 - e1) ltac:(lia)). nia.
Qed.

(** Comparing two finite values is comparing their aligned mantissas. *)
Lemma SFcompare_finite s1 m1 e1 s2 m2 e2 :
  bounded prec emax m1 e1 = true -> bounded prec emax m2 e2 = true ->
  SFcompare (S754_finite s1 m1 e1) (S754_finite s2 m2 e2) =
  Some (aligned s1 m1 e1 (Z.min e1 e2) ?= aligned s2 m2 e2 (Z.min e1 e2)).
Proof.
  intros B1 B2.
  rewrite !aligned_value by lia.
  assert (P1 : 0 < Zpos m1 * 2 ^ (e1 - Z.min e1 e2)).
  { apply Z.mul_pos_pos; [lia|]. apply Z.pow_pos_nonneg; lia. }
  assert (P2 : 0 < Zpos m2 * 2 ^ (e2 - Z.min e1 e2)).
  { apply Z.mul_pos_pos; [lia|]. apply Z.pow_pos_nonneg; lia. }
  assert (Cmp : (Zpos m1 * 2 ^ (e1 - Z.min e1 e2) ?= Zpos m2 * 2 ^ (e2 - Z.min e1 e2)) =
          match e1 ?= e2 with Lt => Lt | Gt => Gt | Eq => Pos.compare_cont Eq m1 m2 end).
  { destruct (Z.compare_spec e1 e2) as [He|He|He].
    - subst e2. rewrite Z.min_id, Z.sub_diag. simpl (2 ^ 0). rewrite !Z.mul_1_r. reflexivity.
    - rewrite Z.min_l, Z.sub_diag by lia. simpl (2 ^ 0). rewrite Z.mul_1_r.
      apply Z.compare_lt_iff. now apply mantissa_lt_across_exponents.
    - rewrite Z.min_r, Z.sub_diag by lia. simpl (2 ^ 0). rewrite Z.mul_1_r.
      apply Z.compare_gt_iff. now apply mantissa_lt_across_exponents. }
  set (a := Zpos m1 * 2 ^ (e1 - Z.min e1 e2)) in *.
  set (b := Zpos m2 * 2 ^ (e2 - Z.min e1 e2)) in *.
  unfold SFcompare. f_equal.
  destruct s1, s2; unfold cond_Zopp.
  - rewrite Z.compare_opp, (Z.compare_antisym a b), Cmp.
    destruct (e1 ?= e2); reflexivity.
  - symmetry. apply Z.compare_lt_iff. lia.
  - symmetry. apply Z.compare_gt_iff. lia.
  - now rewrite Cmp.
Qed.

(** *** The order through integer keys *)

Lemma compare_mul_pos_r (a b p : Z) : 0 < p -> (a * p ?= b * p) = (a ?= b).
Proof.
  intros Hp. destruct (Z.compare_spec a b) as [E|E|E].
  - subst. apply Z.compare_refl.
  - apply Z.compare_lt_iff. nia.
  - apply Z.compare_gt_iff. nia.
Qed.

Lemma SFkey_aligned s m e ez :
  -1074 <= ez <= e ->
  SFkey (S754_finite s m e) = aligned s m e ez * 2 ^ (ez + 1074).
Proof.
  intros H. rewrite aligned_value by lia. unfold SFkey.
  replace (e + 1074) with ((e - ez) + (ez + 1074)) by lia.
  rewrite Z.pow_add_r by lia. destruct s; unfold cond_Zopp; lia.
Qed.

Lemma SFkey_finite_bounds m e :
  bounded prec emax m e = true ->
  0 < Zpos m * 2 ^ (e + 1074) < 2 ^ 2100.
Proof.
  intros B. pose proof (bounded_mantissa _ _ B) as U.
  apply bounded_inv in B. destruct B as (Be & _ & _).
  assert (P : 0 < 2 ^ (e + 1074)) by (apply Z.pow_pos_nonneg; lia).
  split; [apply Z.mul_pos_pos; lia|].
  assert (Q : 2 ^ (e + 1074) <= 2 ^ 2045) by (apply Z.pow_le_mono_r; lia).
  apply Z.lt_trans with (2 ^ 53 * 2 ^ 2045).
  - apply Z.lt_le_trans with (2 ^ 53 * 2 ^ (e + 1074)).
    + apply Z.mul_lt_mono_pos_r; assumption.
    + apply Z.mul_le_mono_nonneg_l; [apply Z.pow_nonneg; lia | assumption].
  - rewrite <- Z.pow_add_r by lia. apply Z.pow_lt_mono_r; lia.
Qed.

(** For valid values other than [NaN], [SFcompare] is the comparison of
    the keys. *)
Lemma SFcompare_key (x y : spec_float) :
  valid_binary x = true -> valid_binary y = true ->
  x <> S754_nan -> y <> S754_nan ->
  SFcompare x y = Some (SFkey x ?= SFkey y).
Proof.
  intros Vx Vy Nx Ny.
  assert (I : 0 < 2 ^ 2100) by (apply Z.pow_pos_nonneg; lia).
  destruct x as [sx|sx| |sx mx ex]; try congruence;
  destruct y as [sy|sy| |sy my ey]; try congruence;
  simpl in Vx, Vy;
  try (pose proof (SFkey_finite_bounds _ _ Vx) as Kx);
  try (pose proof (SFkey_finite_bounds _ _ Vy) as Ky);
  unfold SFcompare; unfold SFkey, cond_Zopp;
  try (f_equal; symmetry;
       repeat match goal with s : bool |- _ => destruct s end;
       first [ reflexivity
             | apply Z.compare_eq_iff; lia
             | apply Z.compare_lt_iff; lia
             | apply Z.compare_gt_iff; lia ]).
  fold (SFcompare (S754_finite sx mx ex) (S754_finite sy my ey)).
  rewrite SFcompare_finite by assumption.
  pose proof (bounded_inv _ _ Vx) as (Bx & _). pose proof (bounded_inv _ _ Vy) as (By & _).
  fold (cond_Zopp sx (Zpos mx * 2 ^ (ex + 1074))).
  fold (cond_Zopp sy (Zpos my * 2 ^ (ey + 1074))).
  fold (SFkey (S754_finite sx mx ex)). fold (SFkey (S754_finite sy my ey)).
  rewrite (SFkey_aligned sx mx ex (Z.min ex ey)) by lia.
  rewrite (SFkey_aligned sy my ey (Z.min ex ey)) by lia.
  rewrite compare_mul_pos_r by (apply Z.pow_pos_nonneg; lia).
  reflexivity.
Qed.

(** *** Rounding keeps the sign *)

Lemma iter_pos_nat {A : Type} (f : A -> A) (p : positive) (x : A) :
  iter_pos f p x = Nat.iter (Pos.to_nat p) f x.
Proof.
  revert x. induction p as [p IH|p IH|]; intros x; simpl iter_pos.
  - rewrite !IH, Pos2Nat.inj_xI. simpl Nat.iter.
    replace (Pos.to_nat p + (Pos.to_nat p + 0))%nat with (Pos.to_nat p + Pos.to_nat p)%nat by lia.
    rewrite Nat.iter_add. rewrite <- Nat.iter_succ_r. simpl.
    rewrite <- Nat.iter_succ_r. reflexivity.
  - rewrite !IH, Pos2Nat.inj_xO. simpl Nat.mul.
    replace (Pos.to_nat p + (Pos.to_nat p + 0))%nat with (Pos.to_nat p + Pos.to_nat p)%nat by lia.
    now rewrite Nat.iter_add.
  - reflexivity.
Qed.

Lemma shr_1_m (mrs : shr_record) :
  0 <= shr_m mrs -> shr_m (shr_1 mrs) = shr_m mrs / 2.
Proof.
  destruct mrs as [m r s]. simpl shr_m. intros Hm.
  rewrite <- Z.div2_div.
  destruct m as [|[p|p|]|p]; simpl; try reflexivity; lia.
Qed.

Lemma shr_iter_m (n : nat) (mrs : shr_record) :
  0 <= shr_m mrs -> shr_m (Nat.iter n shr_1 mrs) = shr_m mrs / 2 ^ Z.of_nat n.
Proof.
  intros Hm. induction n as [|n IH].
  - simpl. now rewrite Z.div_1_r.
  - rewrite Nat.iter_succ, shr_1_m.
    + rewrite IH, Nat2Z.inj_succ, Z.pow_succ_r by lia.
      rewrite Z.div_div by (try apply Z.pow_pos_nonneg; lia).
      f_equal. lia.
    + rewrite IH. apply Z.div_pos; [lia|]. apply Z.pow_pos_nonneg; lia.
Qed.

Lemma shr_m_value (mrs : shr_record) (e n : Z) :
  0 <= shr_m mrs ->
  shr_m (fst (shr mrs e n)) = shr_m mrs / 2 ^ Z.max 0 n /\
  snd (shr mrs e n) = e + Z.max 0 n.
Proof.
  intros Hm. destruct n as [|p|p]; simpl shr; cbn [fst snd].
  - rewrite Z.div_1_r. lia.
  - rewrite iter_pos_nat, shr_iter_m by assumption.
    rewrite positive_nat_Z. replace (Z.max 0 (Zpos p)) with (Zpos p) by lia. tauto.
  - replace (Z.max 0 (Zneg p)) with 0 by lia. rewrite Z.div_1_r. lia.
Qed.

Lemma shr_record_of_loc_m m l : shr_m (shr_record_of_loc m l) = m.
Proof. destruct l as [|[]]; reflexivity. Qed.


(** Shifting a positive mantissa whose exponent is at least [emin] down
    to its canonical exponent keeps it positive. *)
Lemma shr_fexp_pos (m e : Z) (l : location) :
  0 < m -> -1074 <= e ->
  0 < shr_m (fst (shr_fexp prec emax m e l)) /\
  -1074 <= snd (shr_fexp prec emax m e l).
Proof.
  intros Hm He. unfold shr_fexp.
  destruct (shr_m_value (shr_record_of_loc m l) e
              (fexp prec emax (Zdigits2 m + e) - e)) as [Hv He'].
  { rewrite shr_record_of_loc_m. lia. }
  rewrite Hv, He', shr_record_of_loc_m.
  destruct m as [|p|p]; try lia. simpl Zdigits2.
  pose proof (digits2_pos_bounds p) as [L _].
  set (d := Zpos (digits2_pos p)) in *.
  set (k := Z.max 0 (fexp prec emax (d + e) - e)).
  assert (Hk : 0 <= k <= d - 1).
  { unfold k, fexp, SpecFloat.emin, prec, emax. lia. }
  split; [|lia].
  apply Z.div_str_pos. split; [apply Z.pow_pos_nonneg; lia|].
  eapply Z.le_trans; [|exact L]. apply Z.pow_le_mono_r; lia.
Qed.

Lemma round_nearest_even_pos m l : 0 < m -> 0 < round_nearest_even m l.
Proof. intros H. destruct l as [|[]]; simpl; try lia. destruct (Z.even m); lia. Qed.


Lemma binary_round_aux_signed s m e l :
  0 < m -> -1074 <= e -> signed_nonzero s (binary_round_aux prec emax s m e l).
Proof.
  intros Hm He. unfold binary_round_aux.
  pose proof (shr_fexp_pos m e l Hm He) as [P1 E1].
  destruct (shr_fexp prec emax m e l) as [mrs' e']. cbn [fst snd] in P1, E1.
  pose proof (shr_fexp_pos _ e' loc_Exact
                (round_nearest_even_pos _ (loc_of_shr_record mrs') P1) E1) as [P2 E2].
  destruct (shr_fexp prec emax _ e' loc_Exact) as [mrs'' e'']. cbn [fst snd] in P2, E2.
  destruct (shr_m mrs'') as [|q|q]; try lia.
  destruct (e'' <=? emax - prec); reflexivity.
Qed.


Lemma binary_round_signed s m e :
  -1074 <= e -> signed_nonzero s (binary_round prec emax s m e).
Proof.
  intros He. unfold binary_round.
  destruct (shl_align m e (fexp prec emax (Zpos (digits2_pos m) + e))) as [mz ez] eqn:Ha.
  apply binary_round_aux_signed; [lia|].
  unfold shl_align in Ha.
  destruct (fexp prec emax (Zpos (digits2_pos m) + e) - e) eqn:Hd; inversion Ha; subst; try lia.
  unfold fexp, SpecFloat.emin, prec, emax. lia.
Qed.

Lemma SFltb_zero_signed s r :
  signed_nonzero s r -> SFltb (S754_zero false) r = negb s.
Proof. destruct r as [| |  |s' m e]; simpl; try tauto; intros ->; now destruct s. Qed.

(** The sign of a rounded difference is the sign of the exact one:
    [y - x] is positive exactly when [x < y]. *)
Lemma SFsub_pos_iff_lt (x y : spec_float) :
  valid_binary x = true -> valid_binary y = true ->
  x <> S754_nan -> y <> S754_nan ->
  SFltb (S754_zero false) (SF64sub y x) = SFltb x y.
Proof.
  intros Vx Vy Nx Ny.
  destruct x as [sx|sx| |sx mx ex]; try congruence;
  destruct y as [sy|sy| |sy my ey]; try congruence;
  try (destruct sx, sy; reflexivity); try (destruct sx; reflexivity);
  try (destruct sy; reflexivity).
  unfold SF64sub, SFsub.
  simpl in Vx, Vy.
  unfold SFltb at 2. rewrite (SFcompare_finite sx mx ex sy my ey Vx Vy).
  fold (aligned sy my ey (Z.min ey ex)). fold (aligned sx mx ex (Z.min ey ex)).
  rewrite (Z.min_comm ey ex).
  set (X := aligned sx mx ex (Z.min ex ey)). set (Y := aligned sy my ey (Z.min ex ey)).
  apply bounded_inv in Vx, Vy.
  assert (Hmin : -1074 <= Z.min ex ey) by lia.
  unfold binary_normalize.
  destruct (Z.compare_spec X Y) as [E|E|E].
  - replace (Y - X) with 0 by lia. reflexivity.
  - destruct (Y - X) as [|p|p] eqn:D; try lia.
    now rewrite (SFltb_zero_signed false) by (now apply binary_round_signed).
  - destruct (Y - X) as [|p|p] eqn:D; try lia.
    now rewrite (SFltb_zero_signed true) by (now apply binary_round_signed).
Qed.

(** *** The same facts on primitive floats *)

Lemma is_nan_spec (x : float) : is_nan x = true <-> Prim2SF x = S754_nan.
Proof.
  unfold is_nan, PrimFloat.is_nan. rewrite eqb_spec. unfold SFeqb.
  destruct (Prim2SF x) as [s|s| |s m e] eqn:E.
  - simpl. split; discriminate.
  - destruct s; simpl; split; discriminate.
  - simpl. tauto.
  - rewrite SFcompare_key; try discriminate.
    + rewrite Z.compare_refl. simpl. split; discriminate.
    + rewrite <- E. apply Prim2SF_valid.
    + rewrite <- E. apply Prim2SF_valid.
Qed.

Lemma not_nan_spec (x : float) : is_nan x = false <-> Prim2SF x <> S754_nan.
Proof.
  rewrite <- is_nan_spec. destruct (is_nan x); split; congruence.
Qed.

Lemma compare_key (x y : float) :
  is_nan x = false -> is_nan y = false ->
  SFcompare (Prim2SF x) (Prim2SF y) = Some (key x ?= key y).
Proof.
  intros Nx Ny. apply SFcompare_key; try apply Prim2SF_valid; now apply not_nan_spec.
Qed.

Lemma leb_key (x y : float) :
  is_nan x = false -> is_nan y = false -> (x <=? y)%float = (key x <=? key y).
Proof.
  intros Nx Ny. rewrite leb_spec. unfold SFleb. rewrite compare_key by assumption.
  unfold Z.leb. now destruct (key x ?= key y).
Qed.

Lemma ltb_key (x y : float) :
  is_nan x = false -> is_nan y = false -> (x <? y)%float = (key x <? key y).
Proof.
  intros Nx Ny. rewrite ltb_spec. unfold SFltb. rewrite compare_key by assumption.
  unfold Z.ltb. now destruct (key x ?= key y).
Qed.

Lemma eqb_key (x y : float) :
  is_nan x = false -> is_nan y = false -> (x =? y)%float = (key x =? key y).
Proof.
  intros Nx Ny. rewrite eqb_spec. unfold SFeqb. rewrite compare_key by assumption.
  unfold Z.eqb. destruct (Z.compare_spec (key x) (key y)) as [E|E|E].
  - rewrite E. destruct (key y); try reflexivity; now rewrite Pos.eqb_refl.
  - destruct (key x), (key y); try reflexivity; try lia.
    all: symmetry; apply Pos.eqb_neq; lia.
  - destruct (key x), (key y); try reflexivity; try lia.
    all: symmetry; apply Pos.eqb_neq; lia.
Qed.

Lemma SFcompare_nan_l y : SFcompare S754_nan y = None.
Proof. now destruct y. Qed.

Lemma SFcompare_nan_r x : SFcompare x S754_nan = None.
Proof. now destruct x. Qed.

Lemma leb_true_not_nan (x y : float) :
  (x <=? y)%float = true -> is_nan x = false /\ is_nan y = false.
Proof.
  rewrite leb_spec. unfold SFleb. intros H.
  split; apply not_nan_spec; intros E; rewrite E in H;
    [rewrite SFcompare_nan_l in H | rewrite SFcompare_nan_r in H]; discriminate.
Qed.

Lemma ltb_true_not_nan (x y : float) :
  (x <? y)%float = true -> is_nan x = false /\ is_nan y = false.
Proof.
  rewrite ltb_spec. unfold SFltb. intros H.
  split; apply not_nan_spec; intros E; rewrite E in H;
    [rewrite SFcompare_nan_l in H | rewrite SFcompare_nan_r in H]; discriminate.
Qed.

(** The comparator result [y - x] is positive exactly when [x < y]. *)
Lemma sub_pos_key (x y : float) :
  is_nan x = false -> is_nan y = false ->
  gt (y - x)%float 0%float = (key x <? key y).
Proof.
  intros Nx Ny. unfold gt. rewrite <- ltb_key by assumption.
  rewrite !ltb_spec, sub_spec.
  change (Prim2SF 0%float) with (S754_zero false).
  apply SFsub_pos_iff_lt; try apply Prim2SF_valid; now apply not_nan_spec.
Qed.

(** *** Zeros, finite values and products *)

Lemma eqb_zero_spec (x : float) :
  (x =? 0)%float = true <-> exists s, Prim2SF x = S754_zero s.
Proof.
  rewrite eqb_spec. change (Prim2SF 0%float) with (S754_zero false).
  destruct (Prim2SF x) as [s|s| |s m e]; unfold SFeqb; simpl.
  - split; eauto.
  - destruct s; split; try discriminate; intros [s' H]; discriminate.
  - split; try discriminate; intros [s' H]; discriminate.
  - destruct s; split; try discriminate; intros [s' H]; discriminate.
Qed.

Lemma is_finite_spec (x : float) :
  is_finite x = true ->
  (exists s, Prim2SF x = S754_zero s) \/ (exists s m e, Prim2SF x = S754_finite s m e).
Proof.
  unfold is_finite, is_infinity. intros H. apply negb_true_iff, orb_false_iff in H.
  destruct H as [Hn Hi]. apply not_nan_spec in Hn.
  rewrite eqb_spec, abs_spec in Hi.
  change (Prim2SF infinity) with (S754_infinity false) in Hi.
  destruct (Prim2SF x) as [s|s| |s m e]; eauto; try congruence.
  destruct s; discriminate.
Qed.

Lemma is_finite_not_nan (x : float) : is_finite x = true -> is_nan x = false.
Proof.
  unfold is_finite. intros H. apply negb_true_iff, orb_false_iff in H. apply H.
Qed.

(** A zero times a finite value is a zero. *)
Lemma mul_zero_finite (x y : float) :
  (x =? 0)%float = true -> is_finite y = true -> (x * y =? 0)%float = true.
Proof.
  intros Hx Hy. apply eqb_zero_spec in Hx. destruct Hx as [s Hx].
  apply eqb_zero_spec. rewrite mul_spec, Hx.
  destruct (is_finite_spec y Hy) as [[s' ->]|(s' & m & e & ->)]; simpl; eauto.
Qed.

Lemma mul_finite_zero (x y : float) :
  is_finite x = true -> (y =? 0)%float = true -> (x * y =? 0)%float = true.
Proof.
  intros Hx Hy. apply eqb_zero_spec in Hy. destruct Hy as [s Hy].
  apply eqb_zero_spec. rewrite mul_spec, Hy.
  destruct (is_finite_spec x Hx) as [[s' ->]|(s' & m & e & ->)]; simpl; eauto.
Qed.


(** *** [Math.min] *)



End NumberFacts.

(** ** The bit pattern of a number and the bytes of a buffer *)

Module BufferFacts.

Import Number Buffer NumberFacts.
Local Open Scope Z_scope.

Lemma bits_fields (s : bool) (E M : Z) :
  0 <= E < 2048 -> 0 <= M < 2 ^ 52 ->
  let b := sign_bit s + (E * 2 ^ 52 + M) in
  Z.testbit b 63 = s /\ (b / 2 ^ 52) mod 2048 = E /\ b mod 2 ^ 52 = M.
Proof.
  intros HE HM b. subst b.
  change (2 ^ 52) with 4503599627370496 in *.
  assert (Hs : sign_bit s = (if s then 2048 else 0) * 4503599627370496) by (now destruct s).
  rewrite Hs. repeat split.
  - rewrite Z.testbit_odd, Z.shiftr_div_pow2 by lia.
    change (2 ^ 63) with 9223372036854775808.
    destruct s.
    + replace ((2048 * 4503599627370496 + (E * 4503599627370496 + M)) / 9223372036854775808) with 1; [reflexivity|].
      apply Z.div_unique with (E * 4503599627370496 + M); lia.
    + rewrite Z.div_small; [reflexivity|lia].
  - replace (((if s then 2048 else 0) * 4503599627370496 + (E * 4503599627370496 + M)) / 4503599627370496)
      with ((if s then 2048 else 0) + E).
    + destruct s.
      * symmetry. apply Z.mod_unique with 1; lia.
      * apply Z.mod_small. lia.
    + apply Z.div_unique with M; destruct s; lia.
  - symmetry. apply Z.mod_unique with ((if s then 2048 else 0) + E); destruct s; lia.
Qed.

(** Decoding the bit pattern of a valid value gives the value back. *)
Lemma SF_of_to_bits (x : spec_float) :
  valid_binary x = true -> SF_of_bits (SF_to_bits x) = x.
Proof.
  intros V. destruct x as [s|s| |s m e].
  - destruct s; reflexivity.
  - destruct s; reflexivity.
  - reflexivity.
  - simpl in V.
    pose proof (bounded_mantissa _ _ V) as U.
    pose proof (digits2_pos_bounds m) as [L _].
    apply bounded_inv in V. destruct V as (Be & Bd & Bn).
    unfold SF_to_bits.
    destruct (Zpos (digits2_pos m) =? 53) eqn:D.
    + apply Z.eqb_eq in D. rewrite D in L.
      change (2 ^ (53 - 1)) with (2 ^ 52) in L.
      change (2 ^ 53) with (2 * 2 ^ 52) in U.
      destruct (bits_fields s (e + 1075) (Zpos m - 2 ^ 52)) as (Hs & HE & HM); try lia.
      unfold SF_of_bits. rewrite Hs, HE, HM.
      replace (e + 1075 =? 0) with false by (symmetry; apply Z.eqb_neq; lia).
      replace (e + 1075 =? 2047) with false by (symmetry; apply Z.eqb_neq; lia).
      f_equal; [|lia].
      replace (Zpos m - 2 ^ 52 + 2 ^ 52) with (Zpos m) by lia. reflexivity.
    + apply Z.eqb_neq in D.
      assert (He : e = -1074) by (destruct (Z.eq_dec e (-1074)); [assumption|]; exfalso; auto).
      assert (Um : Zpos m < 2 ^ 52).
      { pose proof (digits2_pos_bounds m) as [_ U'].
        eapply Z.lt_le_trans; [exact U'|]. apply Z.pow_le_mono_r; lia. }
      destruct (bits_fields s 0 (Zpos m)) as (Hs & HE & HM); try lia.
      simpl (0 * 2 ^ 52 + Zpos m) in Hs, HE, HM.
      unfold SF_of_bits. rewrite Hs, HE, HM.
      simpl. subst e. reflexivity.
Qed.

(** The layout on known patterns: 1.0 is [0x3FF0000000000000], -2.0 is
    [0xC000000000000000], the least positive number is [1], the largest
    finite one is [0x7FEFFFFFFFFFFFFF]. *)
Lemma float_to_bits_examples :
  float_to_bits 1%float = 0x3FF0000000000000 /\
  float_to_bits (-2)%float = 0xC000000000000000 /\
  float_to_bits (-0)%float = 0x8000000000000000 /\
  float_to_bits 0x1p-1074%float = 1 /\
  float_to_bits 0x1.fffffffffffffp+1023%float = 0x7FEFFFFFFFFFFFFF /\
  float_to_bits infinity = 0x7FF0000000000000.
Proof. repeat split. Qed.

Lemma float_of_to_bits (x : float) : float_of_bits (float_to_bits x) = x.
Proof.
  unfold float_of_bits, float_to_bits.
  rewrite SF_of_to_bits by apply Prim2SF_valid. apply SF2Prim_Prim2SF.
Qed.

Lemma float_to_bits_range (x : float) : 0 <= float_to_bits x < 2 ^ 64.
Proof.
  unfold float_to_bits. pose proof (Prim2SF_valid x) as V.
  destruct (Prim2SF x) as [s|s| |s m e]; unfold SF_to_bits.
  - destruct s; simpl; lia.
  - destruct s; simpl; lia.
  - simpl; lia.
  - simpl in V. pose proof (bounded_mantissa _ _ V) as U.
    pose proof (digits2_pos_bounds m) as [L _].
    apply bounded_inv in V. destruct V as (Be & Bd & Bn).
    change (2 ^ 64) with 18446744073709551616.
    change (2 ^ 53) with 9007199254740992 in U.
    assert (Hs : 0 <= sign_bit s <= 9223372036854775808) by (destruct s; simpl; lia).
    destruct (Zpos (digits2_pos m) =? 53) eqn:D.
    + apply Z.eqb_eq in D. rewrite D in L.
      change (2 ^ (53 - 1)) with 4503599627370496 in L.
      change (2 ^ 52) with 4503599627370496. lia.
    + lia.
Qed.

Lemma Z_of_byte_of_Z (z : Z) : Z_of_byte (byte_of_Z z) = z mod 256.
Proof.
  unfold Z_of_byte, byte_of_Z.
  pose proof (Z.mod_pos_bound z 256 ltac:(lia)) as B.
  destruct (Byte.of_N (Z.to_N (z mod 256))) as [b|] eqn:E.
  - apply Byte.to_of_N in E. rewrite E. lia.
  - apply Byte.of_N_None_iff in E. lia.
Qed.

Lemma le_value_bytes (n : nat) (z : Z) :
  le_value (le_bytes n z) = z mod 256 ^ Z.of_nat n.
Proof.
  revert z. induction n as [|n IH]; intros z.
  - simpl. now rewrite Z.mod_1_r.
  - cbn [le_bytes le_value]. rewrite Z_of_byte_of_Z, IH.
    rewrite Nat2Z.inj_succ, Z.pow_succ_r by lia.
    rewrite Z.rem_mul_r by (try apply Z.pow_nonzero; lia). reflexivity.
Qed.

Lemma le_bytes_length (n : nat) (z : Z) : List.length (le_bytes n z) = n.
Proof. revert z. induction n; intros z; simpl; auto. Qed.

(** Reading back the eight bytes written for an element gives the element. *)
Lemma float64_of_to_bytes (x : float) : float64_of_bytes (float64_to_bytes x) = x.
Proof.
  unfold float64_of_bytes, float64_to_bytes. rewrite le_value_bytes.
  change (256 ^ Z.of_nat 8) with (2 ^ 64).
  rewrite Z.mod_small by apply float_to_bits_range.
  apply float_of_to_bits.
Qed.

End BufferFacts.

(** ** Sorting by a numeric comparator *)

Module SortFacts.

Import Number NumberFacts Js.

Lemma sort_insert_perm {A : Type} (c : A -> A -> float) (x : A) (l : list A) :
  Permutation (sort_insert c x l) (x :: l).
Proof.
  induction l as [|y l IH]; simpl.
  - apply Permutation_refl.
  - destruct (gt (c x y) 0%float).
    + eapply Permutation_trans; [apply perm_skip, IH | apply perm_swap].
    + apply Permutation_refl.
Qed.

Lemma Array_sort_perm {A : Type} (c : A -> A -> float) (l : list A) :
  Permutation (Array_sort c l) l.
Proof.
  induction l as [|x l IH]; simpl.
  - apply perm_nil.
  - eapply Permutation_trans; [apply sort_insert_perm | apply perm_skip, IH].
Qed.

Lemma firstn_In {A : Type} (n : nat) (l : list A) (y : A) : In y (firstn n l) -> In y l.
Proof.
  revert n. induction l as [|z l IH]; intros n; destruct n; simpl; try tauto.
  intros [->|H]; [now left | right; eauto].
Qed.

Lemma firstn_sorted {A : Type} (R : A -> A -> Prop) (n : nat) (l : list A) :
  StronglySorted R l -> StronglySorted R (firstn n l).
Proof.
  revert n. induction l as [|x l IH]; intros n S; destruct n; simpl; try constructor.
  - inversion S; subst. now apply IH.
  - inversion S as [|? ? _ Hx]; subst. rewrite Forall_forall in *. intros y Hy.
    apply Hx. eapply firstn_In, Hy.
Qed.

Section ByKey.

Variable A : Type.
Variable f : A -> float.

(** The comparator [(a, b) => f(b) - f(a)]. *)
Let cmp (a b : A) : float := (f b - f a)%float.

Let above (a b : A) : Prop := ge (f a) (f b) = true.

Lemma above_key (a b : A) :
  is_nan (f a) = false -> is_nan (f b) = false ->
  above a b <-> (key (f b) <= key (f a))%Z.
Proof.
  intros Na Nb. unfold above, ge. rewrite leb_key by assumption. apply Z.leb_le.
Qed.

Lemma sort_insert_sorted (x : A) (l : list A) :
  is_nan (f x) = false -> Forall (fun a => is_nan (f a) = false) l ->
  StronglySorted above l -> StronglySorted above (sort_insert cmp x l).
Proof.
  intros Nx Nl Sl. induction l as [|y l IH]; simpl.
  - repeat constructor.
  - inversion Nl as [|? ? Ny Nl']; subst. inversion Sl as [|? ? Sl' Hy]; subst.
    unfold cmp at 1. rewrite sub_pos_key by assumption.
    destruct (key (f x) <? key (f y))%Z eqn:K.
    + apply Z.ltb_lt in K. constructor; [now apply IH|].
      eapply Permutation_Forall; [apply Permutation_sym, sort_insert_perm|].
      constructor; [|assumption]. apply above_key; try assumption. lia.
    + apply Z.ltb_ge in K. constructor; [now constructor|].
      constructor; [apply above_key; assumption|].
      rewrite Forall_forall in Hy, Nl' |- *. intros z Hz.
      specialize (Hy z Hz). specialize (Nl' z Hz).
      apply above_key in Hy; try assumption. apply above_key; try assumption. lia.
Qed.

(** Sorting numbers that are not [NaN] with [(a, b) => f(b) - f(a)] puts
    them in descending order. *)
Lemma Array_sort_sorted (l : list A) :
  Forall (fun a => is_nan (f a) = false) l ->
  StronglySorted above (Array_sort cmp l).
Proof.
  induction l as [|x l IH]; intros N; simpl.
  - constructor.
  - inversion N; subst. apply sort_insert_sorted; auto.
    eapply Permutation_Forall; [apply Permutation_sym, Array_sort_perm | assumption].
Qed.

End ByKey.

(** *** [slice(0, stop)] *)

Lemma slice_final_le (stop : float) (len : nat) : (slice_final stop len <= len)%nat.
Proof.
  unfold slice_final. destruct (ToIntegerOrInfinity stop) as [|z|]; [lia| |lia].
  destruct (z <? 0)%Z eqn:E; [apply Z.ltb_lt in E | apply Z.ltb_ge in E]; lia.
Qed.

Lemma Array_slice0_length {A : Type} (stop : float) (l : list A) :
  List.length (Array_slice0 stop l) = slice_final stop (List.length l).
Proof.
  unfold Array_slice0. rewrite length_firstn.
  pose proof (slice_final_le stop (List.length l)). lia.
Qed.

Lemma Array_slice0_prefix {A : Type} (stop : float) (l : list A) :
  Array_slice0 stop l = firstn (List.length (Array_slice0 stop l)) l.
Proof. now rewrite Array_slice0_length. Qed.

Lemma Array_slice0_In {A : Type} (stop : float) (l : list A) (y : A) :
  In y (Array_slice0 stop l) -> In y l.
Proof. unfold Array_slice0. apply firstn_In. Qed.

(** At a number whose integer part is the count [n], [slice(0, stop)]
    keeps the first [n] elements. *)
Lemma Array_slice0_count {A : Type} (stop : float) (n : nat) (l : list A) :
  ToIntegerOrInfinity stop = Integer (Z.of_nat n) -> Array_slice0 stop l = firstn n l.
Proof.
  intros E. unfold Array_slice0, slice_final. rewrite E.
  assert (N : (Z.of_nat n <? 0)%Z = false) by (apply Z.ltb_ge; lia). rewrite N.
  destruct (Nat.le_gt_cases n (List.length l)) as [L|L].
  - f_equal. lia.
  - rewrite (firstn_all2 (n := n)) by lia. apply firstn_all2. lia.
Qed.

Lemma Array_slice0_all {A : Type} (stop : float) (l : list A) :
  reaches stop (List.length l) -> Array_slice0 stop l = l.
Proof.
  unfold reaches, Array_slice0, slice_final.
  destruct (ToIntegerOrInfinity stop) as [|z|]; intros R.
  - destruct R.
  - assert (N : (z <? 0)%Z = false) by (apply Z.ltb_ge; lia). rewrite N.
    apply firstn_all2. lia.
  - apply firstn_all2. lia.
Qed.

(** The number of elements that [slice(0, stop)] keeps of [len]. *)
Lemma slice_final_cases (stop : float) (len : nat) :
  match ToIntegerOrInfinity stop with
  | NegInfinity => slice_final stop len = 0%nat
  | PosInfinity => slice_final stop len = len
  | Integer z =>
      ((0 <= z)%Z -> Z.of_nat (slice_final stop len) = Z.min z (Z.of_nat len)) /\
      ((z < 0)%Z -> Z.of_nat (slice_final stop len) = Z.max (Z.of_nat len + z) 0)
  end.
Proof.
  unfold slice_final. destruct (ToIntegerOrInfinity stop) as [|z|]; try reflexivity.
  destruct (z <? 0)%Z eqn:E; [apply Z.ltb_lt in E | apply Z.ltb_ge in E]; split; lia.
Qed.

End SortFacts.

(** ** memory-db.ts: embeddings as blobs *)

Module BlobSpec.

Import Js MemoryDB BufferFacts.

Lemma Float64Array_from_bytes (x : float) (rest : list byte) :
  Float64Array_from (Buffer.float64_to_bytes x ++ rest) =
  option_map (cons x) (Float64Array_from rest).
Proof.
  rewrite <- (float64_of_to_bytes x) at 2.
  unfold Buffer.float64_to_bytes. cbn [Buffer.le_bytes app Float64Array_from].
  reflexivity.
Qed.

(** C9. Decoding the blob that [encodeEmbedding] writes for a vector gives
    back the vector itself, element for element: equality of binary64
    values tells [-0] from [+0] and every finite or infinite value from
    every other. *)
Theorem decodeEmbedding_encodeEmbedding (vec : list float) :
  decodeEmbedding (encodeEmbedding vec) = Returned vec.
Proof.
  unfold decodeEmbedding, encodeEmbedding.
  assert (H : Float64Array_from (flat_map Buffer.float64_to_bytes vec) = Some vec).
  { induction vec as [|x vec IH]; [reflexivity|].
    cbn [flat_map]. now rewrite Float64Array_from_bytes, IH. }
  now rewrite H.
Qed.

Lemma encodeEmbedding_length (vec : list float) :
  List.length (encodeEmbedding vec) = (8 * List.length vec)%nat.
Proof.
  unfold encodeEmbedding. induction vec as [|x vec IH]; [reflexivity|].
  cbn [flat_map]. rewrite length_app, IH.
  unfold Buffer.float64_to_bytes. rewrite le_bytes_length. simpl. lia.
Qed.

(** A blob decodes exactly when its length is a multiple of 8. *)
Lemma Float64Array_from_None (blob : list byte) :
  Float64Array_from blob = None <-> (List.length blob mod 8 <> 0)%nat.
Proof.
  assert (G : forall n blob, (List.length blob < n)%nat ->
            (Float64Array_from blob = None <-> (List.length blob mod 8 <> 0)%nat)).
  { induction n as [|n IH]; intros l Hl; [lia|].
    destruct l as [|b0 [|b1 [|b2 [|b3 [|b4 [|b5 [|b6 [|b7 rest]]]]]]]];
      try (simpl; split; [intros _; discriminate | reflexivity]).
    - simpl. split; [discriminate | intros H; now elim H].
    - cbn [Float64Array_from List.length] in *.
      replace (S (S (S (S (S (S (S (S (List.length rest)))))))))
        with (List.length rest + 1 * 8)%nat by lia.
      rewrite Nat.Div0.mod_add. rewrite <- IH by lia.
      destruct (Float64Array_from rest); simpl; split; congruence. }
  apply (G (S (List.length blob))). lia.
Qed.

End BlobSpec.

(** ** memory-db.ts: cosineSimilarity *)

Module SimilaritySpec.

Import Number NumberFacts Js MemoryDB.
Local Open Scope float_scope.

Lemma cosine_loop_prefix (a b : list float) (dot normA normB : float) :
  let n := shared_prefix_length a b in
  cosine_loop a b dot normA normB =
  (fold_left (fun acc p => acc + fst p * snd p) (combine (firstn n a) (firstn n b)) dot,
   fold_left (fun acc x => acc + x * x) (firstn n a) normA,
   fold_left (fun acc x => acc + x * x) (firstn n b) normB).
Proof.
  unfold shared_prefix_length. revert b dot normA normB.
  induction a as [|x a IH]; intros [|y b] dot normA normB; try reflexivity.
  cbn [List.length Nat.min firstn combine fold_left cosine_loop fst snd].
  apply IH.
Qed.

Lemma cosineSimilarity_prefix (a b : list float) :
  let n := shared_prefix_length a b in
  cosineSimilarity a b = cosine_of (firstn n a) (firstn n b).
Proof.
  intros n. unfold cosineSimilarity. rewrite cosine_loop_prefix. reflexivity.
Qed.

(** A vector of zeros, of either sign, has magnitude [+0]. *)
Lemma magnitude_zeros (u : list float) :
  Forall (fun x => (x =? 0) = true) u -> magnitude u = 0.
Proof.
  unfold magnitude, sum_of_squares. intros H.
  assert (G : fold_left (fun acc x => acc + x * x) u 0 = 0).
  { induction H as [|x u Hx _ IH]; [reflexivity|].
    cbn [fold_left]. apply eqb_zero_spec in Hx. destruct Hx as [s Hx].
    assert (E : x * x = 0).
    { apply Prim2SF_inj. rewrite mul_spec, Hx. now destruct s. }
    rewrite E. exact IH. }
  now rewrite G.
Qed.

(** The score is negative for opposed vectors. *)
Lemma cosineSimilarity_opposed : cosineSimilarity [1] [-1] = -1.
Proof. reflexivity. Qed.

(** Rounding can take the score of a vector against itself above 1. *)
Lemma cosineSimilarity_rounds_above_one :
  Number.gt (cosineSimilarity [1; 1; 1] [1; 1; 1]) 1 = true.
Proof. reflexivity. Qed.

(** When the squares of the other vector overflow, the zero vector scores
    [NaN]: the denominator is [0 * Infinity]. *)
Lemma cosineSimilarity_zero_against_overflow :
  Number.is_nan (cosineSimilarity [0] [0x1p+600]) = true.
Proof. reflexivity. Qed.

(** C3, counterexample. The score of [[1]] against [[-1]] is [-1], which
    is not in [[0, 1]]. *)
Lemma cosineSimilarity_not_in_unit_interval :
  ~ (Number.ge (cosineSimilarity [1] [-1]) 0 = true /\
     Number.ge 1 (cosineSimilarity [1] [-1]) = true).
Proof. intros [H _]. vm_compute in H. discriminate. Qed.

(** C3, as amended. [cosineSimilarity a b] is the cosine of the two
    vectors cut to their shared prefix of length [min(len a, len b)]; it
    is [0], with no division, whenever the denominator is zero, and so
    whenever one prefix has magnitude zero and the other a finite
    magnitude. *)
Theorem cosineSimilarity_spec (a b : list float) :
  let n := shared_prefix_length a b in
  let u := firstn n a in
  let v := firstn n b in
  cosineSimilarity a b = cosine_of u v /\
  (strict_eq (magnitude u * magnitude v) 0 = true -> cosineSimilarity a b = 0) /\
  (strict_eq (magnitude u) 0 = true -> is_finite (magnitude v) = true ->
   cosineSimilarity a b = 0) /\
  (is_finite (magnitude u) = true -> strict_eq (magnitude v) 0 = true ->
   cosineSimilarity a b = 0).
Proof.
  intros n u v.
  assert (E : cosineSimilarity a b = cosine_of u v) by apply cosineSimilarity_prefix.
  assert (Z : strict_eq (magnitude u * magnitude v) 0 = true -> cosineSimilarity a b = 0).
  { intros H. rewrite E. unfold cosine_of. now rewrite H. }
  repeat split; try assumption.
  - intros Hu Hv. apply Z. now apply mul_zero_finite.
  - intros Hu Hv. apply Z. now apply mul_finite_zero.
Qed.

(** The amended statement at a zero vector against a vector of magnitude 5. *)
Lemma cosineSimilarity_spec_at_zero_vector :
  cosineSimilarity [0; -0; 0] [3; 4] = 0.
Proof.
  exact (proj1 (proj2 (proj2 (cosineSimilarity_spec [0; -0; 0] [3; 4]))) eq_refl eq_refl).
Defined.

End SimilaritySpec.

(** ** memory-db.ts: vectorSearch *)

Module SearchSpec.

Import Number NumberFacts Js MemoryDB SortFacts.
Local Open Scope string_scope.
Local Open Scope float_scope.

Lemma scan_row_decoded (q : list float) (minScore : float) (row : memories_row) :
  scan_row q minScore row =
  match decoded row with
  | Some stored =>
      if ge (cosineSimilarity q stored) minScore
      then Some {| entry := entry_of_row row stored; score := cosineSimilarity q stored |}
      else None
  | None => None
  end.
Proof.
  unfold scan_row, decoded. destruct (col_embedding row) as [blob|]; [|reflexivity].
  destruct (decodeEmbedding blob); reflexivity.
Qed.

Lemma scan_row_Some (q : list float) (minScore : float) (row : memories_row)
    (r : MemorySearchResult) :
  scan_row q minScore row = Some r <->
  exists stored, decoded row = Some stored /\
    ge (cosineSimilarity q stored) minScore = true /\
    r = {| entry := entry_of_row row stored; score := cosineSimilarity q stored |}.
Proof.
  rewrite scan_row_decoded. destruct (decoded row) as [stored|].
  - destruct (ge (cosineSimilarity q stored) minScore) eqn:G; split.
    + intros [= <-]. eauto.
    + intros (st & [= <-] & _ & ->). reflexivity.
    + discriminate.
    + intros (st & [= <-] & G' & _). congruence.
  - split; [discriminate | intros (st & H & _); discriminate].
Qed.

Lemma scan_In (q : list float) (minScore : float) (rows : list memories_row)
    (r : MemorySearchResult) :
  In r (scan q minScore rows) <->
  exists row, In row rows /\ scan_row q minScore row = Some r.
Proof.
  induction rows as [|row rows IH]; simpl.
  - split; [tauto | intros (row & [] & _)].
  - destruct (scan_row q minScore row) as [r'|] eqn:E; simpl; rewrite IH; split.
    + intros [<-|(row' & H1 & H2)]; eauto.
    + intros (row' & [<-|H1] & H2); [left; congruence | right; eauto].
    + intros (row' & H1 & H2); eauto.
    + intros (row' & [<-|H1] & H2); [congruence | eauto].
Qed.

Lemma scan_above_minScore (q : list float) (minScore : float) (rows : list memories_row) :
  Forall (fun r => ge (score r) minScore = true) (scan q minScore rows).
Proof.
  apply Forall_forall. intros r Hr. apply scan_In in Hr.
  destruct Hr as (row & _ & Hs). apply scan_row_Some in Hs.
  destruct Hs as (st & _ & G & ->). exact G.
Qed.

Lemma scan_not_nan (q : list float) (minScore : float) (rows : list memories_row) :
  Forall (fun r => is_nan (score r) = false) (scan q minScore rows).
Proof.
  eapply Forall_impl; [|apply scan_above_minScore].
  intros r G. unfold ge in G. now apply leb_true_not_nan in G.
Qed.

(** Rows with no embedding, or with one that does not decode, do not
    bear on the scan. *)
Lemma scan_only_indexed (q : list float) (minScore : float) (rows : list memories_row) :
  scan q minScore (filter indexed rows) = scan q minScore rows.
Proof.
  induction rows as [|row rows IH]; [reflexivity|].
  cbn [filter scan]. unfold indexed at 1.
  destruct (decoded row) as [st|] eqn:D.
  - cbn [scan]. now rewrite IH.
  - rewrite IH, scan_row_decoded, D. reflexivity.
Qed.

Lemma sorted_scan_descending (q : list float) (minScore : float) (rows : list memories_row) :
  descending (Array_sort by_score_desc (scan q minScore rows)).
Proof.
  apply (Array_sort_sorted MemorySearchResult score). apply scan_not_nan.
Qed.

Lemma vectorSearch_In (db : Database) (q : list float) (limit : nat) (minScore : float)
    (r : MemorySearchResult) :
  In r (vectorSearch db q limit minScore) -> In r (scan q minScore (memories db)).
Proof.
  unfold vectorSearch, slice0. intros H. apply firstn_In in H.
  eapply Permutation_in; [apply Array_sort_perm | exact H].
Qed.

Lemma vectorSearch_number_In (db : Database) (q : list float) (limit : float)
    (minScore : float) (r : MemorySearchResult) :
  In r (vectorSearch_number db q limit minScore) -> In r (scan q minScore (memories db)).
Proof.
  unfold vectorSearch_number. intros H. apply Array_slice0_In in H.
  eapply Permutation_in; [apply Array_sort_perm | exact H].
Qed.

(** [vectorSearch] at a count is [vectorSearch_number] at every number
    whose integer part is that count. *)
Lemma vectorSearch_number_count (db : Database) (q : list float) (limit : float)
    (n : nat) (minScore : float) :
  ToIntegerOrInfinity limit = Integer (Z.of_nat n) ->
  vectorSearch_number db q limit minScore = vectorSearch db q n minScore.
Proof.
  intros E. unfold vectorSearch_number, vectorSearch, slice0.
  now apply Array_slice0_count.
Qed.

(** The counts with which the program itself calls [vectorSearch], and the
    default limit. *)
Lemma ToIntegerOrInfinity_examples :
  ToIntegerOrInfinity 1 = Integer 1 /\
  ToIntegerOrInfinity 5 = Integer 5 /\
  ToIntegerOrInfinity 10 = Integer 10 /\
  ToIntegerOrInfinity 2.5 = Integer 2 /\
  ToIntegerOrInfinity (-1) = Integer (-1) /\
  ToIntegerOrInfinity (-0.5) = Integer 0 /\
  ToIntegerOrInfinity nan = Integer 0 /\
  ToIntegerOrInfinity infinity = PosInfinity /\
  ToIntegerOrInfinity neg_infinity = NegInfinity.
Proof. repeat split. Qed.

(** C2, counterexample. On the table of the scenarios two rows match the
    query at a minimum score of 0.3. With a limit of [-1] the search
    returns the first of them: [slice(0, -1)] drops the last element, and
    one entry is more than [-1] entries. *)
Lemma vectorSearch_exceeds_negative_limit :
  map (fun r => id (entry r)) (vectorSearch_number scenario_db [1; 0; 0; 0] 5 0.3) =
    ["a"; "d"] /\
  map (fun r => id (entry r)) (vectorSearch_number scenario_db [1; 0; 0; 0] (-1) 0.3) =
    ["a"] /\
  ToIntegerOrInfinity (-1) = Integer (-1) /\
  ~ Z.le (Z.of_nat (List.length (vectorSearch_number scenario_db [1; 0; 0; 0] (-1) 0.3)))
         (-1)%Z.
Proof.
  split; [reflexivity|]. split; [reflexivity|]. split; [reflexivity|].
  vm_compute. intros H. now apply H.
Qed.

(** C2, as amended. Whatever the query, the minimum score and the limit,
    a number of any sign, [NaN] and the infinities included, the results
    of [vectorSearch] are in descending order of score and each scores at
    least [minScore]; a row whose embedding is NULL or does not decode is
    passed over: the search returns what it returns on the table without
    such rows, and every result is a row whose blob decoded, with its
    decoded vector. The results are the first ones of the ranking of all
    the rows that score at least [minScore]. With [n] the integer part of
    the limit, they are [min(n, matches)] in number when [n] is not
    negative, so at most [n], and all of the ranking but its last [-n]
    entries when [n] is negative; a limit of [+Infinity] returns the
    whole ranking and one of [-Infinity] returns nothing. At a limit
    whose integer part is a count, the results are those of [vectorSearch]
    at that count, at most that many. *)
Theorem vectorSearch_ranked (db : Database) (q : list float) (limit : float)
    (minScore : float) :
  let ranking := Array_sort by_score_desc (scan q minScore (memories db)) in
  let results := vectorSearch_number db q limit minScore in
  descending results /\
  Forall (fun r => ge (score r) minScore = true) results /\
  results = vectorSearch_number (only_indexed db) q limit minScore /\
  Forall (fun r => exists row stored,
            In row (memories db) /\ decoded row = Some stored /\
            entry r = entry_of_row row stored /\
            score r = cosineSimilarity q stored) results /\
  results = firstn (List.length results) ranking /\
  match ToIntegerOrInfinity limit with
  | NegInfinity => results = []
  | PosInfinity => results = ranking
  | Integer n =>
      ((0 <= n)%Z ->
       Z.of_nat (List.length results) = Z.min n (Z.of_nat (List.length ranking)) /\
       (Z.of_nat (List.length results) <= n)%Z) /\
      ((n < 0)%Z ->
       Z.of_nat (List.length results) = Z.max (Z.of_nat (List.length ranking) + n) 0)
  end /\
  (forall n : nat, ToIntegerOrInfinity limit = Integer (Z.of_nat n) ->
     results = vectorSearch db q n minScore /\ (List.length results <= n)%nat).
Proof.
  intros ranking results.
  assert (R : results = Array_slice0 limit ranking) by reflexivity.
  split; [|split; [|split; [|split; [|split; [|split]]]]].
  - rewrite R. unfold Array_slice0. apply firstn_sorted, sorted_scan_descending.
  - apply Forall_forall. intros r Hr. apply vectorSearch_number_In in Hr.
    revert r Hr. apply Forall_forall, scan_above_minScore.
  - unfold results, vectorSearch_number, only_indexed. cbn [memories].
    now rewrite scan_only_indexed.
  - apply Forall_forall. intros r Hr. apply vectorSearch_number_In, scan_In in Hr.
    destruct Hr as (row & Hin & Hs). apply scan_row_Some in Hs.
    destruct Hs as (st & D & _ & ->). exists row, st. auto.
  - rewrite R. apply Array_slice0_prefix.
  - pose proof (slice_final_cases limit (List.length ranking)) as C.
    rewrite R, Array_slice0_length.
    destruct (ToIntegerOrInfinity limit) as [|n|] eqn:E.
    + unfold Array_slice0. now rewrite C.
    + destruct C as [C1 C2]. split; [|exact C2].
      intros N. split; [now apply C1|]. rewrite (C1 N). lia.
    + unfold Array_slice0. rewrite C. apply firstn_all.
  - intros n E. pose proof (vectorSearch_number_count db q limit n minScore E) as V.
    fold results in V. rewrite V. split; [reflexivity|].
    unfold vectorSearch, slice0. apply firstn_le_length.
Qed.

(** On the table of the scenarios, where row ["b"] has no embedding and
    the blob of row ["c"] does not decode, the search ranks the two other
    rows and raises nothing, whatever the limit. *)
Lemma vectorSearch_ranked_witness :
  descending (vectorSearch_number scenario_db [1; 0; 0; 0] 5 0.3) /\
  map (fun r => id (entry r)) (vectorSearch_number scenario_db [1; 0; 0; 0] 5 0.3) =
    ["a"; "d"] /\
  map (fun r => id (entry r)) (vectorSearch_number scenario_db [1; 0; 0; 0] 1 0.3) =
    ["a"] /\
  map (fun r => id (entry r)) (vectorSearch_number scenario_db [1; 0; 0; 0] 5 0.5) =
    ["a"] /\
  map (fun r => id (entry r)) (vectorSearch_number scenario_db [1; 0; 0; 0] 1.5 0.3) =
    ["a"] /\
  vectorSearch_number scenario_db [1; 0; 0; 0] nan 0.3 = [] /\
  vectorSearch_number scenario_db [1; 0; 0; 0] (-2) 0.3 = [] /\
  map (fun r => id (entry r))
      (vectorSearch_number scenario_db [1; 0; 0; 0] infinity 0.3) = ["a"; "d"].
Proof.
  split; [apply (vectorSearch_ranked scenario_db [1; 0; 0; 0] 5 0.3)|].
  repeat split.
Defined.

End SearchSpec.

(** ** memory-db.ts: store *)

Module StoreSpec.

Import Number NumberFacts Js MemoryDB SortFacts SearchSpec.
Local Open Scope string_scope.
Local Open Scope float_scope.

(** The head of the ranked scan scores at least as much as every result. *)
Lemma sorted_scan_head (q : list float) (t : float) (rows : list memories_row)
    (r : MemorySearchResult) (rest : list MemorySearchResult) :
  Array_sort by_score_desc (scan q t rows) = r :: rest ->
  In r (scan q t rows) /\
  forall r', In r' (scan q t rows) -> ge (score r) (score r') = true.
Proof.
  intros E.
  pose proof (Array_sort_perm by_score_desc (scan q t rows)) as P. rewrite E in P.
  pose proof (sorted_scan_descending q t rows) as S. rewrite E in S.
  split.
  - eapply Permutation_in; [exact P | now left].
  - intros r' Hr'.
    pose proof (proj1 (Forall_forall _ _) (scan_not_nan q t rows)) as N.
    apply (Permutation_in _ (Permutation_sym P)) in Hr'.
    inversion S as [|? ? _ Hall]; subst.
    destruct Hr' as [<-|Hr'].
    + assert (Nr : is_nan (score r) = false).
      { apply N. eapply Permutation_in; [exact P | now left]. }
      unfold ge. rewrite leb_key by assumption. apply Z.leb_refl.
    + rewrite Forall_forall in Hall. now apply Hall.
Qed.

Lemma Array_sort_nil {A : Type} (c : A -> A -> float) (l : list A) :
  Array_sort c l = [] -> l = [].
Proof.
  intros E. pose proof (Array_sort_perm c l) as P. rewrite E in P.
  now apply Permutation_nil in P.
Qed.

Lemma score_of_scan_row (q : list float) (t : float) (row : memories_row) (s : float) :
  score_of q row = Some s -> ge s t = true ->
  exists r, scan_row q t row = Some r /\ score r = s.
Proof.
  unfold score_of. intros Hs G. rewrite scan_row_decoded.
  destruct (decoded row) as [st|]; [|discriminate].
  injection Hs as <-. rewrite G. eauto.
Qed.

Lemma UPDATE_keeps_ids (i : string) (set : memories_row -> memories_row)
    (rows : list memories_row) :
  (forall r, col_id (set r) = col_id r) ->
  map col_id (map (fun r => if String.eqb (col_id r) i then set r else r) rows) =
  map col_id rows.
Proof.
  intros Hset. rewrite map_map. apply map_ext. intros r.
  destruct (String.eqb (col_id r) i); auto.
Qed.

Lemma existsb_col_id (i : string) (rows : list memories_row) :
  existsb (fun r => String.eqb (col_id r) i) rows = true <-> In i (map col_id rows).
Proof.
  rewrite existsb_exists, in_map_iff. split.
  - intros (r & Hr & E). apply String.eqb_eq in E. eauto.
  - intros (r & E & Hr). exists r. split; [assumption|]. now apply String.eqb_eq.
Qed.

(** C1. [store] looks for the best match of the new embedding among the
    rows that have a score. If some row scores at or above the threshold
    ([dedupeThreshold], 0.95 when absent), a best match [ex] is
    overwritten in place: content, embedding, created_at, source and tags
    are replaced, the category is the one given, or that of [ex] when none
    is given; the call returns [isDuplicate = true] and
    [updatedId = ex.id], every other row and the row count are unchanged.
    If no row scores at or above the threshold, a row with the generated
    id is appended and the call returns [isDuplicate = false]; the
    generated id is fresh when it is not the id of a row already there. *)
Theorem store_dedupes (db : Database) (now : Z) (uuid content : string)
    (embedding : list float) (opts : StoreOpts) :
  let threshold := nullish (dedupeThreshold opts) default_dedupeThreshold in
  ((exists row s, In row (memories db) /\ score_of embedding row = Some s /\
                  ge s threshold = true) ->
   exists ex s,
     best_match db embedding threshold ex s /\
     let db' :=
       {| memories :=
            map (fun r => if String.eqb (col_id r) (col_id ex)
                          then {| col_id := col_id r;
                                  col_content := content;
                                  col_embedding := Some (encodeEmbedding embedding);
                                  col_created_at := now;
                                  col_source := nullish (opt_source opts) "";
                                  col_tags := nullish (opt_tags opts) [];
                                  col_category :=
                                    nullish (opt_category opts) (col_category ex) |}
                          else r) (memories db);
          memory_edges := memory_edges db |} in
     (exists result,
        store now uuid content embedding opts db = (Returned result, db') /\
        isDuplicate result = true /\
        updatedId result = Some (col_id ex) /\
        id (result_entry result) = col_id ex /\
        MemoryDB.content (result_entry result) = content /\
        MemoryDB.embedding (result_entry result) = embedding /\
        created_at (result_entry result) = now) /\
     count db' = count db /\
     map col_id (memories db') = map col_id (memories db)) /\
  ((forall row s, In row (memories db) -> score_of embedding row = Some s ->
                  ge s threshold = false) ->
   ~ In uuid (map col_id (memories db)) ->
   let entry :=
     {| id := uuid; content := content; embedding := embedding; created_at := now;
        source := nullish (opt_source opts) "";
        tags := nullish (opt_tags opts) [];
        category := nullish (opt_category opts) "other" |} in
   let db' :=
     {| memories :=
          memories db ++
          [{| col_id := uuid; col_content := content;
              col_embedding := Some (encodeEmbedding embedding);
              col_created_at := now;
              col_source := nullish (opt_source opts) "";
              col_tags := nullish (opt_tags opts) [];
              col_category := nullish (opt_category opts) "other" |}];
        memory_edges := memory_edges db |} in
   store now uuid content embedding opts db =
     (Returned {| result_entry := entry; isDuplicate := false; updatedId := None |}, db') /\
   count db' = S (count db)).
Proof.
  intros threshold. split.
  - intros (row0 & s0 & Hin0 & Hs0 & G0).
    destruct (score_of_scan_row _ threshold _ _ Hs0 G0) as (r0 & Hr0 & _).
    assert (In0 : In r0 (scan embedding threshold (memories db))).
    { apply scan_In. eauto. }
    destruct (Array_sort by_score_desc (scan embedding threshold (memories db)))
      as [|r rest] eqn:E.
    { apply Array_sort_nil in E. rewrite E in In0. destruct In0. }
    destruct (sorted_scan_head _ _ _ _ _ E) as [Hr Hmax].
    apply scan_In in Hr. destruct Hr as (ex & Hex & Hsr).
    apply scan_row_Some in Hsr. destruct Hsr as (st & D & G & ->).
    exists ex, (cosineSimilarity embedding st). split; [|split; [|split]].
    + unfold best_match. repeat split; try assumption.
      * unfold score_of. now rewrite D.
      * intros row' s' Hin' Hs' N'. cbn [score] in Hmax.
        destruct (ge s' threshold) eqn:G'.
        -- destruct (score_of_scan_row _ _ _ _ Hs' G') as (r' & Hr' & <-).
           apply Hmax. apply scan_In. eauto.
        -- unfold ge in *.
           pose proof (leb_true_not_nan _ _ G) as [Nt Ns].
           rewrite leb_key in G, G' |- * by assumption.
           apply Z.leb_le in G. apply Z.leb_gt in G'. apply Z.leb_le. lia.
    + eexists. split.
      * unfold store, bind, all, run, ret, vectorSearch, slice0.
        fold threshold. rewrite E. cbn. reflexivity.
      * cbn. repeat split; reflexivity.
    + unfold count. cbn [memories]. apply length_map.
    + cbn [memories]. now apply UPDATE_keeps_ids.
  - intros Hnone Hfresh entry db'. split.
    + assert (E : Array_sort by_score_desc (scan embedding threshold (memories db)) = []).
      { destruct (Array_sort by_score_desc (scan embedding threshold (memories db)))
          as [|r rest] eqn:E; [reflexivity|exfalso].
        destruct (sorted_scan_head _ _ _ _ _ E) as [Hr _].
        apply scan_In in Hr. destruct Hr as (ex & Hex & Hsr).
        apply scan_row_Some in Hsr. destruct Hsr as (st & D & G & _).
        rewrite (Hnone ex (cosineSimilarity embedding st) Hex) in G; [discriminate|].
        unfold score_of. now rewrite D. }
      unfold store, bind, all, run, ret, vectorSearch, slice0, INSERT_memory.
      fold threshold. rewrite E. cbn.
      destruct (existsb (fun r => String.eqb (col_id r) uuid) (memories db)) eqn:X.
      * apply existsb_col_id in X. contradiction.
      * reflexivity.
    + unfold count, db'. cbn [memories]. rewrite length_app. simpl. lia.
Qed.

(** The duplicate scenario: the store holds "Use tabs not spaces" embedded
    as [[1; 0]]; storing a rewording embedded as [[0.99; 0.1]], which
    scores above 0.95, reports a duplicate of the first memory and leaves
    one row; storing a text embedded as [[0; 1]] appends a row. *)
Lemma store_dedupes_witness :
  (exists result db',
     store 1700000000001 uuid_2 "Please use tabs, never spaces" [0.99; 0.1]
           tabs_opts tabs_db = (Returned result, db') /\
     isDuplicate result = true /\
     updatedId result = Some uuid_1 /\
     count db' = 1%nat /\
     map col_content (memories db') = ["Please use tabs, never spaces"] /\
     map col_category (memories db') = ["preference"]) /\
  (exists result db',
     store 1700000000001 uuid_2 "Prefer early returns" [0; 1]
           tabs_opts tabs_db = (Returned result, db') /\
     isDuplicate result = false /\
     id (result_entry result) = uuid_2 /\
     count db' = 2%nat).
Proof.
  split.
  - destruct (store_dedupes tabs_db 1700000000001 uuid_2
                "Please use tabs, never spaces" [0.99; 0.1] tabs_opts) as [H _].
    destruct H as (ex & s & (Hin & _) & (result & E & D & U & _) & C & _).
    { eexists _, _. split; [left; reflexivity|]. split; reflexivity. }
    destruct Hin as [<-|[]].
    exists result. eexists. split; [exact E|].
    split; [exact D|]. split; [exact U|]. split; [exact C|]. split; reflexivity.
  - destruct (store_dedupes tabs_db 1700000000001 uuid_2
                "Prefer early returns" [0; 1] tabs_opts) as [_ H].
    destruct H as [E C].
    { intros row s [<-|[]] Hs. vm_compute in Hs. injection Hs as <-. reflexivity. }
    { vm_compute. intros [H|[]]. discriminate. }
    eexists _, _. split; [exact E|]. split; [reflexivity|]. split; [reflexivity|]. exact C.
Defined.

End StoreSpec.

(** ** memory-db.ts: vectorSearchBoosted *)

Module BoostSpec.

Import Number NumberFacts Js MemoryDB SortFacts SearchSpec.
Local Open Scope string_scope.
Local Open Scope float_scope.









(** The read [boostCategories[category]] reaches [Object.prototype]. With
    the default [boostCategories = {}], a memory whose category is the
    string ["constructor"] is given the score [NaN]: the value read is a
    function, which is truthy and converts to [NaN]. *)
Lemma vectorSearchBoosted_reads_the_prototype :
  map score (vectorSearch_number constructor_db [1; 0; 0; 0] (5 * 2) 0.3) = [0.6] /\
  no_boosts "constructor" = None /\
  Get no_boosts "constructor" = inherited /\
  map (fun r => is_nan (score r))
      (vectorSearchBoosted constructor_db [1; 0; 0; 0] 5 0.3 no_boosts) = [true].
Proof. repeat split. Qed.

(** With a negative limit the candidates are asked for with twice that
    limit, and the cut drops results from the end: of the two matches of
    the scenario, a limit of [-0.5] keeps none, and so does one of [-1]. *)
Lemma vectorSearchBoosted_at_other_limits :
  vectorSearchBoosted scenario_db [1; 0; 0; 0] (-0.5) 0.3 scenario_boosts = [] /\
  vectorSearchBoosted scenario_db [1; 0; 0; 0] (-1) 0.3 scenario_boosts = [] /\
  map (fun r => id (entry r))
      (vectorSearchBoosted scenario_db [1; 0; 0; 0] 0.5 0.3 scenario_boosts) = [] /\
  map (fun r => id (entry r))
      (vectorSearchBoosted scenario_db [1; 0; 0; 0] 1 0.3 scenario_boosts) = ["d"] /\
  map (fun r => id (entry r))
      (vectorSearchBoosted scenario_db [1; 0; 0; 0] infinity 0.3 scenario_boosts) =
    ["d"; "a"].
Proof. repeat split. Qed.



End BoostSpec.

(** ** memory-db.ts: delete, deleteBySource *)

Module DeleteSpec.

Import Js MemoryDB.
Local Open Scope string_scope.

Lemma touches_spec (i : string) (e : memory_edges_row) :
  touches i e = true <-> from_id e = i \/ to_id e = i.
Proof.
  unfold touches. rewrite orb_true_iff, !String.eqb_eq. reflexivity.
Qed.

Lemma filter_all {A : Type} (p : A -> bool) (l : list A) :
  (forall x, In x l -> p x = true) -> filter p l = l.
Proof.
  induction l as [|x l IH]; intros H; [reflexivity|]. simpl.
  rewrite (H x (or_introl eq_refl)). f_equal. apply IH. intros y Hy. apply H. now right.
Qed.

Lemma filter_none {A : Type} (p : A -> bool) (l : list A) :
  (forall x, In x l -> p x = false) -> filter p l = [].
Proof.
  induction l as [|x l IH]; intros H; [reflexivity|]. simpl.
  rewrite (H x (or_introl eq_refl)). apply IH. intros y Hy. apply H. now right.
Qed.

Lemma delete_accepts (i : string) (db : Database) :
  uuid_regex_test i = true -> delete i db = (Returned true, deleted i db).
Proof. intros T. unfold delete. rewrite T. reflexivity. Qed.

Lemma delete_rejects (i : string) (db : Database) :
  uuid_regex_test i = false ->
  delete i db = (Thrown (Error ("Invalid memory ID: " ++ i)), db).
Proof. intros T. unfold delete. rewrite T. reflexivity. Qed.

(** [DELETE FROM memories] keeps the foreign keys, by its cascade. *)
Lemma DELETE_memories_where_foreign_keys (p : memories_row -> bool) (db : Database) :
  foreign_keys db -> foreign_keys (snd (DELETE_memories_where p db)).
Proof.
  unfold foreign_keys, DELETE_memories_where. cbn [snd memories memory_edges].
  intros FK e He. apply filter_In in He. destruct He as [He Hc].
  apply negb_true_iff in Hc.
  assert (K : forall i, In i (map col_id (memories db)) -> (from_id e = i \/ to_id e = i) ->
              In i (map col_id (filter (fun r => negb (p r)) (memories db)))).
  { intros i Hi Ht. apply in_map_iff in Hi. destruct Hi as (r & <- & Hr).
    apply in_map_iff. exists r. split; [reflexivity|]. apply filter_In. split; [assumption|].
    destruct (p r) eqn:P; [|reflexivity]. exfalso.
    assert (X : existsb (fun i => touches i e)
                  (map col_id (filter p (memories db))) = true).
    { apply existsb_exists. exists (col_id r). split.
      - apply in_map, filter_In. auto.
      - now apply touches_spec. }
    congruence. }
  destruct (FK e He) as [F T]. split; apply K; auto.
Qed.

Lemma DELETE_edges_of_foreign_keys (i : string) (db : Database) :
  foreign_keys db -> foreign_keys (snd (DELETE_edges_of i db)).
Proof.
  unfold foreign_keys, DELETE_edges_of. cbn [snd memories memory_edges].
  intros FK e He. apply filter_In in He. now apply FK.
Qed.

Lemma DELETE_edges_of_no_edge (i : string) (db : Database) (e : memory_edges_row) :
  In e (memory_edges (snd (DELETE_edges_of i db))) -> from_id e <> i /\ to_id e <> i.
Proof.
  unfold DELETE_edges_of. cbn [snd memory_edges]. intros He.
  apply filter_In in He. destruct He as [_ Ht]. apply negb_true_iff in Ht.
  split; intros E; assert (touches i e = true) by (apply touches_spec; auto); congruence.
Qed.

Lemma DELETE_memories_where_edges_incl (p : memories_row -> bool) (db : Database)
    (e : memory_edges_row) :
  In e (memory_edges (snd (DELETE_memories_where p db))) -> In e (memory_edges db).
Proof.
  unfold DELETE_memories_where. cbn [snd memory_edges]. intros He.
  now apply filter_In in He.
Qed.

Lemma deleted_ids (i : string) (db : Database) :
  ids (deleted i db) = filter (fun j => negb (String.eqb j i)) (ids db).
Proof.
  unfold deleted, ids, DELETE_memories_where, DELETE_edges_of. cbn [snd memories].
  induction (memories db) as [|r rows IH]; [reflexivity|].
  cbn [filter map]. destruct (String.eqb (col_id r) i); cbn [negb map]; now rewrite IH.
Qed.

(** The test looks at the layout only: the digits that carry the version
    and the variant of a UUID are not examined, and a final line break is
    not allowed. *)
Lemma uuid_regex_test_examples :
  uuid_regex_test "00000000-0000-0000-0000-000000000000" = true /\
  uuid_regex_test "123E4567-E89B-42D3-A456-426614174000" = true /\
  uuid_regex_test "123e4567-e89b-42d3-a456-42661417400" = false /\
  uuid_regex_test "123e4567e89b42d3a456426614174000" = false /\
  uuid_regex_test ("123e4567-e89b-42d3-a456-426614174000" ++ String "010" "") = false /\
  uuid_regex_test "" = false.
Proof. repeat split. Qed.

(** C6. On a string that does not have the shape of a UUID, [delete]
    throws the error [Invalid memory ID: ...] and the [memories] and
    [memory_edges] tables are what they were. *)
Theorem delete_rejects_malformed_id (i : string) (db : Database) :
  uuid_regex_test i = false ->
  delete i db = (Thrown (Error ("Invalid memory ID: " ++ i)), db) /\
  memories (snd (delete i db)) = memories db /\
  memory_edges (snd (delete i db)) = memory_edges db.
Proof.
  intros T. rewrite (delete_rejects i db T). cbn [snd]. auto.
Qed.

Lemma delete_rejects_malformed_id_witness :
  delete "not-a-uuid" linked_db =
    (Thrown (Error "Invalid memory ID: not-a-uuid"), linked_db) /\
  memories (snd (delete "not-a-uuid" linked_db)) = memories linked_db /\
  memory_edges (snd (delete "not-a-uuid" linked_db)) = memory_edges linked_db.
Proof.
  apply (delete_rejects_malformed_id "not-a-uuid" linked_db). reflexivity.
Defined.

(** C10. On a string that has the shape of a UUID, [delete] returns
    [true] and throws nothing, whatever the store holds: the value
    returned is the same on every store, and when no memory has that id
    (so that, the foreign keys holding, no edge names it) the store is
    left as it was. *)
Theorem delete_absent_id_reports_success (i : string) (db : Database) :
  uuid_regex_test i = true ->
  fst (delete i db) = Returned true /\
  (forall db', fst (delete i db') = fst (delete i db)) /\
  (foreign_keys db -> ~ In i (ids db) -> snd (delete i db) = db).
Proof.
  intros T. rewrite (delete_accepts i db T). cbn [fst snd]. repeat split.
  - intros db'. now rewrite (delete_accepts i db' T).
  - intros FK Habs. unfold deleted, DELETE_memories_where, DELETE_edges_of.
    cbn [snd memories memory_edges].
    assert (M : filter (fun r => String.eqb (col_id r) i) (memories db) = []).
    { apply filter_none. intros r Hr. apply String.eqb_neq. intros E.
      apply Habs. unfold ids. rewrite <- E. now apply in_map. }
    assert (M' : filter (fun r => negb (String.eqb (col_id r) i)) (memories db) = memories db).
    { apply filter_all. intros r Hr. apply negb_true_iff, String.eqb_neq. intros E.
      apply Habs. unfold ids. rewrite <- E. now apply in_map. }
    assert (Ed : filter (fun e => negb (touches i e)) (memory_edges db) = memory_edges db).
    { apply filter_all. intros e He. apply negb_true_iff.
      destruct (touches i e) eqn:Tc; [exfalso|reflexivity].
      apply touches_spec in Tc. destruct (FK e He) as [F1 F2].
      destruct Tc as [<-|<-]; contradiction. }
    rewrite M, M', Ed. cbn [map existsb negb].
    rewrite filter_all by reflexivity. now destruct db.
Qed.

Lemma delete_absent_id_reports_success_witness :
  fst (delete "123e4567-e89b-42d3-a456-426614174000" scenario_db) = Returned true /\
  snd (delete "123e4567-e89b-42d3-a456-426614174000" scenario_db) = scenario_db.
Proof.
  destruct (delete_absent_id_reports_success
              "123e4567-e89b-42d3-a456-426614174000" scenario_db eq_refl)
    as (R & _ & N).
  split; [exact R|]. apply N.
  - intros e He. destruct He.
  - vm_compute. intuition discriminate.
Defined.

Lemma for_of_DELETE_edges (l : list string) (db : Database) :
  for_of l (fun i => run (DELETE_edges_of i) ;;; ret tt) db =
  (Returned tt, fold_left (fun d i => snd (DELETE_edges_of i d)) l db).
Proof.
  revert db. induction l as [|i l IH]; intros db; [reflexivity|].
  cbn [for_of fold_left]. unfold bind at 1. unfold bind at 1.
  unfold run at 1. cbn. apply IH.
Qed.

Lemma fold_DELETE_edges_memories (l : list string) (db : Database) :
  memories (fold_left (fun d i => snd (DELETE_edges_of i d)) l db) = memories db.
Proof.
  revert db. induction l as [|i l IH]; intros db; [reflexivity|].
  cbn [fold_left]. now rewrite IH.
Qed.

Lemma fold_DELETE_edges_foreign_keys (l : list string) (db : Database) :
  foreign_keys db ->
  foreign_keys (fold_left (fun d i => snd (DELETE_edges_of i d)) l db).
Proof.
  revert db. induction l as [|i l IH]; intros db FK; [assumption|].
  cbn [fold_left]. apply IH. now apply DELETE_edges_of_foreign_keys.
Qed.

(** The store after [deleteBySource]. *)
Lemma deleteBySource_state (src : string) (db : Database) :
  let sel := fun r => String.eqb (col_source r) src in
  let removed := map col_id (filter sel (memories db)) in
  deleteBySource src db =
  (Returned (List.length removed),
   snd (DELETE_memories_where sel
          (fold_left (fun d i => snd (DELETE_edges_of i d)) removed db))).
Proof.
  intros sel removed. unfold deleteBySource, bind, all.
  fold sel. fold removed. rewrite for_of_DELETE_edges.
  unfold run, DELETE_memories_where. rewrite fold_DELETE_edges_memories.
  reflexivity.
Qed.

Lemma delete_foreign_keys (i : string) (db : Database) :
  foreign_keys db -> foreign_keys (snd (delete i db)).
Proof.
  intros FK. destruct (uuid_regex_test i) eqn:T.
  - rewrite (delete_accepts i db T). cbn [snd]. unfold deleted.
    now apply DELETE_memories_where_foreign_keys, DELETE_edges_of_foreign_keys.
  - now rewrite (delete_rejects i db T).
Qed.

(** C7. [delete] of a well-formed id leaves no edge whose [from_id] or
    [to_id] is that id and no memory with that id; [deleteBySource] leaves
    no edge whose [from_id] or [to_id] is the id of a removed memory, and
    no memory of that source. If every edge referred to stored memories
    before either operation, every edge does so after it, whatever the
    argument. *)
Theorem deletes_cascade_to_edges (db : Database) :
  (forall i,
     let db' := snd (delete i db) in
     (uuid_regex_test i = true ->
        (forall e, In e (memory_edges db') -> from_id e <> i /\ to_id e <> i) /\
        ~ In i (ids db')) /\
     (foreign_keys db -> foreign_keys db')) /\
  (forall src,
     let db' := snd (deleteBySource src db) in
     (forall r e, In r (memories db) -> col_source r = src ->
        In e (memory_edges db') -> from_id e <> col_id r /\ to_id e <> col_id r) /\
     (forall r, In r (memories db') -> col_source r <> src) /\
     (foreign_keys db -> foreign_keys db')).
Proof.
  split.
  - intros i db'. subst db'. split; [|apply delete_foreign_keys].
    intros T. rewrite (delete_accepts i db T). cbn [snd]. split.
    + intros e He. apply (DELETE_edges_of_no_edge i db).
      now apply DELETE_memories_where_edges_incl in He.
    + rewrite deleted_ids. intros Hin. apply filter_In in Hin.
      destruct Hin as [_ Hn]. rewrite String.eqb_refl in Hn. discriminate.
  - intros src db'. subst db'. rewrite deleteBySource_state. cbn [snd].
    set (sel := fun r => String.eqb (col_source r) src).
    set (removed := map col_id (filter sel (memories db))).
    set (mid := fold_left (fun d i => snd (DELETE_edges_of i d)) removed db).
    assert (Hmid : memories mid = memories db) by apply fold_DELETE_edges_memories.
    split; [|split].
    + intros r e Hr Hs He.
      unfold DELETE_memories_where in He. cbn [snd memory_edges] in He.
      apply filter_In in He. destruct He as [_ Hc]. apply negb_true_iff in Hc.
      rewrite Hmid in Hc.
      assert (Hrem : In (col_id r) (map col_id (filter sel (memories db)))).
      { apply in_map, filter_In. split; [assumption|]. unfold sel. now apply String.eqb_eq. }
      assert (X : from_id e = col_id r \/ to_id e = col_id r ->
                  existsb (fun i => touches i e)
                    (map col_id (filter sel (memories db))) = true).
      { intros Ht. apply existsb_exists. exists (col_id r). split; [assumption|].
        now apply touches_spec. }
      split; intros E; rewrite X in Hc by auto; discriminate.
    + intros r Hr. unfold DELETE_memories_where in Hr. cbn [snd memories] in Hr.
      apply filter_In in Hr. destruct Hr as [_ Hn]. apply negb_true_iff in Hn.
      unfold sel in Hn. now apply String.eqb_neq in Hn.
    + intros FK. apply DELETE_memories_where_foreign_keys.
      now apply fold_DELETE_edges_foreign_keys.
Qed.

(** The cascade on a table of four memories and four edges: deleting the
    first memory leaves the one edge that does not name it, deleting the
    indexer's memories leaves the one edge between the other two. *)
Lemma deletes_cascade_to_edges_witness :
  foreign_keys linked_db /\
  map edge_id (memory_edges (snd (delete uuid_1 linked_db))) = ["e2"] /\
  foreign_keys (snd (delete uuid_1 linked_db)) /\
  fst (deleteBySource "vscode:index" linked_db) = Returned 2%nat /\
  map edge_id (memory_edges (snd (deleteBySource "vscode:index" linked_db))) = ["e4"] /\
  foreign_keys (snd (deleteBySource "vscode:index" linked_db)).
Proof.
  assert (FK : foreign_keys linked_db).
  { intros e He. vm_compute in He. vm_compute.
    repeat (destruct He as [<-|He]; [tauto|]). destruct He. }
  destruct (deletes_cascade_to_edges linked_db) as [D S].
  destruct (D uuid_1) as (_ & D3).
  destruct (S "vscode:index") as (_ & _ & S3).
  split; [exact FK|]. split; [reflexivity|]. split; [exact (D3 FK)|].
  split; [reflexivity|]. split; [reflexivity|]. exact (S3 FK).
Defined.

End DeleteSpec.

(** ** memory-db.ts: the keys are invariants of the store *)

Module KeysSpec.

Import Js MemoryDB SearchSpec StoreSpec DeleteSpec.
Local Open Scope string_scope.

Lemma keys_hold_empty : keys_hold {| memories := []; memory_edges := [] |}.
Proof.
  split.
  - constructor.
  - intros e [].
Qed.

Lemma foreign_keys_same_ids (db db' : Database) :
  (forall i, In i (map col_id (memories db)) -> In i (map col_id (memories db'))) ->
  (forall e, In e (memory_edges db') -> In e (memory_edges db)) ->
  foreign_keys db -> foreign_keys db'.
Proof.
  intros Hi He FK e H. destruct (FK e (He e H)). split; auto.
Qed.

Lemma NoDup_filter {A : Type} (p : A -> bool) (l : list A) :
  NoDup l -> NoDup (filter p l).
Proof.
  induction 1 as [|x l Hx _ IH]; simpl; [constructor|].
  destruct (p x); [|assumption]. constructor; [|assumption].
  intros H. apply filter_In in H. tauto.
Qed.

Lemma map_col_id_filter (p : string -> bool) (rows : list memories_row) :
  map col_id (filter (fun r => p (col_id r)) rows) = filter p (map col_id rows).
Proof.
  induction rows as [|r rows IH]; [reflexivity|]. simpl.
  destruct (p (col_id r)); simpl; now rewrite IH.
Qed.

(** [store] keeps the primary key and the foreign keys, however it ends. *)
Lemma store_keeps_keys (db : Database) (now : Z) (uuid content : string)
    (embedding : list float) (opts : StoreOpts) :
  keys_hold db -> keys_hold (snd (store now uuid content embedding opts db)).
Proof.
  intros [PK FK]. unfold store, bind, all, run, ret.
  destruct (vectorSearch db embedding 1 _) as [|r rest].
  - unfold INSERT_memory.
    cbn [col_id].
    destruct (existsb (fun r => String.eqb (col_id r) uuid) (memories db)) eqn:X;
      cbv beta iota; cbn [snd]; [split; assumption|].
    split.
    + unfold primary_key. cbn [memories]. rewrite map_app. cbn [map].
      apply NoDup_app; [assumption | repeat constructor; intros [] | ].
      intros i Hi [<-|[]]. apply (proj2 (existsb_col_id _ _)) in Hi.
      cbn [col_id] in Hi. congruence.
    + apply (foreign_keys_same_ids db); cbn [memories memory_edges]; auto.
      intros i Hi. rewrite map_app. apply in_or_app. now left.
  - unfold UPDATE_memories_by_id. cbv beta iota. cbn [snd]. split.
    + unfold primary_key. cbn [memories]. now rewrite UPDATE_keeps_ids.
    + apply (foreign_keys_same_ids db); cbn [memories memory_edges]; auto.
      intros i Hi. now rewrite UPDATE_keeps_ids.
Qed.

(** [addEdge] keeps them: an edge to a memory that is not stored is refused. *)
Lemma addEdge_keeps_keys (db : Database) (now : Z) (uuid fromId toId relation : string) :
  keys_hold db -> keys_hold (snd (addEdge now uuid fromId toId relation db)).
Proof.
  intros [PK FK]. unfold addEdge, bind, ret, INSERT_OR_IGNORE_edge.
  destruct (existsb _ (memory_edges db)); cbv beta iota; cbn [snd]; [now split|].
  cbn [from_id to_id].
  destruct (existsb (fun r => String.eqb (col_id r) fromId) (memories db)) eqn:F;
    cbn [andb]; cbv beta iota; cbn [snd]; [|now split].
  destruct (existsb (fun r => String.eqb (col_id r) toId) (memories db)) eqn:T;
    cbv beta iota; cbn [snd]; [|now split].
  split; [exact PK|].
  intros e He. cbn [memory_edges memories] in *. apply in_app_or in He.
  destruct He as [He|[<-|[]]]; [now apply FK|].
  cbn [from_id to_id]. split; now apply (proj1 (existsb_col_id _ _)).
Qed.

(** [delete] keeps them. *)
Lemma delete_keeps_keys (db : Database) (i : string) :
  keys_hold db -> keys_hold (snd (delete i db)).
Proof.
  intros [PK FK]. split.
  - destruct (uuid_regex_test i) eqn:T.
    + rewrite (delete_accepts i db T). cbn [snd]. unfold primary_key.
      fold (ids (deleted i db)). rewrite deleted_ids. now apply NoDup_filter.
    + now rewrite (delete_rejects i db T).
  - now apply delete_foreign_keys.
Qed.

End KeysSpec.

(** ** embeddings.ts: the lazy initialisation of the local model *)

Module LazyInitSpec.

Import Js Embeddings.

Lemma settle_length (p : nat) (s : promise_state) (ps : list promise_state) :
  List.length (settle p s ps) = List.length ps.
Proof.
  revert p. induction ps as [|q ps IH]; intros [|p]; simpl; auto.
Qed.

Lemma settle_nth_same (p : nat) (s : promise_state) (ps : list promise_state) :
  (p < List.length ps)%nat -> nth p (settle p s ps) Pending = s.
Proof.
  revert p. induction ps as [|q ps IH]; intros [|p] H; simpl in *; try lia; auto.
  apply IH. lia.
Qed.

Lemma is_loading_spec (p : nat) (t : TransformersEmbeddings) :
  is_loading p t = true <-> In p (loading t).
Proof.
  unfold is_loading. rewrite existsb_exists. split.
  - intros (q & Hq & E). apply Nat.eqb_eq in E. now subst.
  - intros H. exists p. split; [assumption | apply Nat.eqb_refl].
Qed.

(** With at most one load in flight, the end of that load leaves none. *)
Lemma stop_loading_nil (p : nat) (t : TransformersEmbeddings) :
  (List.length (loading t) <= 1)%nat -> In p (loading t) -> stop_loading p t = [].
Proof.
  unfold stop_loading. destruct (loading t) as [|q [|q' l]]; simpl; intros L H.
  - destruct H.
  - destruct H as [->|[]]. now rewrite Nat.eqb_refl.
  - lia.
Qed.

Lemma consistent_new : consistent new_TransformersEmbeddings.
Proof.
  unfold consistent, new_TransformersEmbeddings; simpl. repeat split; try lia.
  all: intros p [].
Qed.

Lemma consistent_step (rev : revision) (t : TransformersEmbeddings) (ev : event) :
  consistent t -> consistent (step rev t ev).
Proof.
  intros C. pose proof C as (Hl & Hn & Hc). destruct ev as [|p ext|p err]; cbn [step].
  - unfold ensureInitialized.
    destruct (extractor t) as [x|] eqn:X; [exact C|].
    destruct (initPromise t) as [q|] eqn:I; cbn [snd]; [exact C|].
    assert (L : loading t = []).
    { destruct (loading t) as [|q l] eqn:E; [reflexivity|].
      destruct (Hl q) as (Hq & _); [now left | congruence]. }
    unfold consistent, promise. cbn. rewrite L. cbn.
    split; [|split; [lia|assumption]].
    intros p [<-|[]]. repeat split.
    + now rewrite app_nth2, Nat.sub_diag by lia.
    + rewrite length_app. simpl. lia.
  - unfold pipeline_resolves. destruct (is_loading p t) eqn:Lp; [|exact C].
    apply is_loading_spec in Lp. destruct (Hl p Lp) as (_ & X & _).
    unfold consistent. cbn. rewrite (stop_loading_nil p t Hn Lp). cbn.
    split; [intros q []|]. split; [lia|]. now rewrite Hc, X.
  - unfold pipeline_rejects. destruct (is_loading p t) eqn:Lp; [|exact C].
    apply is_loading_spec in Lp. destruct (Hl p Lp) as (_ & X & _).
    unfold consistent. cbn. rewrite (stop_loading_nil p t Hn Lp). cbn.
    split; [intros q []|]. split; [lia|assumption].
Qed.

Lemma consistent_run (rev : revision) (evs : list event) : consistent (run rev evs).
Proof.
  unfold run. generalize consistent_new.
  generalize new_TransformersEmbeddings as t. induction evs as [|ev evs IH]; intros t C.
  - exact C.
  - cbn [fold_left]. apply IH. now apply consistent_step.
Qed.

(** In both revisions the model is loaded at most once, and at most one
    load is in flight. *)
Lemma model_loaded_at_most_once (rev : revision) (evs : list event) :
  (loads_completed (run rev evs) <= 1)%nat /\
  (List.length (loading (run rev evs)) <= 1)%nat.
Proof.
  destruct (consistent_run rev evs) as (_ & Hn & Hc). split; [|assumption].
  rewrite Hc. destruct (extractor (run rev evs)); lia.
Qed.

(** A caller that arrives while a load is in flight is handed the promise
    of that load, and no second load starts. *)
Lemma ensureInitialized_joins_load_in_flight (rev : revision) (evs : list event) (p : nat) :
  In p (loading (run rev evs)) ->
  ensureInitialized (run rev evs) = (Awaits p, run rev evs) /\
  promise (run rev evs) p = Pending.
Proof.
  intros Lp. destruct (consistent_run rev evs) as (Hl & _).
  destruct (Hl p Lp) as (I & X & P & _).
  unfold ensureInitialized. now rewrite X, I.
Qed.

(** Once the model is loaded, [ensureInitialized] returns at once and
    calls [pipeline] no more. *)
Lemma ensureInitialized_after_load (t : TransformersEmbeddings) (ext : nat) :
  extractor t = Some ext -> ensureInitialized t = (Ready, t).
Proof. intros X. unfold ensureInitialized. now rewrite X. Qed.

(** The later revision, whose [catch] resets [initPromise]. When the load
    in flight fails, [initPromise] is cleared, and the next call starts a
    new load: it calls [pipeline] again and is handed a new, pending
    promise. With what precedes, the model is loaded at most once and
    callers during a load share it. *)
Theorem ensureInitialized_retries_after_failure (evs : list event) (p : nat) (err : JsError) :
  In p (loading (run with_reset evs)) ->
  let failed := pipeline_rejects with_reset p err (run with_reset evs) in
  initPromise failed = None /\
  promise failed p = Rejected err /\
  (exists p', ensureInitialized failed = (Awaits p', snd (ensureInitialized failed)) /\
     p' <> p /\
     promise (snd (ensureInitialized failed)) p' = Pending /\
     loading (snd (ensureInitialized failed)) = [p'] /\
     pipeline_calls (snd (ensureInitialized failed)) =
       S (pipeline_calls (run with_reset evs))) /\
  (loads_completed (run with_reset evs) <= 1)%nat /\
  ensureInitialized (run with_reset evs) = (Awaits p, run with_reset evs).
Proof.
  intros Lp failed.
  destruct (consistent_run with_reset evs) as (Hl & Hn & Hc).
  destruct (Hl p Lp) as (I & X & P & B).
  assert (F : failed =
    {| extractor := None; initPromise := None;
       promises := settle p (Rejected err) (promises (run with_reset evs));
       loading := [];
       pipeline_calls := pipeline_calls (run with_reset evs);
       loads_completed := loads_completed (run with_reset evs);
       log := log (run with_reset evs) |}).
  { unfold failed, pipeline_rejects.
    rewrite (proj2 (is_loading_spec p _) Lp), (stop_loading_nil p _ Hn Lp), X. reflexivity. }
  split; [now rewrite F|]. split.
  { rewrite F. unfold promise. cbn. now apply settle_nth_same. }
  split.
  - exists (List.length (promises (run with_reset evs))).
    rewrite F. unfold ensureInitialized, promise. cbn.
    rewrite settle_length. repeat split; try lia.
    rewrite app_nth2; rewrite settle_length; [|lia].
    now rewrite Nat.sub_diag.
  - split; [apply (model_loaded_at_most_once with_reset evs)|].
    apply (ensureInitialized_joins_load_in_flight with_reset evs p Lp).
Qed.

Lemma ensureInitialized_retries_after_failure_witness :
  let failed := run with_reset [Call; PipelineRejects 0 (Error "fetch failed")] in
  initPromise failed = None /\
  ensureInitialized failed = (Awaits 1, run with_reset [Call; PipelineRejects 0 (Error "fetch failed"); Call]) /\
  pipeline_calls (run with_reset [Call; PipelineRejects 0 (Error "fetch failed"); Call]) = 2%nat.
Proof.
  destruct (ensureInitialized_retries_after_failure [Call] 0 (Error "fetch failed"))
    as (H & _); [now left|].
  split; [exact H|]. split; reflexivity.
Defined.

(** C4, on the earlier revision, which has no [catch] around the load.
    After a first call whose load fails with [err], [initPromise] still
    holds the rejected promise: however many calls follow, each is handed
    that same rejected promise, the object does not change, and
    [pipeline] has been called once only. The marker is not cleared and
    no later call retries. *)
Theorem ensureInitialized_without_reset_is_poisoned (err : JsError) (n : nat) :
  let failed := run without_reset [Call; PipelineRejects 0 err] in
  let later := run without_reset ([Call; PipelineRejects 0 err] ++ repeat Call n) in
  initPromise failed = Some 0%nat /\
  promise failed 0 = Rejected err /\
  later = failed /\
  ensureInitialized later = (Awaits 0, later) /\
  pipeline_calls later = 1%nat.
Proof.
  intros failed later.
  assert (L : later = failed).
  { unfold later, run. rewrite fold_left_app.
    fold (run without_reset [Call; PipelineRejects 0 err]).
    fold failed. induction n as [|n IH]; [reflexivity|].
    cbn [repeat fold_left]. exact IH. }
  rewrite L. repeat split.
Qed.

End LazyInitSpec.

(** ** embeddings.ts: the chain of providers *)

Module DualEmbeddingsSpec.

Import Js Embeddings.
Local Open Scope string_scope.
Local Open Scope list_scope.

Lemma reconcile_length (D : nat) (vec : list float) :
  List.length (reconcile D vec) = D.
Proof.
  unfold reconcile, slice0. destruct (List.length vec <? D)%nat eqn:L.
  - apply Nat.ltb_lt in L. rewrite length_app, repeat_length. lia.
  - apply Nat.ltb_ge in L. rewrite length_firstn. lia.
Qed.

Lemma nth_firstn_lt {A : Type} (n i : nat) (l : list A) (d : A) :
  (i < n)%nat -> nth i (firstn n l) d = nth i l d.
Proof.
  revert i l. induction n as [|n IH]; intros i l H; [lia|].
  destruct l as [|x l]; [reflexivity|]. destruct i as [|i]; [reflexivity|].
  simpl. apply IH. lia.
Qed.

(** Below [D], the reconciled vector has the elements of the vector, and
    zeros past its end. *)
Lemma reconcile_nth (D : nat) (vec : list float) (i : nat) :
  (i < D)%nat -> nth i (reconcile D vec) 0%float = nth i vec 0%float.
Proof.
  intros H. unfold reconcile, slice0. destruct (List.length vec <? D)%nat eqn:L.
  - destruct (Nat.lt_ge_cases i (List.length vec)) as [Hi|Hi].
    + now rewrite app_nth1.
    + rewrite app_nth2 by assumption. rewrite (nth_overflow vec) by assumption.
      apply nth_repeat.
  - now apply nth_firstn_lt.
Qed.

Lemma reconcile_shape (D : nat) (vec : list float) :
  reconcile D vec = firstn D vec ++ repeat 0%float (D - List.length vec).
Proof.
  unfold reconcile, slice0. destruct (List.length vec <? D)%nat eqn:L.
  - apply Nat.ltb_lt in L. rewrite firstn_all2 by lia. reflexivity.
  - apply Nat.ltb_ge in L. replace (D - List.length vec)%nat with 0%nat by lia.
    simpl. now rewrite app_nil_r.
Qed.

Lemma try_default_throws (d : DualEmbeddings) (text : string) (logged : list string) :
  (exists e, fst (try_default d text logged) = Thrown e) <-> failed (default d) text.
Proof.
  unfold try_default, failed. destruct (default d) as [p|]; cbn.
  - destruct (p text) as [vec|err]; cbn; split.
    + intros [e H]. discriminate.
    + intros [e H]. discriminate.
    + eauto.
    + eauto.
  - split; eauto.
Qed.

Lemma try_fallback_throws (d : DualEmbeddings) (text : string) (logged : list string) :
  (exists e, fst (try_fallback d text logged) = Thrown e) <->
  failed (fallback d) text /\ failed (default d) text.
Proof.
  unfold try_fallback. unfold failed at 1. destruct (fallback d) as [p|].
  - destruct (p text) as [vec|err]; cbn [fst].
    + split; [intros [e H]; discriminate | intros [[e H] _]; discriminate].
    + rewrite try_default_throws. split; [eauto | tauto].
  - rewrite try_default_throws. tauto.
Qed.

(** C5. [embed] throws exactly when every configured backend has failed.
    A failure of the primary is caught and logged, and the call ends as
    it does without a primary. When the chain reaches the local-HTTP
    fallback and it answers, the answer is brought to the configured
    dimension [D]: the result has length [D], its elements below [D] are
    those of the answer, with zeros past the answer's end. *)
Theorem embed_falls_through_the_chain (d : DualEmbeddings) (text : string) :
  ((exists e, fst (embed d text) = Thrown e) <->
   failed (primary d) text /\ failed (fallback d) text /\ failed (default d) text) /\
  (forall p err, primary d = Some p -> p text = Thrown err ->
     fst (embed d text) =
     fst (embed {| primary := None; fallback := fallback d; default := default d;
                   _dimension := _dimension d |} text) /\
     snd (embed d text) <> []) /\
  (forall f vec, failed (primary d) text -> fallback d = Some f -> f text = Returned vec ->
     fst (embed d text) = Returned (reconcile (_dimension d) vec) /\
     List.length (reconcile (_dimension d) vec) = _dimension d /\
     reconcile (_dimension d) vec =
       firstn (_dimension d) vec ++ repeat 0%float (_dimension d - List.length vec) /\
     forall i, (i < _dimension d)%nat ->
       nth i (reconcile (_dimension d) vec) 0%float = nth i vec 0%float).
Proof.
  split; [|split].
  - unfold embed. unfold failed at 1. destruct (primary d) as [p|].
    + destruct (p text) as [vec|err]; cbn [fst].
      * split; [intros [e H]; discriminate | intros [[e H] _]; discriminate].
      * rewrite try_fallback_throws. split; [eauto | tauto].
    + rewrite try_fallback_throws. tauto.
  - intros p err P E. unfold embed. rewrite P, E. cbn [primary].
    split.
    + unfold try_fallback, try_default. cbn [fallback default _dimension].
      destruct (fallback d) as [f|].
      * destruct (f text); [reflexivity|]. destruct (default d) as [g|]; [|reflexivity].
        destruct (g text); reflexivity.
      * destruct (default d) as [g|]; [|reflexivity]. destruct (g text); reflexivity.
    + unfold try_fallback, try_default.
      destruct (fallback d) as [f|].
      * destruct (f text); [discriminate|]. destruct (default d) as [g|]; [|discriminate].
        destruct (g text); discriminate.
      * destruct (default d) as [g|]; [|discriminate]. destruct (g text); discriminate.
  - intros f vec P F E. split; [|split; [|split]].
    + unfold embed, try_fallback. unfold failed in P. destruct (primary d) as [p|].
      * destruct P as [err ->]. now rewrite F, E.
      * now rewrite F, E.
    + apply reconcile_length.
    + apply reconcile_shape.
    + intros i. apply reconcile_nth.
Qed.

(** Both revisions of the constructor set up the local provider, so the
    chain never ends on a missing provider. *)
Lemma new_DualEmbeddings_default (rev : revision) (B : Backends)
    (OPENAI_API_KEY : option string) (opts : DualOpts) :
  default (new_DualEmbeddings rev B OPENAI_API_KEY opts) =
  Some (TransformersEmbeddings_embed B model).
Proof. reflexivity. Qed.

(** The chain on a failing primary and a fallback that answers with two
    numbers, for a dimension of four. *)
Lemma embed_falls_through_the_chain_witness :
  embed example_chain "tabs" =
  (Returned [1; 2; 0; 0]%float, ["Primary provider failed, falling back: Error: 401"]).
Proof.
  destruct (embed_falls_through_the_chain example_chain "tabs") as (_ & _ & H).
  destruct (H (fun _ => Returned [1; 2]%float) [1; 2]%float) as (E & _);
    [exists (Error "401"); reflexivity | reflexivity | reflexivity |].
  reflexivity.
Defined.

End DualEmbeddingsSpec.

(** ** memory-db.ts: the stores that the methods reach *)

Module ReachSpec.

Import Js MemoryDB MemoryDBRest SearchSpec StoreSpec DeleteSpec KeysSpec.
Local Open Scope string_scope.

Lemma for_of_invariant {A : Type} (I : Database -> Prop) (l : list A) (body : A -> DB unit) :
  (forall x db, I db -> I (snd (body x db))) ->
  forall db, I db -> I (snd (for_of l body db)).
Proof.
  intros Hb. induction l as [|x l IH]; intros db Hdb; [exact Hdb|].
  cbn [for_of]. unfold bind. specialize (Hb x db Hdb).
  destruct (body x db) as [[a|e] db']; cbn [snd] in *; auto.
Qed.

Lemma bind_ret_invariant {A B : Type} (I : Database -> Prop) (c : DB A) (b : B) (db : Database) :
  I (snd (c db)) -> I (snd ((c ;;; ret b) db)).
Proof.
  unfold bind, ret. destruct (c db) as [[a|e] db']; auto.
Qed.

Lemma find_col_id_None (i : string) (rows : list memories_row) :
  find (fun r => String.eqb (col_id r) i) rows = None -> ~ In i (map col_id rows).
Proof.
  intros F H. apply in_map_iff in H. destruct H as (r & E & Hr).
  apply (find_none _ _ F) in Hr. rewrite E, String.eqb_refl in Hr. discriminate.
Qed.

Lemma keys_hold_same_ids (db db' : Database) :
  map col_id (memories db') = map col_id (memories db) ->
  memory_edges db' = memory_edges db ->
  keys_hold db -> keys_hold db'.
Proof.
  intros Hi He [PK FK]. split.
  - unfold primary_key. now rewrite Hi.
  - intros e H. rewrite Hi. apply FK. now rewrite <- He.
Qed.

Lemma keys_hold_insert (row : memories_row) (db : Database) :
  ~ In (col_id row) (map col_id (memories db)) ->
  keys_hold db ->
  keys_hold {| memories := memories db ++ [row]; memory_edges := memory_edges db |}.
Proof.
  intros Hf [PK FK]. split.
  - unfold primary_key. cbn [memories]. rewrite map_app. cbn [map].
    apply NoDup_app; [assumption | repeat constructor; intros [] |].
    intros i Hi [<-|[]]. contradiction.
  - apply (foreign_keys_same_ids db); cbn [memories memory_edges]; auto.
    intros i Hi. rewrite map_app. apply in_or_app. now left.
Qed.

Lemma storeRaw_keeps_keys (e : RawEntry) (db : Database) :
  keys_hold db -> keys_hold (snd (storeRaw e db)).
Proof.
  intros K. unfold storeRaw, bind, all, run, ret.
  destruct (find (fun r => String.eqb (col_id r) (raw_id e)) (memories db)) eqn:F.
  - unfold UPDATE_memories_by_id. cbv beta iota. cbn [snd].
    apply (keys_hold_same_ids db); cbn [memories memory_edges]; auto.
    now apply UPDATE_keeps_ids.
  - destruct (find (fun r => String.eqb (col_content r) (raw_content e)) (memories db));
      [exact K|].
    pose proof (find_col_id_None _ _ F) as Hf.
    unfold INSERT_memory. cbn [raw_row col_id].
    destruct (existsb (fun r => String.eqb (col_id r) (raw_id e)) (memories db)) eqn:X.
    + exact K.
    + cbv beta iota. cbn [snd]. now apply (keys_hold_insert (raw_row e)).
Qed.

Lemma setEmbedding_keeps_keys (i : string) (embedding : list float) (db : Database) :
  keys_hold db -> keys_hold (snd (setEmbedding i embedding db)).
Proof.
  intros K. unfold setEmbedding, bind, run, ret, UPDATE_memories_by_id.
  cbv beta iota. cbn [snd].
  apply (keys_hold_same_ids db); cbn [memories memory_edges]; auto.
  now apply UPDATE_keeps_ids.
Qed.

Lemma NoDup_ids_filter (p : memories_row -> bool) (rows : list memories_row) :
  NoDup (map col_id rows) -> NoDup (map col_id (filter p rows)).
Proof.
  induction rows as [|r rows IH]; intros N; [constructor|].
  cbn [map] in N. inversion N as [|? ? Hn Hd]; subst. cbn [filter].
  destruct (p r); [|auto]. cbn [map]. constructor; [|auto].
  intros Hx. apply Hn. apply in_map_iff in Hx. destruct Hx as (r' & E & Hr').
  apply filter_In in Hr'. rewrite <- E. apply in_map. tauto.
Qed.

Lemma deleteBySource_keeps_keys (src : string) (db : Database) :
  keys_hold db -> keys_hold (snd (deleteBySource src db)).
Proof.
  intros [PK FK]. rewrite deleteBySource_state. cbn [snd]. split.
  - unfold primary_key, DELETE_memories_where. cbn [snd memories].
    rewrite fold_DELETE_edges_memories. now apply NoDup_ids_filter.
  - apply DELETE_memories_where_foreign_keys.
    now apply fold_DELETE_edges_foreign_keys.
Qed.

Lemma deleteByQuery_keeps_keys (embedding : list float) (threshold : float) (db : Database) :
  keys_hold db -> keys_hold (snd (deleteByQuery embedding threshold db)).
Proof.
  intros K. unfold deleteByQuery. unfold bind at 1. unfold all. cbv beta iota.
  apply bind_ret_invariant. apply for_of_invariant; [|exact K].
  intros m db' K'. apply bind_ret_invariant. now apply delete_keeps_keys.
Qed.

Lemma after_keeps_keys (c : call) (db : Database) :
  keys_hold db -> keys_hold (after c db).
Proof.
  intros K. destruct c; cbn [after].
  - now apply store_keeps_keys.
  - now apply storeRaw_keeps_keys.
  - now apply setEmbedding_keeps_keys.
  - now apply addEdge_keeps_keys.
  - now apply delete_keeps_keys.
  - now apply deleteBySource_keeps_keys.
  - now apply deleteByQuery_keeps_keys.
Qed.

(** X1. Whatever calls of [store], [storeRaw], [setEmbedding], [addEdge],
    [delete], [deleteBySource] and [deleteByQuery] are made on a store
    that starts empty, with whatever arguments and whether they return or
    throw, no two memories have the same id and every edge has both its
    ends among the stored memories. *)
Theorem reached_stores_keep_their_keys (calls : list call) :
  primary_key (reached calls) /\ foreign_keys (reached calls).
Proof.
  unfold reached.
  assert (G : forall db, keys_hold db ->
              keys_hold (fold_left (fun db c => after c db) calls db)).
  { induction calls as [|c calls IH]; intros db K; [exact K|].
    cbn [fold_left]. apply IH. now apply after_keeps_keys. }
  apply G. apply keys_hold_empty.
Qed.

End ReachSpec.

(** ** memory-db.ts: what a search keeps, and what [store] and [delete]
    change in it *)

Module RankingSpec.

Import Number NumberFacts Js MemoryDB MemoryDBRest SortFacts BufferFacts BlobSpec.
Import SearchSpec StoreSpec DeleteSpec.
Local Open Scope string_scope.
Local Open Scope float_scope.

Lemma StronglySorted_app_inv {A : Type} (R : A -> A -> Prop) (l1 l2 : list A) :
  StronglySorted R (l1 ++ l2) ->
  forall x y, In x l1 -> In y l2 -> R x y.
Proof.
  induction l1 as [|a l1 IH]; intros S x y Hx Hy; [destruct Hx|].
  cbn [app] in S. inversion S as [|? ? S' Ha]; subst.
  destruct Hx as [<-|Hx].
  - rewrite Forall_forall in Ha. apply Ha. apply in_or_app. now right.
  - now apply (IH S').
Qed.

Lemma decoded_encoded (row : memories_row) (vec : list float) :
  col_embedding row = Some (encodeEmbedding vec) -> decoded row = Some vec.
Proof.
  intros E. unfold decoded, decodeEmbedding, encodeEmbedding in *. rewrite E.
  assert (H : Float64Array_from (flat_map Buffer.float64_to_bytes vec) = Some vec).
  { clear E. induction vec as [|x vec IH]; [reflexivity|].
    cbn [flat_map]. now rewrite Float64Array_from_bytes, IH. }
  now rewrite H.
Qed.

Lemma scan_length (q : list float) (minScore : float) (rows : list memories_row) :
  (List.length (scan q minScore rows) <= List.length rows)%nat.
Proof.
  induction rows as [|row rows IH]; [reflexivity|]. cbn [scan List.length].
  destruct (scan_row q minScore row); cbn [List.length]; lia.
Qed.

(** With a limit that is at least the number of rows, every row that
    decodes and scores at least [minScore] is returned. *)
Lemma vectorSearch_complete (db : Database) (q : list float) (limit : nat)
    (minScore : float) (row : memories_row) (stored : list float) :
  (count db <= limit)%nat ->
  In row (memories db) -> decoded row = Some stored ->
  ge (cosineSimilarity q stored) minScore = true ->
  In {| entry := entry_of_row row stored; score := cosineSimilarity q stored |}
     (vectorSearch db q limit minScore).
Proof.
  intros Hc Hin D G. unfold vectorSearch, slice0.
  pose proof (Array_sort_perm by_score_desc (scan q minScore (memories db))) as P.
  rewrite firstn_all2.
  - apply (Permutation_in _ (Permutation_sym P)). apply scan_In.
    exists row. split; [assumption|]. apply scan_row_Some. eauto.
  - rewrite (Permutation_length P). unfold count in Hc.
    pose proof (scan_length q minScore (memories db)). lia.
Qed.

(** X2. The results of [vectorSearch] are the best candidates, whatever
    number the limit is: the rows whose embedding decodes and scores at
    least [minScore] split into the results and the rest, and every
    result scores at least as much as every row of the rest. With [n]
    the integer part of the limit: when [n] is not negative the rest is
    empty unless the results are [n] in number; when [n] is negative the
    results are empty unless the rest is [-n] in number; a limit of
    [+Infinity] leaves no rest and one of [-Infinity] no result. So when
    the integer part of the limit is at least the number of rows, every
    such row is among the results. *)
Theorem vectorSearch_keeps_the_best (db : Database) (q : list float) (limit : float)
    (minScore : float) :
  let results := vectorSearch_number db q limit minScore in
  (exists rest,
     Permutation (results ++ rest) (scan q minScore (memories db)) /\
     (forall r c, In r results -> In c rest -> ge (score r) (score c) = true) /\
     match ToIntegerOrInfinity limit with
     | NegInfinity => results = []
     | PosInfinity => rest = []
     | Integer n =>
         ((0 <= n)%Z -> rest = [] \/ Z.of_nat (List.length results) = n) /\
         ((n < 0)%Z -> results = [] \/ Z.of_nat (List.length rest) = (- n)%Z)
     end) /\
  (reaches limit (count db) ->
   forall row stored, In row (memories db) -> decoded row = Some stored ->
     ge (cosineSimilarity q stored) minScore = true ->
     In {| entry := entry_of_row row stored; score := cosineSimilarity q stored |} results).
Proof.
  intros results.
  set (sorted := Array_sort by_score_desc (scan q minScore (memories db))).
  set (k := slice_final limit (List.length sorted)).
  assert (R : results = firstn k sorted) by reflexivity.
  assert (P : Permutation sorted (scan q minScore (memories db))) by apply Array_sort_perm.
  assert (S : descending sorted) by apply sorted_scan_descending.
  assert (K : (k <= List.length sorted)%nat) by apply slice_final_le.
  split.
  - exists (skipn k sorted). rewrite R, firstn_skipn. split; [exact P|]. split.
    + apply (StronglySorted_app_inv _ (firstn k sorted) (skipn k sorted)).
      rewrite firstn_skipn. exact S.
    + pose proof (slice_final_cases limit (List.length sorted)) as C. fold k in C.
      assert (L1 : List.length (firstn k sorted) = k) by (rewrite length_firstn; lia).
      assert (L2 : List.length (skipn k sorted) = (List.length sorted - k)%nat)
        by apply length_skipn.
      destruct (ToIntegerOrInfinity limit) as [|n|].
      * now rewrite C.
      * destruct C as [C1 C2]. split; intros N.
        -- specialize (C1 N).
           destruct (Z_le_gt_dec (Z.of_nat (List.length sorted)) n) as [H|H].
           ++ left. apply skipn_all2. lia.
           ++ right. rewrite L1. lia.
        -- specialize (C2 N).
           destruct (Z_le_gt_dec (Z.of_nat (List.length sorted) + n) 0) as [H|H].
           ++ left. replace k with 0%nat by lia. reflexivity.
           ++ right. rewrite L2. lia.
      * rewrite C. apply skipn_all.
  - intros Hc row stored Hin D G. rewrite R.
    assert (A : Array_slice0 limit sorted = sorted).
    { apply Array_slice0_all. unfold reaches in *.
      assert (L : (List.length sorted <= count db)%nat).
      { rewrite (Permutation_length P). apply scan_length. }
      destruct (ToIntegerOrInfinity limit); [assumption | lia | exact I]. }
    unfold Array_slice0 in A. fold k in A. rewrite A.
    apply (Permutation_in _ (Permutation_sym P)). apply scan_In.
    exists row. split; [assumption|]. apply scan_row_Some. eauto.
Qed.

Lemma scan_filter_ids (q : list float) (minScore : float) (p : string -> bool)
    (rows : list memories_row) :
  scan q minScore (filter (fun r => p (col_id r)) rows) =
  filter (fun r => p (id (entry r))) (scan q minScore rows).
Proof.
  induction rows as [|row rows IH]; [reflexivity|].
  cbn [filter scan].
  destruct (scan_row q minScore row) as [r|] eqn:E.
  - apply scan_row_Some in E as E'. destruct E' as (st & _ & _ & Hr).
    assert (I : id (entry r) = col_id row) by (now subst r).
    cbn [filter]. rewrite I. destruct (p (col_id row)).
    + cbn [scan]. now rewrite E, IH.
    + exact IH.
  - destruct (p (col_id row)); [|exact IH]. cbn [scan]. now rewrite E.
Qed.

(** X3. After [delete] of a well-formed id, a search ranks exactly the
    candidates it ranked before, less those of the deleted memory: no
    result of any later search bears that id. *)
Theorem delete_removes_from_search (i : string) (db : Database) (q : list float)
    (limit : nat) (minScore : float) :
  uuid_regex_test i = true ->
  let db' := snd (delete i db) in
  scan q minScore (memories db') =
    filter (fun r => negb (String.eqb (id (entry r)) i)) (scan q minScore (memories db)) /\
  forall r, In r (vectorSearch db' q limit minScore) -> id (entry r) <> i.
Proof.
  intros T db'. subst db'. rewrite (delete_accepts i db T). cbn [snd].
  assert (E : scan q minScore (memories (deleted i db)) =
    filter (fun r => negb (String.eqb (id (entry r)) i)) (scan q minScore (memories db))).
  { unfold deleted, DELETE_memories_where, DELETE_edges_of. cbn [snd memories].
    apply (scan_filter_ids q minScore (fun j => negb (String.eqb j i))). }
  split; [exact E|].
  intros r Hr. apply vectorSearch_In in Hr. rewrite E in Hr.
  apply filter_In in Hr. destruct Hr as [_ Hn].
  apply negb_true_iff in Hn. now apply String.eqb_neq.
Qed.

Lemma delete_removes_from_search_witness :
  map (fun r => id (entry r)) (vectorSearch tabs_db [1; 0] 5 0.3) = [uuid_1] /\
  vectorSearch (snd (delete uuid_1 tabs_db)) [1; 0] 5 0.3 = [].
Proof.
  split; [reflexivity|].
  destruct (delete_removes_from_search uuid_1 tabs_db [1; 0] 5 0.3 eq_refl) as [_ H].
  destruct (vectorSearch (snd (delete uuid_1 tabs_db)) [1; 0] 5 0.3) as [|r rest] eqn:E;
    [reflexivity|].
  exfalso. assert (Hr : In r (r :: rest)) by now left.
  pose proof (H r Hr) as Hn. clear H.
  assert (V : vectorSearch (snd (delete uuid_1 tabs_db)) [1; 0] 5 0.3 = []) by reflexivity.
  rewrite V in E. discriminate.
Defined.

(** X4. When [store] returns, the store holds a row with the returned id
    whose content is the given one, whose blob decodes to exactly the
    given embedding, and whose created_at, source and tags are those of
    the call. The returned entry agrees with that row on id, content,
    embedding and created_at. On a new memory it agrees on source, tags
    and category as well; on a duplicate it carries the source, tags and
    category that the matched row had before the call, while the row is
    written with the source and tags of the call and with the category
    given, or the previous one when none is given. *)
Theorem store_returns_entry_and_writes_row (db db' : Database) (now : Z)
    (uuid content : string) (embedding : list float) (opts : StoreOpts)
    (result : StoreResult) :
  store now uuid content embedding opts db = (Returned result, db') ->
  exists row,
    In row (memories db') /\
    col_id row = id (result_entry result) /\
    col_content row = content /\
    MemoryDB.content (result_entry result) = content /\
    decoded row = Some embedding /\
    MemoryDB.embedding (result_entry result) = embedding /\
    col_created_at row = now /\
    created_at (result_entry result) = now /\
    col_source row = nullish (opt_source opts) "" /\
    col_tags row = nullish (opt_tags opts) [] /\
    (isDuplicate result = false ->
       id (result_entry result) = uuid /\
       col_category row = nullish (opt_category opts) "other" /\
       source (result_entry result) = col_source row /\
       tags (result_entry result) = col_tags row /\
       category (result_entry result) = col_category row) /\
    (isDuplicate result = true ->
       exists old,
         In old (memories db) /\ col_id old = col_id row /\
         source (result_entry result) = col_source old /\
         tags (result_entry result) = col_tags old /\
         category (result_entry result) = col_category old /\
         col_category row = nullish (opt_category opts) (col_category old)).
Proof.
  unfold store, bind, all, run, ret.
  destruct (vectorSearch db embedding 1 _) as [|r rest] eqn:V.
  - unfold INSERT_memory. cbn [col_id].
    destruct (existsb (fun r => String.eqb (col_id r) uuid) (memories db)); [discriminate|].
    cbv beta iota. intros [= <- <-].
    eexists. split; [cbn [memories]; apply in_or_app; right; left; reflexivity|].
    split; [reflexivity|]. split; [reflexivity|]. split; [reflexivity|].
    split; [now apply decoded_encoded|].
    cbn. repeat split; try reflexivity; try discriminate.
  - assert (Hr : In r (vectorSearch db embedding 1
                      (nullish (dedupeThreshold opts) default_dedupeThreshold)))
      by (rewrite V; now left).
    apply vectorSearch_In, scan_In in Hr. destruct Hr as (old & Hold & Hs).
    apply scan_row_Some in Hs. destruct Hs as (st & D & _ & ->).
    unfold UPDATE_memories_by_id. cbv beta iota. intros [= <- <-].
    exists (overwrite content embedding now opts (entry_of_row old st) old).
    split.
    { cbn [memories entry entry_of_row id]. apply in_map_iff. exists old.
      split; [|assumption]. now rewrite String.eqb_refl. }
    split; [reflexivity|]. split; [reflexivity|]. split; [reflexivity|].
    split; [now apply decoded_encoded|].
    cbn. repeat split; try reflexivity; try discriminate.
    intros _. exists old. repeat split; try reflexivity. assumption.
Qed.

Lemma store_returns_entry_and_writes_row_witness :
  exists result db',
    store 1700000000001 uuid_2 "Please use tabs, never spaces" [0.99; 0.1]
          {| opt_source := Some "vscode:autosave"; opt_tags := Some ["autosave"];
             opt_category := Some "code-pattern"; dedupeThreshold := None |}
          tabs_db = (Returned result, db') /\
    isDuplicate result = true /\
    category (result_entry result) = "preference" /\
    source (result_entry result) = "vscode:chat" /\
    map col_category (memories db') = ["code-pattern"] /\
    map col_source (memories db') = ["vscode:autosave"] /\
    exists row, In row (memories db') /\ decoded row = Some [0.99; 0.1].
Proof.
  destruct (store 1700000000001 uuid_2 "Please use tabs, never spaces" [0.99; 0.1]
              {| opt_source := Some "vscode:autosave"; opt_tags := Some ["autosave"];
                 opt_category := Some "code-pattern"; dedupeThreshold := None |}
              tabs_db) as [[result|e] db'] eqn:E; [|vm_compute in E; discriminate].
  destruct (store_returns_entry_and_writes_row _ _ _ _ _ _ _ _ E)
    as (row & Hin & _ & _ & _ & D & _).
  exists result, db'. split; [reflexivity|].
  assert (E' := E). vm_compute in E'. injection E' as <- <-.
  split; [reflexivity|]. split; [reflexivity|]. split; [reflexivity|].
  split; [reflexivity|]. split; [reflexivity|].
  exists row. split; assumption.
Defined.

End RankingSpec.

(** ** memory-db.ts: storeRaw and setEmbedding, the two halves of a sync *)

Module RawStoreSpec.

Import Number NumberFacts Js MemoryDB MemoryDBRest SortFacts.
Import SearchSpec StoreSpec DeleteSpec RankingSpec.
Local Open Scope string_scope.
Local Open Scope list_scope.
Local Open Scope float_scope.

Lemma sort_insert_hits (x x' : MemorySearchResult) (l l' : list MemorySearchResult) :
  hit x = hit x' -> map hit l = map hit l' ->
  map hit (sort_insert by_score_desc x l) = map hit (sort_insert by_score_desc x' l').
Proof.
  intros Hx. revert l'. induction l as [|y l IH]; intros [|y' l'] Hl; try discriminate.
  - cbn. now rewrite Hx.
  - cbn [map] in Hl. injection Hl as Hi Hs Hl. cbn [sort_insert].
    assert (Hy : hit y = hit y') by (unfold hit; congruence).
    assert (C : by_score_desc x y = by_score_desc x' y').
    { unfold by_score_desc.
      pose proof (f_equal snd Hx) as Sx. pose proof (f_equal snd Hy) as Sy.
      cbn [hit snd] in Sx, Sy. now rewrite Sx, Sy. }
    rewrite C. destruct (gt (by_score_desc x' y') 0).
    + cbn [map]. now rewrite Hy, (IH l' Hl).
    + cbn [map]. now rewrite Hx, Hy, Hl.
Qed.

Lemma Array_sort_hits (l l' : list MemorySearchResult) :
  map hit l = map hit l' ->
  map hit (Array_sort by_score_desc l) = map hit (Array_sort by_score_desc l').
Proof.
  revert l'. induction l as [|x l IH]; intros [|x' l'] Hl; try discriminate; [reflexivity|].
  cbn [map] in Hl. injection Hl as Hi Hs Hl. cbn [Array_sort].
  apply sort_insert_hits; [unfold hit; congruence | auto].
Qed.

Lemma vectorSearch_hits (db db' : Database) (q : list float) (limit : nat) (minScore : float) :
  map hit (scan q minScore (memories db')) = map hit (scan q minScore (memories db)) ->
  map hit (vectorSearch db' q limit minScore) = map hit (vectorSearch db q limit minScore).
Proof.
  intros H. unfold vectorSearch, slice0. rewrite <- !firstn_map. f_equal.
  now apply Array_sort_hits.
Qed.

(** The same for a limit that is any number. *)
Lemma vectorSearch_number_hits (db db' : Database) (q : list float) (limit : float)
    (minScore : float) :
  map hit (scan q minScore (memories db')) = map hit (scan q minScore (memories db)) ->
  map hit (vectorSearch_number db' q limit minScore) =
  map hit (vectorSearch_number db q limit minScore).
Proof.
  intros H. unfold vectorSearch_number, Array_slice0. rewrite <- !firstn_map.
  assert (L : List.length (Array_sort by_score_desc (scan q minScore (memories db'))) =
              List.length (Array_sort by_score_desc (scan q minScore (memories db)))).
  { rewrite !(Permutation_length (Array_sort_perm _ _)).
    rewrite <- (length_map hit (scan q minScore (memories db'))), H. apply length_map. }
  rewrite L. f_equal. now apply Array_sort_hits.
Qed.

Lemma scan_app (q : list float) (minScore : float) (l1 l2 : list memories_row) :
  scan q minScore (l1 ++ l2) = scan q minScore l1 ++ scan q minScore l2.
Proof.
  induction l1 as [|r l1 IH]; [reflexivity|]. cbn [app scan].
  destruct (scan_row q minScore r); cbn [app]; now rewrite IH.
Qed.

Lemma scan_same_embeddings (q : list float) (minScore : float)
    (f : memories_row -> memories_row) (rows : list memories_row) :
  (forall r, col_id (f r) = col_id r /\ col_embedding (f r) = col_embedding r) ->
  map hit (scan q minScore (map f rows)) = map hit (scan q minScore rows).
Proof.
  intros Hf. induction rows as [|r rows IH]; [reflexivity|].
  cbn [map scan]. destruct (Hf r) as [Hi He].
  rewrite !scan_row_decoded. unfold decoded. rewrite He.
  destruct (col_embedding r) as [blob|]; [|exact IH].
  destruct (decodeEmbedding blob) as [st|]; [|exact IH].
  destruct (ge (cosineSimilarity q st) minScore); [|exact IH].
  cbn [map]. rewrite IH. f_equal. unfold hit. cbn. now rewrite Hi.
Qed.

Lemma existsb_find_col_id (i : string) (rows : list memories_row) :
  find (fun r => String.eqb (col_id r) i) rows = None ->
  existsb (fun r => String.eqb (col_id r) i) rows = false.
Proof.
  intros F. destruct (existsb _ rows) eqn:E; [|reflexivity].
  apply existsb_exists in E. destruct E as (r & Hr & Hi).
  apply (find_none _ _ F) in Hr. congruence.
Qed.

(** X5. [storeRaw] never throws. It returns [false] only when no memory
    has the entry's id and some memory has its content, and then the store
    is unchanged; when it returns [true] a row with the entry's id holds
    the entry's content and created_at, the ids stored before are all
    still there, in the same order, and the entry's id is the only one
    that may have been added. *)
Theorem storeRaw_reports_whether_it_wrote (e : RawEntry) (db : Database) :
  let db' := snd (storeRaw e db) in
  exists written,
    fst (storeRaw e db) = Returned written /\
    (written = false ->
       db' = db /\ ~ In (raw_id e) (ids db) /\
       In (raw_content e) (map col_content (memories db))) /\
    (written = true ->
       (exists row, In row (memories db') /\ col_id row = raw_id e /\
          col_content row = raw_content e /\ col_created_at row = raw_created_at e) /\
       (In (raw_id e) (ids db) -> ids db' = ids db) /\
       (~ In (raw_id e) (ids db) -> ids db' = ids db ++ [raw_id e])).
Proof.
  unfold storeRaw, bind, all, run, ret, ids.
  destruct (find (fun r => String.eqb (col_id r) (raw_id e)) (memories db)) as [old|] eqn:F.
  - unfold UPDATE_memories_by_id. cbv beta iota. cbn [fst snd memories].
    exists true. split; [reflexivity|]. split; [discriminate|]. intros _.
    apply find_some in F. destruct F as [Hold Hid]. apply String.eqb_eq in Hid.
    assert (I : map col_id (map (fun r => if String.eqb (col_id r) (raw_id e)
                                        then raw_update e r else r) (memories db)) =
                map col_id (memories db)).
    { rewrite map_map. apply map_ext. intros r.
      now destruct (String.eqb (col_id r) (raw_id e)). }
    split; [|split].
    + exists (raw_update e old). split.
      * apply in_map_iff. exists old. split; [|assumption].
        apply String.eqb_eq in Hid. now rewrite Hid.
      * cbn. auto.
    + intros _. exact I.
    + intros N. exfalso. apply N. rewrite <- Hid. now apply in_map.
  - pose proof (ReachSpec.find_col_id_None _ _ F) as N.
    destruct (find (fun r => String.eqb (col_content r) (raw_content e)) (memories db))
      as [dup|] eqn:D.
    + cbn [fst snd]. exists false. split; [reflexivity|]. split; [|discriminate].
      intros _. split; [reflexivity|]. split; [exact N|].
      apply find_some in D. destruct D as [Hd Hc]. apply String.eqb_eq in Hc.
      rewrite <- Hc. now apply in_map.
    + unfold INSERT_memory. cbn [col_id raw_row].
      rewrite (existsb_find_col_id _ _ F). cbv beta iota. cbn [fst snd memories].
      exists true. split; [reflexivity|]. split; [discriminate|]. intros _.
      split; [|split].
      * exists (raw_row e). split; [apply in_or_app; right; now left|]. cbn. auto.
      * intros Y. contradiction.
      * intros _. now rewrite map_app.
Qed.

(** X6. [storeRaw] changes the outcome of no search: whatever the entry,
    the query, the limit and the minimum score, a search of the store after
    the call returns the ids and the scores that it returned before. A
    memory that [storeRaw] inserts is found by no search, and one whose
    content it replaces is still ranked by the embedding of its previous
    content. *)
Theorem storeRaw_is_invisible_to_search (e : RawEntry) (db : Database)
    (q : list float) (limit : nat) (minScore : float) :
  let db' := snd (storeRaw e db) in
  map hit (vectorSearch db' q limit minScore) = map hit (vectorSearch db q limit minScore) /\
  (~ In (raw_id e) (ids db) ->
   forall r, In r (vectorSearch db' q limit minScore) -> id (entry r) <> raw_id e) /\
  (forall old, In old (memories db) -> col_id old = raw_id e ->
     In (raw_update e old) (memories db') /\
     decoded (raw_update e old) = decoded old).
Proof.
  intros db'.
  assert (S : map hit (scan q minScore (memories db')) =
              map hit (scan q minScore (memories db)) /\
              (forall old, In old (memories db) -> col_id old = raw_id e ->
                 In (raw_update e old) (memories db'))).
  { subst db'. unfold storeRaw, bind, all, run, ret.
    destruct (find (fun r => String.eqb (col_id r) (raw_id e)) (memories db)) as [old|] eqn:F.
    - unfold UPDATE_memories_by_id. cbv beta iota. cbn [snd memories]. split.
      + apply scan_same_embeddings. intros r.
        destruct (String.eqb (col_id r) (raw_id e)); cbn; auto.
      + intros o Ho Hi. apply in_map_iff. exists o. split; [|assumption].
        apply String.eqb_eq in Hi. now rewrite Hi.
    - pose proof (ReachSpec.find_col_id_None _ _ F) as N.
      assert (A : forall old, In old (memories db) -> col_id old = raw_id e -> False).
      { intros o Ho Hi. apply N. rewrite <- Hi. now apply in_map. }
      destruct (find (fun r => String.eqb (col_content r) (raw_content e)) (memories db)).
      + cbn [snd]. split; [reflexivity|]. intros o Ho Hi. destruct (A o Ho Hi).
      + unfold INSERT_memory. cbn [col_id raw_row].
        rewrite (existsb_find_col_id _ _ F). cbv beta iota. cbn [snd memories]. split.
        * rewrite scan_app.
          change (scan q minScore [raw_row e]) with (@nil MemorySearchResult).
          now rewrite app_nil_r.
        * intros o Ho Hi. destruct (A o Ho Hi). }
  destruct S as [S U].
  pose proof (vectorSearch_hits db db' q limit minScore S) as H.
  split; [exact H|]. split.
  - intros N r Hr Hi.
    assert (Hh : In (hit r) (map hit (vectorSearch db q limit minScore)))
      by (rewrite <- H; now apply in_map).
    apply in_map_iff in Hh. destruct Hh as (r0 & E0 & Hr0).
    apply vectorSearch_In, scan_In in Hr0. destruct Hr0 as (row & Hrow & Hs).
    apply scan_row_Some in Hs. destruct Hs as (st & _ & _ & ->).
    unfold hit in E0. cbn in E0. injection E0 as E0 _.
    apply N. unfold ids. rewrite <- Hi, <- E0. now apply in_map.
  - intros old Ho Hi. split; [now apply U|]. reflexivity.
Qed.

(** X7. [setEmbedding] returns, keeps the stored ids and the edges, and
    leaves every row of another id as it was; for an id that is not stored
    it changes nothing, and says nothing. A row of that id then decodes
    to exactly the given embedding, and a search whose limit is at least
    the number of memories returns it, with the cosine of the query and
    that embedding as its score, whenever that score reaches the minimum
    asked for. *)
Theorem setEmbedding_makes_searchable (i : string) (embedding : list float) (db : Database) :
  let db' := snd (setEmbedding i embedding db) in
  fst (setEmbedding i embedding db) = Returned tt /\
  ids db' = ids db /\
  memory_edges db' = memory_edges db /\
  (forall r, In r (memories db) -> col_id r <> i -> In r (memories db')) /\
  (~ In i (ids db) -> db' = db) /\
  (forall row, In row (memories db) -> col_id row = i ->
     In (with_embedding embedding row) (memories db') /\
     decoded (with_embedding embedding row) = Some embedding /\
     forall q limit minScore,
       (count db <= limit)%nat ->
       ge (cosineSimilarity q embedding) minScore = true ->
       In {| entry := entry_of_row row embedding;
             score := cosineSimilarity q embedding |}
          (vectorSearch db' q limit minScore)).
Proof.
  unfold setEmbedding, bind, run, ret, UPDATE_memories_by_id, ids.
  cbv beta iota. cbn [fst snd memories memory_edges].
  split; [reflexivity|]. split; [|split; [reflexivity|]].
  { rewrite map_map. apply map_ext. intros r. now destruct (String.eqb (col_id r) i). }
  split; [|split].
  - intros r Hr Hn. apply in_map_iff. exists r. split; [|assumption].
    apply String.eqb_neq in Hn. now rewrite Hn.
  - intros N. destruct db as [rows edges]. cbn [memories memory_edges] in *. f_equal.
    rewrite <- (map_id rows) at 2. apply map_ext_in. intros r Hr.
    destruct (String.eqb (col_id r) i) eqn:E; [|reflexivity].
    apply String.eqb_eq in E. exfalso. apply N. rewrite <- E. now apply in_map.
  - intros row Hrow Hi.
    assert (Hin : In (with_embedding embedding row)
                    (map (fun r => if String.eqb (col_id r) i
                                   then with_embedding embedding r else r) (memories db))).
    { apply in_map_iff. exists row. split; [|assumption].
      apply String.eqb_eq in Hi. now rewrite Hi. }
    assert (D : decoded (with_embedding embedding row) = Some embedding)
      by now apply decoded_encoded.
    split; [exact Hin|]. split; [exact D|].
    intros q limit minScore Hc G.
    change (entry_of_row row embedding)
      with (entry_of_row (with_embedding embedding row) embedding).
    apply vectorSearch_complete; try assumption.
    unfold count in *. cbn [memories]. now rewrite length_map.
Qed.

End RawStoreSpec.

(** ** memory-db.ts: what the deletions remove, and what they leave *)

Module ForgetSpec.

Import Number NumberFacts Js MemoryDB MemoryDBRest SortFacts.
Import SearchSpec StoreSpec DeleteSpec KeysSpec RankingSpec.
Local Open Scope string_scope.
Local Open Scope list_scope.
Local Open Scope float_scope.

Lemma filter_twice {A : Type} (p q : A -> bool) (l : list A) :
  filter p (filter q l) = filter (fun x => q x && p x) l.
Proof.
  induction l as [|x l IH]; [reflexivity|]. cbn [filter].
  destruct (q x); cbn [filter andb]; [destruct (p x)|]; now rewrite IH.
Qed.

Lemma filter_split_length {A : Type} (p : A -> bool) (l : list A) :
  (List.length (filter (fun x => negb (p x)) l) + List.length (filter p l) =
   List.length l)%nat.
Proof.
  induction l as [|x l IH]; [reflexivity|]. cbn [filter].
  destruct (p x); cbn [negb List.length]; lia.
Qed.

Lemma existsb_eqb_In (i : string) (l : list string) :
  existsb (String.eqb i) l = true <-> In i l.
Proof.
  rewrite existsb_exists. split.
  - intros (j & Hj & E). apply String.eqb_eq in E. now subst.
  - intros H. exists i. split; [assumption | apply String.eqb_refl].
Qed.

Lemma existsb_touches (l : list string) (e : memory_edges_row) :
  existsb (fun i => touches i e) l = false <-> ~ In (from_id e) l /\ ~ In (to_id e) l.
Proof.
  split.
  - intros X. split; intros H.
    + assert (Y : existsb (fun i => touches i e) l = true).
      { apply existsb_exists. exists (from_id e). split; [assumption|].
        apply touches_spec. now left. }
      congruence.
    + assert (Y : existsb (fun i => touches i e) l = true).
      { apply existsb_exists. exists (to_id e). split; [assumption|].
        apply touches_spec. now right. }
      congruence.
  - intros [Hf Ht]. destruct (existsb _ l) eqn:X; [|reflexivity].
    apply existsb_exists in X. destruct X as (i & Hi & T).
    apply touches_spec in T. destruct T as [<-|<-]; contradiction.
Qed.

(** *** One deletion *)

Lemma deleted_memories (i : string) (db : Database) :
  memories (deleted i db) = filter (fun r => negb (String.eqb (col_id r) i)) (memories db).
Proof. reflexivity. Qed.

Lemma deleted_edges (i : string) (db : Database) :
  memory_edges (deleted i db) = filter (fun e => negb (touches i e)) (memory_edges db).
Proof.
  unfold deleted, DELETE_memories_where, DELETE_edges_of. cbn [snd memories memory_edges].
  apply filter_all. intros e He. apply filter_In in He. destruct He as [_ Hn].
  apply negb_true_iff. apply negb_true_iff in Hn.
  destruct (existsb _ _) eqn:X; [|reflexivity].
  apply existsb_exists in X. destruct X as (j & Hj & T).
  apply in_map_iff in Hj. destruct Hj as (r & <- & Hr).
  apply filter_In in Hr. destruct Hr as [_ E]. apply String.eqb_eq in E.
  rewrite E in T. congruence.
Qed.

(** *** A run of deletions *)

Lemma forget_memories (l : list string) (db : Database) :
  memories (forget l db) =
  filter (fun r => negb (existsb (String.eqb (col_id r)) l)) (memories db).
Proof.
  unfold forget. revert db. induction l as [|i l IH]; intros db.
  - cbn [fold_left existsb negb]. symmetry. now apply filter_all.
  - cbn [fold_left]. rewrite IH, deleted_memories, filter_twice.
    apply filter_ext. intros r. cbn [existsb]. now rewrite negb_orb.
Qed.

Lemma forget_edges (l : list string) (db : Database) :
  memory_edges (forget l db) =
  filter (fun e => negb (existsb (fun i => touches i e) l)) (memory_edges db).
Proof.
  unfold forget. revert db. induction l as [|i l IH]; intros db.
  - cbn [fold_left existsb negb]. symmetry. now apply filter_all.
  - cbn [fold_left]. rewrite IH, deleted_edges, filter_twice.
    apply filter_ext. intros e. cbn [existsb]. now rewrite negb_orb.
Qed.

Lemma for_of_delete (l : list MemorySearchResult) (db : Database) :
  Forall (fun m => uuid_regex_test (id (entry m)) = true) l ->
  for_of l (fun m => delete (id (entry m)) ;;; ret tt) db =
  (Returned tt, forget (map (fun m => id (entry m)) l) db).
Proof.
  intros F. revert db. induction F as [|m l T _ IH]; intros db; [reflexivity|].
  cbn [for_of map]. unfold bind at 1. unfold bind at 1.
  rewrite (delete_accepts _ db T). unfold ret at 1. cbv beta iota.
  rewrite IH. reflexivity.
Qed.

Lemma for_of_delete_stops (good rest : list MemorySearchResult) (bad : MemorySearchResult)
    (db : Database) :
  Forall (fun m => uuid_regex_test (id (entry m)) = true) good ->
  uuid_regex_test (id (entry bad)) = false ->
  for_of (good ++ bad :: rest) (fun m => delete (id (entry m)) ;;; ret tt) db =
  (Thrown (Error ("Invalid memory ID: " ++ id (entry bad))),
   forget (map (fun m => id (entry m)) good) db).
Proof.
  intros F B. revert db. induction F as [|m l T _ IH]; intros db.
  - cbn [app for_of map]. unfold bind at 1. unfold bind at 1.
    rewrite (delete_rejects _ db B). reflexivity.
  - cbn [app for_of map]. unfold bind at 1. unfold bind at 1.
    rewrite (delete_accepts _ db T). unfold ret at 1. cbv beta iota.
    rewrite IH. reflexivity.
Qed.

Lemma deleteByQuery_for_of (embedding : list float) (threshold : float) (db : Database) :
  deleteByQuery embedding threshold db =
  match for_of (vectorSearch db embedding 10 threshold)
               (fun m => delete (id (entry m)) ;;; ret tt) db with
  | (Returned _, db') =>
      (Returned (List.length (vectorSearch db embedding 10 threshold)), db')
  | (Thrown e, db') => (Thrown e, db')
  end.
Proof. reflexivity. Qed.

(** *** The ids of the matches of a search *)

Lemma scan_ids_incl (q : list float) (minScore : float) (rows : list memories_row) (i : string) :
  In i (map (fun m => id (entry m)) (scan q minScore rows)) -> In i (map col_id rows).
Proof.
  intros H. apply in_map_iff in H. destruct H as (m & <- & Hm).
  apply scan_In in Hm. destruct Hm as (row & Hrow & Hs).
  apply scan_row_Some in Hs. destruct Hs as (st & _ & _ & ->). cbn.
  now apply in_map.
Qed.

Lemma scan_ids_NoDup (q : list float) (minScore : float) (rows : list memories_row) :
  NoDup (map col_id rows) -> NoDup (map (fun m => id (entry m)) (scan q minScore rows)).
Proof.
  induction rows as [|r rows IH]; intros N; [constructor|].
  cbn [map] in N. inversion N as [|? ? Hr N']; subst. cbn [scan].
  destruct (scan_row q minScore r) as [m|] eqn:E; [|now apply IH].
  apply scan_row_Some in E. destruct E as (st & _ & _ & ->).
  cbn [map entry id entry_of_row]. constructor; [|now apply IH].
  intros H. apply Hr. now apply (scan_ids_incl q minScore).
Qed.

Lemma NoDup_firstn {A : Type} (n : nat) (l : list A) : NoDup l -> NoDup (firstn n l).
Proof.
  intros N. rewrite <- (firstn_skipn n l) in N. now apply NoDup_app_remove_r in N.
Qed.

Lemma vectorSearch_ids (db : Database) (q : list float) (limit : nat) (minScore : float) :
  let matched := map (fun m => id (entry m)) (vectorSearch db q limit minScore) in
  (forall i, In i matched -> In i (ids db)) /\
  (primary_key db -> NoDup matched).
Proof.
  intros matched. subst matched. split.
  - intros i Hi. apply in_map_iff in Hi. destruct Hi as (m & <- & Hm).
    apply vectorSearch_In in Hm. apply (scan_ids_incl q minScore).
    now apply (in_map (fun m => id (entry m))).
  - intros PK. unfold vectorSearch, slice0. rewrite <- firstn_map. apply NoDup_firstn.
    eapply Permutation_NoDup.
    + apply Permutation_map, Permutation_sym, Array_sort_perm.
    + now apply scan_ids_NoDup.
Qed.

Lemma forgotten_count (l : list string) (rows : list memories_row) :
  NoDup (map col_id rows) -> NoDup l -> (forall i, In i l -> In i (map col_id rows)) ->
  List.length (filter (fun r => existsb (String.eqb (col_id r)) l) rows) = List.length l.
Proof.
  intros Nr Nl Hl.
  rewrite <- (length_map col_id).
  apply Permutation_length, NoDup_Permutation; [|assumption|].
  - rewrite (map_col_id_filter (fun i => existsb (String.eqb i) l)). now apply NoDup_filter.
  - intros i. rewrite (map_col_id_filter (fun i => existsb (String.eqb i) l)).
    rewrite filter_In, existsb_eqb_In. split; [tauto|]. intros H. split; auto.
Qed.

(** X8. When the ids of the matches are all well-formed, [deleteByQuery]
    returns their number, which is at most ten: the memories it leaves are
    exactly those that were not among the (at most ten) best matches, so a
    memory that matches the query survives when ten others match it
    better. The edges it leaves are exactly those with no deleted memory
    at either end. When no two memories share an id, the count of memories
    drops by the number returned. *)
Theorem deleteByQuery_forgets_its_matches (embedding : list float) (threshold : float)
    (db : Database) :
  let matches := vectorSearch db embedding 10 threshold in
  let matched := map (fun m => id (entry m)) matches in
  let db' := snd (deleteByQuery embedding threshold db) in
  Forall (fun m => uuid_regex_test (id (entry m)) = true) matches ->
  fst (deleteByQuery embedding threshold db) = Returned (List.length matches) /\
  (List.length matches <= 10)%nat /\
  (forall r, In r (memories db') <-> In r (memories db) /\ ~ In (col_id r) matched) /\
  (forall e, In e (memory_edges db') <->
     In e (memory_edges db) /\ ~ In (from_id e) matched /\ ~ In (to_id e) matched) /\
  (primary_key db -> (count db' + List.length matches = count db)%nat).
Proof.
  intros matches matched db' V.
  assert (E : deleteByQuery embedding threshold db =
              (Returned (List.length matches), forget matched db)).
  { rewrite deleteByQuery_for_of. fold matches. rewrite (for_of_delete matches db V).
    reflexivity. }
  subst db'. rewrite E. cbn [fst snd]. split; [reflexivity|]. split; [|split; [|split]].
  - unfold matches, vectorSearch, slice0. rewrite length_firstn. lia.
  - intros r. rewrite forget_memories, filter_In, negb_true_iff.
    rewrite <- (existsb_eqb_In (col_id r) matched).
    destruct (existsb (String.eqb (col_id r)) matched); intuition congruence.
  - intros e. rewrite forget_edges, filter_In, negb_true_iff.
    now rewrite existsb_touches.
  - intros PK. unfold count. rewrite forget_memories.
    destruct (vectorSearch_ids db embedding 10 threshold) as [I N].
    rewrite <- (filter_split_length (fun r => existsb (String.eqb (col_id r)) matched)
                  (memories db)).
    rewrite (forgotten_count matched (memories db) PK (N PK) I).
    unfold matched. now rewrite length_map.
Qed.

Lemma deleteByQuery_forgets_its_matches_witness :
  fst (deleteByQuery [1; 0] 0.7 linked_db) = Returned 0%nat /\
  fst (deleteByQuery [1; 0] 0.9 synced_db) = Returned 1%nat /\
  ids (snd (deleteByQuery [1; 0] 0.9 synced_db)) = ["peer-7:42"; uuid_3].
Proof.
  assert (V : Forall (fun m => uuid_regex_test (id (entry m)) = true)
                (vectorSearch synced_db [1; 0] 10 0.9)).
  { apply Forall_forall.
    apply (forallb_forall (fun m => uuid_regex_test (id (entry m)))).
    vm_compute. reflexivity. }
  destruct (deleteByQuery_forgets_its_matches [1; 0] 0.9 synced_db V) as (R & _).
  split; [vm_compute; reflexivity|]. split; [|vm_compute; reflexivity].
  rewrite R. vm_compute. reflexivity.
Defined.

(** X9. When the id of one of the matches is not well-formed (an id that
    [storeRaw] took from a peer, say), [deleteByQuery] throws the error of
    [delete] for the first such match in rank order: the matches ranked
    before it are deleted by then, that match and those ranked after it
    are still stored, and no count is reported. *)
Theorem deleteByQuery_stops_at_malformed_id (embedding : list float) (threshold : float)
    (db : Database) (good rest : list MemorySearchResult) (bad : MemorySearchResult) :
  vectorSearch db embedding 10 threshold = good ++ bad :: rest ->
  Forall (fun m => uuid_regex_test (id (entry m)) = true) good ->
  uuid_regex_test (id (entry bad)) = false ->
  let db' := snd (deleteByQuery embedding threshold db) in
  fst (deleteByQuery embedding threshold db) =
    Thrown (Error ("Invalid memory ID: " ++ id (entry bad))) /\
  (forall r, In r (memories db') <->
     In r (memories db) /\ ~ In (col_id r) (map (fun m => id (entry m)) good)) /\
  (primary_key db ->
     In (id (entry bad)) (ids db') /\
     forall m, In m rest -> In (id (entry m)) (ids db')).
Proof.
  intros V G B db'.
  assert (E : deleteByQuery embedding threshold db =
              (Thrown (Error ("Invalid memory ID: " ++ id (entry bad))),
               forget (map (fun m => id (entry m)) good) db)).
  { rewrite deleteByQuery_for_of, V.
    rewrite (for_of_delete_stops good rest bad db G B). reflexivity. }
  subst db'. rewrite E. cbn [fst snd]. split; [reflexivity|].
  assert (M : forall r, In r (memories (forget (map (fun m => id (entry m)) good) db)) <->
     In r (memories db) /\ ~ In (col_id r) (map (fun m => id (entry m)) good)).
  { intros r. rewrite forget_memories, filter_In, negb_true_iff.
    rewrite <- (existsb_eqb_In (col_id r) (map (fun m => id (entry m)) good)).
    destruct (existsb (String.eqb (col_id r)) _); intuition congruence. }
  split; [exact M|].
  intros PK.
  destruct (vectorSearch_ids db embedding 10 threshold) as [I N].
  specialize (N PK). rewrite V in I, N. rewrite map_app in N. cbn [map] in N.
  assert (K : forall m, In m (bad :: rest) ->
            In (id (entry m)) (ids (forget (map (fun m => id (entry m)) good) db))).
  { intros m Hm.
    assert (Hi : In (id (entry m)) (ids db)).
    { apply I. apply (in_map (fun m => id (entry m))). apply in_or_app. now right. }
    unfold ids in Hi. apply in_map_iff in Hi. destruct Hi as (r & Er & Hr).
    unfold ids. apply in_map_iff. exists r. split; [assumption|].
    apply M. split; [assumption|]. rewrite Er. intros Hg.
    assert (Hb : In (id (entry m)) (id (entry bad) :: map (fun m => id (entry m)) rest)).
    { change (In (id (entry m)) (map (fun m => id (entry m)) (bad :: rest))).
      now apply (in_map (fun m => id (entry m))). }
    revert Hg Hb. clear -N. revert N.
    generalize (map (fun m => id (entry m)) good) as l1.
    generalize (id (entry bad) :: map (fun m => id (entry m)) rest) as l2.
    intros l2 l1 N H1 H2. induction l1 as [|a l1 IH]; [destruct H1|].
    cbn [app] in N. inversion N as [|? ? Ha N']; subst.
    destruct H1 as [->|H1]; [|now apply IH].
    apply Ha. apply in_or_app. now right. }
  split; [apply K; now left|]. intros m Hm. apply K. now right.
Qed.

Lemma deleteByQuery_stops_at_malformed_id_witness :
  map (fun m => id (entry m)) (vectorSearch synced_db [1; 0] 10 0.5) =
    [uuid_1; "peer-7:42"; uuid_3] /\
  fst (deleteByQuery [1; 0] 0.5 synced_db) = Thrown (Error "Invalid memory ID: peer-7:42") /\
  ids (snd (deleteByQuery [1; 0] 0.5 synced_db)) = ["peer-7:42"; uuid_3].
Proof.
  split; [vm_compute; reflexivity|].
  destruct (vectorSearch synced_db [1; 0] 10 0.5) as [|m1 [|m2 [|m3 l]]] eqn:V;
    try (vm_compute in V; discriminate).
  assert (T1 : uuid_regex_test (id (entry m1)) = true)
    by (vm_compute in V; injection V as <- _; reflexivity).
  assert (T2 : uuid_regex_test (id (entry m2)) = false)
    by (vm_compute in V; injection V as _ <- _; reflexivity).
  destruct (deleteByQuery_stops_at_malformed_id [1; 0] 0.5 synced_db [m1] (m3 :: l) m2 V
              (Forall_cons _ T1 (Forall_nil _)) T2) as (R & _).
  split; [|vm_compute; reflexivity].
  rewrite R. vm_compute in V. injection V as _ <- _. reflexivity.
Defined.

(** X10. [delete] and [deleteBySource] remove nothing but what they are
    asked to. After [delete] of a well-formed id the memories are exactly
    those of another id, and the edges exactly those that do not name that
    id. [deleteBySource] returns the number of memories of that source;
    after it the memories are exactly those of another source, the edges
    exactly those with no memory of that source at either end, and the
    count of memories has dropped by the number returned. *)
Theorem deletions_remove_nothing_else (db : Database) :
  (forall i, uuid_regex_test i = true ->
     let db' := snd (delete i db) in
     (forall r, In r (memories db') <-> In r (memories db) /\ col_id r <> i) /\
     (forall e, In e (memory_edges db') <->
        In e (memory_edges db) /\ from_id e <> i /\ to_id e <> i)) /\
  (forall src,
     let db' := snd (deleteBySource src db) in
     let removed := filter (fun r => String.eqb (col_source r) src) (memories db) in
     fst (deleteBySource src db) = Returned (List.length removed) /\
     (forall r, In r (memories db') <-> In r (memories db) /\ col_source r <> src) /\
     (forall e, In e (memory_edges db') <->
        In e (memory_edges db) /\
        ~ In (from_id e) (map col_id removed) /\ ~ In (to_id e) (map col_id removed)) /\
     (count db' + List.length removed = count db)%nat).
Proof.
  split.
  - intros i T db'. subst db'. rewrite (delete_accepts i db T). cbn [snd]. split.
    + intros r. rewrite deleted_memories, filter_In, negb_true_iff, String.eqb_neq.
      reflexivity.
    + intros e. rewrite deleted_edges, filter_In, negb_true_iff.
      pose proof (touches_spec i e) as X.
      destruct (touches i e); intuition congruence.
  - intros src db' removed. subst db'. rewrite deleteBySource_state. cbn [fst snd].
    fold removed.
    set (mid := fold_left (fun d i => snd (DELETE_edges_of i d)) (map col_id removed) db).
    assert (Hm : memories mid = memories db) by apply fold_DELETE_edges_memories.
    assert (He : memory_edges mid =
                 filter (fun e => negb (existsb (fun i => touches i e) (map col_id removed)))
                        (memory_edges db)).
    { subst mid. generalize (map col_id removed) as l. clear. intros l. revert db.
      induction l as [|i l IH]; intros db.
      - cbn [fold_left existsb negb]. symmetry. now apply filter_all.
      - cbn [fold_left]. rewrite IH. unfold DELETE_edges_of at 1. cbn [snd memory_edges].
        rewrite filter_twice. apply filter_ext. intros e. cbn [existsb].
        now rewrite negb_orb. }
    unfold DELETE_memories_where. cbn [snd memories memory_edges]. rewrite Hm, He.
    fold removed. split; [now rewrite length_map|]. split; [|split].
    + intros r. rewrite filter_In, negb_true_iff, String.eqb_neq. reflexivity.
    + intros e. rewrite filter_twice, filter_In, andb_diag, negb_true_iff.
      now rewrite existsb_touches.
    + unfold count. cbn [memories].
      apply (filter_split_length (fun r => String.eqb (col_source r) src)).
Qed.

End ForgetSpec.

(** ** memory-db.ts: getRelated and getLastCaptureTime *)

Module RelatedSpec.

Import Js MemoryDB MemoryDBRest DeleteSpec.
Local Open Scope string_scope.
Local Open Scope list_scope.

Lemma related_pair_spec (memoryId : string) (rel : option string)
    (m : memories_row) (e : memory_edges_row) :
  related_pair memoryId rel m e = true <->
  col_id m <> memoryId /\
  (from_id e = memoryId /\ to_id e = col_id m \/
   from_id e = col_id m /\ to_id e = memoryId) /\
  selects rel e.
Proof.
  unfold related_pair. rewrite !andb_true_iff, negb_true_iff, String.eqb_neq.
  rewrite !touches_spec.
  assert (R : match rel with
              | Some (String c s) => String.eqb (relation e) (String c s)
              | _ => true
              end = true <-> selects rel e).
  { unfold selects. destruct rel as [[|c s]|]; try tauto. apply String.eqb_eq. }
  rewrite R. split.
  - intros [[[Hm Hq] Hr] Hn]. split; [assumption|]. split; [|assumption].
    destruct Hm as [Hm|Hm], Hq as [Hq|Hq]; try (exfalso; congruence); auto.
  - intros (Hn & [[H1 H2]|[H1 H2]] & Hr); repeat split; auto.
Qed.

Lemma getRelated_In (memoryId : string) (rel : option string) (db : Database)
    (x : MemoryEntry) :
  In x (getRelated memoryId rel db) <->
  exists m e, In m (memories db) /\ In e (memory_edges db) /\
    x = entry_without_embedding m /\ related_pair memoryId rel m e = true.
Proof.
  unfold getRelated. rewrite in_flat_map. split.
  - intros (m & Hm & Hx). apply in_map_iff in Hx. destruct Hx as (e & <- & He).
    apply filter_In in He. destruct He as [He Hp]. exists m, e. auto.
  - intros (m & e & Hm & He & -> & Hp). exists m. split; [assumption|].
    apply in_map_iff. exists e. split; [reflexivity|]. apply filter_In. auto.
Qed.

(** X11. [getRelated] returns the stored memories, other than the queried
    one, that an edge joins to the queried one in either direction, the
    edge being of the relation asked for when one is; each comes without
    its embedding, once for every such edge. In particular the queried
    memory is never among the results, an edge from a memory to itself
    yields nothing, and of two stored memories each is related to the
    other as soon as one is related to the other. *)
Theorem getRelated_follows_edges_both_ways (memoryId : string) (rel : option string)
    (db : Database) :
  (forall x, In x (getRelated memoryId rel db) <->
     exists m e, In m (memories db) /\ In e (memory_edges db) /\
       x = entry_without_embedding m /\
       col_id m <> memoryId /\
       (from_id e = memoryId /\ to_id e = col_id m \/
        from_id e = col_id m /\ to_id e = memoryId) /\
       selects rel e) /\
  (forall x, In x (getRelated memoryId rel db) ->
     id x <> memoryId /\ embedding x = [] /\ In (id x) (ids db)) /\
  (forall other, In memoryId (ids db) ->
     In other (map id (getRelated memoryId rel db)) ->
     In memoryId (map id (getRelated other rel db))).
Proof.
  assert (C : forall i x, In x (getRelated i rel db) <->
     exists m e, In m (memories db) /\ In e (memory_edges db) /\
       x = entry_without_embedding m /\
       col_id m <> i /\
       (from_id e = i /\ to_id e = col_id m \/
        from_id e = col_id m /\ to_id e = i) /\
       selects rel e).
  { intros i x. rewrite getRelated_In. split.
    - intros (m & e & Hm & He & Hx & Hp). apply related_pair_spec in Hp.
      exists m, e. tauto.
    - intros (m & e & Hm & He & Hx & Hp). exists m, e.
      rewrite related_pair_spec. tauto. }
  split; [apply C|]. split.
  - intros x Hx. apply C in Hx. destruct Hx as (m & e & Hm & _ & -> & Hn & _).
    cbn. split; [assumption|]. split; [reflexivity|]. unfold ids. now apply in_map.
  - intros other Hq Ho. apply in_map_iff in Ho. destruct Ho as (x & <- & Hx).
    apply C in Hx. destruct Hx as (m & e & Hm & He & -> & Hn & Hd & Hr).
    unfold ids in Hq. apply in_map_iff in Hq. destruct Hq as (mq & Eq & Hmq).
    apply in_map_iff. exists (entry_without_embedding mq). split; [exact Eq|].
    apply C. exists mq, e. cbn [entry_without_embedding entry_of_row id].
    rewrite Eq. repeat split; auto. tauto.
Qed.

Lemma getLastCaptureTime_fold (rows : list memories_row) (acc : option Z) :
  let f := fun (acc : option Z) (r : memories_row) =>
             Some (match acc with
                   | Some t => Z.max t (col_created_at r)
                   | None => col_created_at r
                   end) in
  match fold_left f rows acc with
  | None => rows = [] /\ acc = None
  | Some t =>
      (acc = Some t \/ exists r, In r rows /\ col_created_at r = t) /\
      (forall r, In r rows -> (col_created_at r <= t)%Z) /\
      (forall t0, acc = Some t0 -> (t0 <= t)%Z)
  end.
Proof.
  intros f. revert acc. induction rows as [|r rows IH]; intros acc.
  - cbn [fold_left]. destruct acc as [t|]; [|auto].
    split; [now left|]. split; [intros r []|]. intros t0 [= ->]. lia.
  - cbn [fold_left]. specialize (IH (f acc r)).
    destruct (fold_left f rows (f acc r)) as [t|].
    + destruct IH as (Hw & Hall & Hacc). specialize (Hacc _ eq_refl).
      split; [|split].
      * destruct Hw as [Hw|(r' & Hr' & E)];
          [|right; exists r'; split; [now right|assumption]].
        unfold f in Hw. injection Hw as Hw. destruct acc as [t0|].
        -- destruct (Z.max_spec t0 (col_created_at r)) as [[_ M]|[_ M]].
           ++ right. exists r. split; [now left|]. lia.
           ++ left. f_equal. lia.
        -- right. exists r. split; [now left|assumption].
      * intros r' [<-|Hr']; [|now apply Hall]. destruct acc; lia.
      * intros t0 ->. lia.
    + destruct IH as [_ D]. discriminate.
Qed.

(** X12. [getLastCaptureTime] is [null] exactly when no memory is stored;
    otherwise it is the created_at of some stored memory, and no stored
    memory has a later one. *)
Theorem getLastCaptureTime_is_the_latest (db : Database) :
  (getLastCaptureTime db = None <-> memories db = []) /\
  (forall t, getLastCaptureTime db = Some t ->
     (exists r, In r (memories db) /\ col_created_at r = t) /\
     (forall r, In r (memories db) -> (col_created_at r <= t)%Z)).
Proof.
  unfold getLastCaptureTime.
  pose proof (getLastCaptureTime_fold (memories db) None) as H. cbv zeta in H.
  destruct (fold_left _ (memories db) None) as [t|].
  - destruct H as (Hw & Hall & _). split.
    + split; [discriminate|]. intros E. destruct Hw as [Hw|(r & Hr & _)]; [discriminate|].
      rewrite E in Hr. destruct Hr.
    + intros t' [= <-]. split; [|assumption].
      destruct Hw as [Hw|Hw]; [discriminate|assumption].
  - destruct H as [E _]. split; [tauto|]. discriminate.
Qed.

End RelatedSpec.

(** ** embeddings.ts: one load at a time, and none after the model is there *)

Module SingleFlightSpec.

Import Js Embeddings Providers LazyInitSpec.

Lemma run_app (rev : revision) (evs evs' : list event) :
  run rev (evs ++ evs') = fold_left (step rev) evs' (run rev evs).
Proof. unfold run. apply fold_left_app. Qed.

Lemma is_loading_false (p : nat) (t : TransformersEmbeddings) :
  loading t = [] -> is_loading p t = false.
Proof. unfold is_loading. now intros ->. Qed.

(** With the extractor set, no event changes the object. *)
Lemma step_loaded (rev : revision) (t : TransformersEmbeddings) (ev : event) (ext : nat) :
  consistent t -> extractor t = Some ext -> step rev t ev = t.
Proof.
  intros (Hl & _) X.
  assert (L : loading t = []).
  { destruct (loading t) as [|q l] eqn:E; [reflexivity|].
    destruct (Hl q) as (_ & N & _); [now left | congruence]. }
  destruct ev as [|p e|p err]; cbn [step].
  - unfold ensureInitialized. now rewrite X.
  - unfold pipeline_resolves. now rewrite (is_loading_false p t L).
  - unfold pipeline_rejects. now rewrite (is_loading_false p t L).
Qed.

(** X13. Once the model is loaded the object is final, in both revisions:
    whatever calls and settlements follow, the object stays as it is, so
    the extractor is never replaced, [pipeline] is never called again,
    and every later [ensureInitialized] returns at once. The model has
    then been loaded exactly once and no load is in flight. *)
Theorem loaded_model_is_final (rev : revision) (evs : list event) (ext : nat) :
  extractor (run rev evs) = Some ext ->
  (forall evs', run rev (evs ++ evs') = run rev evs) /\
  (forall evs', ensureInitialized (run rev (evs ++ evs')) = (Ready, run rev evs)) /\
  loads_completed (run rev evs) = 1%nat /\
  loading (run rev evs) = [].
Proof.
  intros X.
  assert (F : forall evs', run rev (evs ++ evs') = run rev evs).
  { intros evs'. rewrite run_app. induction evs' as [|ev evs' IH]; [reflexivity|].
    cbn [fold_left]. rewrite (step_loaded rev _ ev ext (consistent_run rev evs) X).
    exact IH. }
  split; [exact F|]. split; [|split].
  - intros evs'. rewrite F. unfold ensureInitialized. now rewrite X.
  - destruct (consistent_run rev evs) as (_ & _ & C). now rewrite C, X.
  - destruct (consistent_run rev evs) as (Hl & _).
    destruct (loading (run rev evs)) as [|q l] eqn:E; [reflexivity|].
    destruct (Hl q) as (_ & N & _); [now left | congruence].
Qed.

Lemma loaded_model_is_final_witness :
  extractor (run with_reset [Call; Call; PipelineResolves 0 7]) = Some 7%nat /\
  run with_reset ([Call; Call; PipelineResolves 0 7] ++
                  [Call; PipelineRejects 0 (Error "late"); PipelineResolves 0 8; Call]) =
    run with_reset [Call; Call; PipelineResolves 0 7] /\
  pipeline_calls (run with_reset [Call; Call; PipelineResolves 0 7]) = 1%nat.
Proof.
  split; [reflexivity|]. split; [|reflexivity].
  apply (loaded_model_is_final with_reset [Call; Call; PipelineResolves 0 7] 7 eq_refl).
Defined.

Lemma failures_settle (p : nat) (s : promise_state) (ps : list promise_state) :
  (p < List.length ps)%nat -> nth p ps Pending = Pending ->
  List.length (filter is_rejected (settle p s ps)) =
  (List.length (filter is_rejected ps) + (if is_rejected s then 1 else 0))%nat.
Proof.
  revert p. induction ps as [|q ps IH]; intros [|p] L N; cbn [List.length] in L; try lia.
  - cbn [nth] in N. subst q. cbn [settle filter is_rejected].
    destruct (is_rejected s); cbn [List.length]; lia.
  - cbn [nth] in N. cbn [settle filter]. destruct (is_rejected q); cbn [List.length].
    + rewrite (IH p) by (lia || assumption). lia.
    + apply IH; [lia | assumption].
Qed.

Lemma calls_accounted_step (rev : revision) (t : TransformersEmbeddings) (ev : event) :
  consistent t -> calls_accounted rev t -> calls_accounted rev (step rev t ev).
Proof.
  intros (Hl & _) A. unfold calls_accounted in *.
  destruct ev as [|p e|p err]; cbn [step].
  - unfold ensureInitialized. destruct (extractor t); [exact A|].
    destruct (initPromise t) as [q|] eqn:I; cbn [snd]; [now rewrite I|].
    cbn [pipeline_calls initPromise]. unfold failures in *. cbn [promises].
    rewrite filter_app, length_app. cbn [filter is_rejected List.length].
    destruct rev; lia.
  - unfold pipeline_resolves. destruct (is_loading p t) eqn:Lp; [|exact A].
    apply is_loading_spec in Lp. destruct (Hl p Lp) as (I & _ & P & B).
    cbn [pipeline_calls initPromise]. unfold failures in *. cbn [promises].
    rewrite (failures_settle p Fulfilled _ B P). cbn [is_rejected].
    destruct rev; lia.
  - unfold pipeline_rejects. destruct (is_loading p t) eqn:Lp; [|exact A].
    apply is_loading_spec in Lp. destruct (Hl p Lp) as (I & _ & P & B).
    cbn [pipeline_calls initPromise]. unfold failures in *. cbn [promises].
    rewrite (failures_settle p (Rejected err) _ B P). cbn [is_rejected].
    rewrite I in A. destruct rev; [rewrite I|]; lia.
Qed.

Lemma calls_accounted_run (rev : revision) (evs : list event) :
  calls_accounted rev (run rev evs).
Proof.
  unfold run.
  assert (G : forall t, consistent t -> calls_accounted rev t ->
                calls_accounted rev (fold_left (step rev) evs t)).
  { induction evs as [|ev evs IH]; intros t C A; [exact A|].
    cbn [fold_left]. apply IH; [now apply consistent_step | now apply calls_accounted_step]. }
  apply G; [apply consistent_new|]. unfold calls_accounted. destruct rev; reflexivity.
Qed.

(** X14. [pipeline] is called again only after a load has failed. In the
    later revision the calls of [pipeline] are as many as the loads that
    have failed, and one more when [initPromise] is set: a new load
    starts only when every earlier one has been rejected. In the earlier
    revision [pipeline] is called at most once in the life of the object,
    whatever fails. In both, one promise is made for each call of
    [pipeline]. *)
Theorem pipeline_called_again_only_after_failure (evs : list event) :
  pipeline_calls (run with_reset evs) =
    (failures (run with_reset evs) +
     (match initPromise (run with_reset evs) with Some _ => 1 | None => 0 end))%nat /\
  (pipeline_calls (run without_reset evs) <= 1)%nat /\
  (forall rev, List.length (promises (run rev evs)) = pipeline_calls (run rev evs)).
Proof.
  split; [exact (calls_accounted_run with_reset evs)|]. split.
  - pose proof (calls_accounted_run without_reset evs) as A. unfold calls_accounted in A.
    destruct (initPromise (run without_reset evs)); lia.
  - intros rev. unfold run.
    assert (G : forall t, List.length (promises t) = pipeline_calls t ->
              List.length (promises (fold_left (step rev) evs t)) =
              pipeline_calls (fold_left (step rev) evs t)).
    { induction evs as [|ev evs IH]; intros t E; [exact E|].
      cbn [fold_left]. apply IH. destruct ev as [|p e|p err]; cbn [step].
      - unfold ensureInitialized. destruct (extractor t); [exact E|].
        destruct (initPromise t); cbn [snd]; [exact E|].
        cbn [promises pipeline_calls]. rewrite length_app. cbn [List.length]. lia.
      - unfold pipeline_resolves. destruct (is_loading p t); [|exact E].
        cbn [promises pipeline_calls]. now rewrite settle_length.
      - unfold pipeline_rejects. destruct (is_loading p t); [|exact E].
        cbn [promises pipeline_calls]. now rewrite settle_length. }
    now apply G.
Qed.

End SingleFlightSpec.

(** ** embeddings.ts: the length of what the providers return *)

Module ProvidersSpec.

Import Js Embeddings Providers DualEmbeddingsSpec.
Local Open Scope string_scope.
Local Open Scope list_scope.

Lemma OpenAIEmbeddings_embed_later (pkg : OpenAI_package) (apiKey : string)
    (model : option string) (dimension : nat) (text : string) (vec : list float) :
  OpenAIEmbeddings_embed with_reset pkg apiKey model dimension text = Returned vec ->
  exists answer,
    embeddings_create pkg apiKey (nullish model default_OpenAI_model) (Some dimension) text =
      Returned answer /\
    vec = reconcile dimension answer.
Proof.
  unfold OpenAIEmbeddings_embed. cbv zeta.
  destruct (import_openai pkg); [|discriminate].
  destruct (embeddings_create pkg apiKey _ (Some dimension) text) as [answer|];
    [|discriminate].
  intros H. exists answer. split; [reflexivity|]. unfold reconcile.
  destruct (List.length answer =? dimension)%nat eqn:E; cbn [negb] in H.
  - injection H as <-. apply Nat.eqb_eq in E.
    destruct (List.length answer <? dimension)%nat eqn:L;
      [apply Nat.ltb_lt in L; lia|].
    unfold slice0. rewrite firstn_all2 by lia. reflexivity.
  - destruct (List.length answer <? dimension)%nat; now injection H as <-.
Qed.

Lemma TransformersEmbeddings_embed_length
    (load : string -> outcome (string -> outcome (list float)))
    (m text : string) (vec : list float) :
  TransformersEmbeddings_embed_with load m text = Returned vec ->
  List.length vec = 384%nat.
Proof.
  unfold TransformersEmbeddings_embed_with.
  destruct (load m) as [extractor|]; [|discriminate].
  destruct (extractor text) as [embedding|]; [|discriminate].
  destruct (List.length embedding =? Transformers_dimension)%nat eqn:E; cbn [negb];
    [|discriminate].
  intros [= <-]. now apply Nat.eqb_eq in E.
Qed.

(** X15. What each provider class returns. The later [OpenAIEmbeddings]
    returns the answer of the service brought to its dimension, so a
    vector of exactly that length, with the numbers of the answer below
    that length and zeros past the answer's end; the earlier one returns
    the answer as it is. [TransformersEmbeddings] returns only vectors of
    384 numbers, and throws on any other length.
    [OllamaEmbeddings] returns the answer as it is, and takes the length
    of the answer as its own dimension; a failed call leaves its
    dimension as it was. *)
Theorem provider_classes_and_dimension (W : Outside) (text : string) :
  (forall apiKey m dim vec,
     OpenAIEmbeddings_embed with_reset (openai W) apiKey m dim text = Returned vec ->
     List.length vec = dim /\
     exists answer,
       embeddings_create (openai W) apiKey (nullish m default_OpenAI_model) (Some dim) text =
         Returned answer /\
       vec = firstn dim answer ++ repeat 0%float (dim - List.length answer)) /\
  (forall apiKey m dim,
     OpenAIEmbeddings_embed without_reset (openai W) apiKey m dim text =
     embeddings_create (openai W) apiKey (nullish m default_OpenAI_model) None text) /\
  (forall m vec,
     TransformersEmbeddings_embed_with (pipeline W) m text = Returned vec ->
     List.length vec = 384%nat) /\
  (forall endpoint m dim,
     match OllamaEmbeddings_embed (fetch W) endpoint m dim text with
     | (Returned vec, dim') =>
         fetch W (endpoint ++ "/api/embeddings") m text = Returned (Ok (Returned vec)) /\
         dim' = List.length vec
     | (Thrown _, dim') => dim' = dim
     end).
Proof.
  split; [|split; [|split]].
  - intros apiKey m dim vec H. apply OpenAIEmbeddings_embed_later in H.
    destruct H as (answer & E & ->). split; [apply reconcile_length|].
    exists answer. split; [exact E | apply reconcile_shape].
  - reflexivity.
  - intros m vec. apply TransformersEmbeddings_embed_length.
  - intros endpoint m dim. unfold OllamaEmbeddings_embed.
    destruct (fetch W (endpoint ++ "/api/embeddings") m text) as [[status st|[vec|err]]|err];
      try reflexivity.
    split; [reflexivity|].
    destruct (List.length vec =? dim)%nat eqn:E; cbn [negb]; [|reflexivity].
    apply Nat.eqb_eq in E. now symmetry.
Qed.

Lemma embed_constructed (rev : revision) (B : Backends) (key : option string)
    (opts : DualOpts) (text : string) (vec : list float) (logged : list string) :
  let d := new_DualEmbeddings rev B key opts in
  embed d text = (Returned vec, logged) ->
  (exists p, primary d = Some p /\ p text = Returned vec) \/
  (exists f answer, fallback d = Some f /\ f text = Returned answer /\
     vec = reconcile (_dimension d) answer) \/
  TransformersEmbeddings_embed B model text = Returned vec.
Proof.
  intros d. unfold embed, try_fallback, try_default.
  assert (D : default d = Some (TransformersEmbeddings_embed B model)) by reflexivity.
  rewrite D.
  destruct (primary d) as [p|].
  - destruct (p text) as [v|err] eqn:P.
    + intros [= <- _]. left. eauto.
    + destruct (fallback d) as [f|].
      * destruct (f text) as [a|err'] eqn:F.
        -- intros [= <- _]. right. left. eauto.
        -- destruct (TransformersEmbeddings_embed B model text); [|discriminate].
           intros [= <- _]. now right; right.
      * destruct (TransformersEmbeddings_embed B model text); [|discriminate].
        intros [= <- _]. now right; right.
  - destruct (fallback d) as [f|].
    + destruct (f text) as [a|err'] eqn:F.
      * intros [= <- _]. right. left. eauto.
      * destruct (TransformersEmbeddings_embed B model text); [|discriminate].
        intros [= <- _]. now right; right.
    + destruct (TransformersEmbeddings_embed B model text); [|discriminate].
      intros [= <- _]. now right; right.
Qed.

(** X16. In the later revision, whatever the services answer, a vector
    that [DualEmbeddings.embed] returns has the configured dimension or
    384 numbers; with the dimension left out, or set to 384 as
    [MemoryProvider] sets it, it has 384 numbers. *)
Theorem embed_returns_the_dimension (W : Outside) (key : option string) (opts : DualOpts)
    (text : string) (vec : list float) (logged : list string) :
  embed (new_DualEmbeddings with_reset (classes with_reset W) key opts) text =
    (Returned vec, logged) ->
  (List.length vec = nullish (dimension opts) 384%nat \/ List.length vec = 384%nat) /\
  (nullish (dimension opts) 384%nat = 384%nat -> List.length vec = 384%nat).
Proof.
  intros H.
  assert (L : List.length vec = nullish (dimension opts) 384%nat \/
              List.length vec = 384%nat).
  { apply embed_constructed in H. cbv zeta in H.
    destruct H as [(p & P & E)|[(f & a & F & E & ->)|E]].
    - left. unfold new_DualEmbeddings in P. cbn [primary] in P.
      destruct (match nonempty (openaiKey opts) with
                | Some k => Some k
                | None => nonempty key
                end) as [k|]; [|discriminate].
      injection P as <-. cbn [classes OpenAIEmbeddings] in E.
      apply OpenAIEmbeddings_embed_later in E. destruct E as (answer & _ & ->).
      apply reconcile_length.
    - left. apply reconcile_length.
    - right. cbn [classes TransformersEmbeddings_embed] in E.
      now apply TransformersEmbeddings_embed_length in E. }
  split; [exact L|]. intros D. rewrite D in L. tauto.
Qed.

Lemma embed_returns_the_dimension_witness :
  let opts := {| openaiKey := Some "sk-test"; openaiModel := None;
                 ollamaEndpoint := None; ollamaModel := None; dimension := Some 5%nat |} in
  (exists vec,
     embed (new_DualEmbeddings with_reset (classes with_reset example_outside) None opts)
           "tabs" = (Returned vec, []) /\
     (List.length vec = 5%nat \/ List.length vec = 384%nat) /\
     vec = [1; 2; 3; 0; 0]%float) /\
  embed (new_DualEmbeddings without_reset (classes without_reset example_outside) None opts)
        "tabs" =
    (Returned [1; 2; 3]%float, []).
Proof.
  intros opts. split; [|reflexivity].
  destruct (embed (new_DualEmbeddings with_reset (classes with_reset example_outside)
                     None opts) "tabs") as [[vec|err] logged] eqn:E;
    [|vm_compute in E; discriminate].
  destruct (embed_returns_the_dimension example_outside None opts "tabs" vec logged E)
    as [L _].
  vm_compute in E. injection E as <- <-.
  exists [1; 2; 3; 0; 0]%float. split; [reflexivity|]. split; [exact L | reflexivity].
Defined.

(** X17. The chain that the constructor builds, in both revisions, never
    ends on a missing provider: when [embed] throws, the local model has
    failed, and the error is the one that quotes the local model's. With
    no key and without both an endpoint and a model for the fallback,
    [embed] is the local model's [embed] alone, and logs nothing. In the
    earlier revision a key leaves the fallback out, so that a failure of
    the remote provider goes to the local model at once. *)
Theorem constructed_chain_ends_on_the_local_model (rev : revision) (B : Backends)
    (key : option string) (opts : DualOpts) (text : string) :
  let d := new_DualEmbeddings rev B key opts in
  (forall e logged, embed d text = (Thrown e, logged) ->
     exists err, TransformersEmbeddings_embed B model text = Thrown err /\
       e = Error ("All embedding providers failed. Last error: " ++ String_of err)) /\
  (nonempty (openaiKey opts) = None -> nonempty key = None ->
   (nonempty (ollamaEndpoint opts) = None \/ nonempty (ollamaModel opts) = None) ->
   primary d = None /\ fallback d = None /\
   match TransformersEmbeddings_embed B model text with
   | Returned vec => embed d text = (Returned vec, [])
   | Thrown err =>
       embed d text =
       (Thrown (Error ("All embedding providers failed. Last error: " ++ String_of err)), [])
   end) /\
  (rev = without_reset -> primary d <> None -> fallback d = None).
Proof.
  intros d. split; [|split].
  - intros e logged. unfold embed, try_fallback, try_default.
    assert (D : default d = Some (TransformersEmbeddings_embed B model)) by reflexivity.
    rewrite D.
    destruct (primary d) as [p|]; [destruct (p text); [discriminate|]|];
      (destruct (fallback d) as [f|]; [destruct (f text); [discriminate|]|]);
      (destruct (TransformersEmbeddings_embed B model text) as [v|err]; [discriminate|]);
      intros [= <- _]; eauto.
  - intros K1 K2 O.
    assert (P : primary d = None).
    { unfold d, new_DualEmbeddings. cbn [primary]. now rewrite K1, K2. }
    assert (F : fallback d = None).
    { unfold d, new_DualEmbeddings. cbn [fallback]. rewrite K1, K2.
      destruct O as [O|O]; rewrite O.
      - now destruct rev.
      - destruct (nonempty (ollamaEndpoint opts)); now destruct rev. }
    split; [exact P|]. split; [exact F|].
    unfold embed, try_fallback, try_default. rewrite P, F.
    assert (D : default d = Some (TransformersEmbeddings_embed B model)) by reflexivity.
    rewrite D. now destruct (TransformersEmbeddings_embed B model text).
  - intros -> P. unfold d, new_DualEmbeddings in *. cbn [primary fallback] in *.
    destruct (match nonempty (openaiKey opts) with
              | Some k => Some k
              | None => nonempty key
              end); [reflexivity | contradiction].
Qed.

End ProvidersSpec.

(** ** memory-db.ts: cosineSimilarity and decodeEmbedding, further *)

Module VectorSpec.

Import Number NumberFacts Js MemoryDB BufferFacts BlobSpec SearchSpec.
Local Open Scope float_scope.

Lemma SFmul_comm (prec emax : Z) (x y : SpecFloat.spec_float) :
  SpecFloat.SFmul prec emax x y = SpecFloat.SFmul prec emax y x.
Proof.
  destruct x as [sx|sx| |sx mx ex], y as [sy|sy| |sy my ey]; cbn;
    rewrite ?(xorb_comm sx sy); try reflexivity.
  now rewrite (Pos.mul_comm mx my), (Z.add_comm ex ey).
Qed.

Lemma mul_comm (x y : float) : x * y = y * x.
Proof.
  apply Prim2SF_inj. rewrite !mul_spec. apply SFmul_comm.
Qed.

Lemma cosine_loop_swap (a b : list float) (dot normA normB : float) :
  cosine_loop b a dot normB normA =
  let '(d, na, nb) := cosine_loop a b dot normA normB in (d, nb, na).
Proof.
  revert b dot normA normB. induction a as [|x a IH]; intros [|y b] dot normA normB;
    try reflexivity.
  cbn [cosine_loop]. rewrite (mul_comm y x). apply IH.
Qed.

(** X18. [cosineSimilarity] does not depend on the order of its two
    arguments, and an empty vector scores [0] against every vector. So
    the score of a stored memory against a query is the score of the
    query against the memory, and a memory stored with an empty embedding
    is returned only by searches whose minimum score is at most [0]. *)
Theorem cosineSimilarity_is_symmetric (a b : list float) :
  cosineSimilarity a b = cosineSimilarity b a /\
  cosineSimilarity [] b = 0 /\
  cosineSimilarity a [] = 0.
Proof.
  split; [|split].
  - unfold cosineSimilarity. rewrite (cosine_loop_swap a b 0 0 0).
    destruct (cosine_loop a b 0 0 0) as [[d na] nb].
    now rewrite (mul_comm (sqrt nb) (sqrt na)).
  - reflexivity.
  - unfold cosineSimilarity. now destruct a.
Qed.

Lemma Float64Array_from_length (blob : list byte) (n : nat) :
  (List.length blob <= n)%nat ->
  match Float64Array_from blob with
  | Some vec => List.length blob = (8 * List.length vec)%nat
  | None => (List.length blob mod 8 <> 0)%nat
  end.
Proof.
  revert blob. induction n as [|n IH]; intros blob L.
  - destruct blob; [cbn; lia | cbn in L; lia].
  - destruct blob as [|b0 [|b1 [|b2 [|b3 [|b4 [|b5 [|b6 [|b7 rest]]]]]]]];
      try (cbn; lia); try (cbn; discriminate).
    cbn [Float64Array_from]. cbn [List.length] in L.
    specialize (IH rest ltac:(lia)).
    destruct (Float64Array_from rest) as [vec|]; cbn [option_map List.length].
    + lia.
    + intros M. apply IH. cbn [List.length] in M.
      replace (S (S (S (S (S (S (S (S (List.length rest)))))))))
        with (List.length rest + 1 * 8)%nat in M by lia.
      now rewrite Nat.Div0.mod_add in M.
Qed.

(** X19. [decodeEmbedding] returns exactly when the length of the blob is
    a multiple of 8, and then one number for every 8 bytes; it throws a
    [RangeError] otherwise. A memory whose blob has another length is not
    a candidate of any search, and does not make the search fail. *)
Theorem decodeEmbedding_needs_whole_numbers (blob : list byte) :
  ((exists vec, decodeEmbedding blob = Returned vec) <->
   (List.length blob mod 8 = 0)%nat) /\
  (forall vec, decodeEmbedding blob = Returned vec ->
     List.length blob = (8 * List.length vec)%nat) /\
  ((List.length blob mod 8 <> 0)%nat ->
   (exists m, decodeEmbedding blob = Thrown (RangeError m)) /\
   forall q minScore row, col_embedding row = Some blob ->
     scan_row q minScore row = None).
Proof.
  pose proof (Float64Array_from_length blob (List.length blob) (le_n _)) as H.
  unfold decodeEmbedding.
  destruct (Float64Array_from blob) as [vec|] eqn:E.
  - assert (M : (List.length blob mod 8 = 0)%nat).
    { rewrite H, Nat.mul_comm. apply Nat.Div0.mod_mul. }
    split; [|split].
    + split; [intros _; exact M | intros _; eauto].
    + intros v [= <-]. exact H.
    + intros N. contradiction.
  - split; [|split].
    + split; [intros [v D]; discriminate | intros M; contradiction].
    + intros v D. discriminate.
    + intros _. split; [eauto|].
      intros q minScore row R. unfold scan_row, decodeEmbedding. now rewrite R, E.
Qed.

End VectorSpec.

(** ** memory-db.ts: what a peer reads, and what storeRaw makes of it *)

Module SyncSpec.

Import Js MemoryDB MemoryDBRest SearchSpec StoreSpec DeleteSpec KeysSpec RelatedSpec.
Local Open Scope string_scope.
Local Open Scope list_scope.

Lemma insert_by_created_at_perm (r : memories_row) (l : list memories_row) :
  Permutation (insert_by_created_at r l) (r :: l).
Proof.
  induction l as [|r' l IH]; [reflexivity|]. cbn [insert_by_created_at].
  destruct (col_created_at r <=? col_created_at r')%Z; [reflexivity|].
  rewrite IH. apply perm_swap.
Qed.

Lemma ORDER_BY_created_at_perm (rows : list memories_row) :
  Permutation (ORDER_BY_created_at rows) rows.
Proof.
  induction rows as [|r rows IH]; [reflexivity|]. cbn [ORDER_BY_created_at fold_right].
  fold (ORDER_BY_created_at rows). rewrite insert_by_created_at_perm. now constructor.
Qed.

Lemma insert_by_created_at_sorted (r : memories_row) (l : list memories_row) :
  StronglySorted by_created_at l -> StronglySorted by_created_at (insert_by_created_at r l).
Proof.
  induction 1 as [|r' l S IH F]; cbn [insert_by_created_at].
  - repeat constructor.
  - destruct (col_created_at r <=? col_created_at r')%Z eqn:E.
    + apply Z.leb_le in E. constructor; [now constructor|].
      constructor; [exact E|]. eapply Forall_impl; [|exact F].
      unfold by_created_at. intros x Hx. lia.
    + apply Z.leb_gt in E. constructor; [exact IH|].
      apply Forall_forall. intros x Hx.
      apply (Permutation_in _ (insert_by_created_at_perm r l)) in Hx.
      destruct Hx as [<-|Hx]; [unfold by_created_at; lia|].
      rewrite Forall_forall in F. now apply F.
Qed.

Lemma ORDER_BY_created_at_sorted (rows : list memories_row) :
  StronglySorted by_created_at (ORDER_BY_created_at rows).
Proof.
  induction rows as [|r rows IH]; [constructor|].
  cbn [ORDER_BY_created_at fold_right]. now apply insert_by_created_at_sorted.
Qed.

Lemma StronglySorted_map {A B : Type} (f : A -> B) (R : B -> B -> Prop) (l : list A) :
  StronglySorted (fun x y => R (f x) (f y)) l -> StronglySorted R (map f l).
Proof.
  induction 1 as [|x l S IH F]; cbn [map]; constructor; [assumption|].
  apply Forall_forall. intros y Hy. apply in_map_iff in Hy. destruct Hy as (z & <- & Hz).
  rewrite Forall_forall in F. now apply F.
Qed.

(** X20. [getMemoriesSince] returns the memories created after the given
    time, one entry for each such row, in ascending order of created_at.
    Nothing is newer than what [getLastCaptureTime] reports: the memories
    since that time are none. *)
Theorem getMemoriesSince_lists_the_newer (timestamp : Z) (db : Database) :
  StronglySorted (fun e1 e2 => (raw_created_at e1 <= raw_created_at e2)%Z)
                 (getMemoriesSince timestamp db) /\
  Permutation (getMemoriesSince timestamp db)
              (map raw_of_row
                   (filter (fun r => (timestamp <? col_created_at r)%Z) (memories db))) /\
  (forall e, In e (getMemoriesSince timestamp db) <->
     exists row, In row (memories db) /\ (timestamp < col_created_at row)%Z /\
       e = raw_of_row row) /\
  (forall t, getLastCaptureTime db = Some t -> (t <= timestamp)%Z ->
     getMemoriesSince timestamp db = []).
Proof.
  unfold getMemoriesSince.
  set (newer := filter (fun r => (timestamp <? col_created_at r)%Z) (memories db)).
  assert (P : Permutation (map raw_of_row (ORDER_BY_created_at newer))
                          (map raw_of_row newer))
    by apply Permutation_map, ORDER_BY_created_at_perm.
  split; [|split; [exact P|split]].
  - apply StronglySorted_map. apply ORDER_BY_created_at_sorted.
  - intros e. split.
    + intros He. apply (Permutation_in _ P) in He. apply in_map_iff in He.
      destruct He as (row & <- & Hr). apply filter_In in Hr. destruct Hr as [Hr T].
      apply Z.ltb_lt in T. eauto.
    + intros (row & Hr & T & ->). apply (Permutation_in _ (Permutation_sym P)).
      apply in_map, filter_In. split; [assumption|]. now apply Z.ltb_lt.
  - intros t L T.
    assert (N : newer = []).
    { apply filter_none. intros r Hr. apply Z.ltb_ge.
      unfold getLastCaptureTime in L.
      pose proof (getLastCaptureTime_fold (memories db) None) as H. cbv zeta in H.
      rewrite L in H. destruct H as (_ & Hall & _). specialize (Hall r Hr). lia. }
    now rewrite N.
Qed.

Lemma filter_by_id_single (row : memories_row) (rows : list memories_row) :
  NoDup (map col_id rows) -> In row rows ->
  filter (fun r => String.eqb (col_id r) (col_id row)) rows = [row].
Proof.
  induction rows as [|r rows IH]; intros N H; [destruct H|].
  cbn [map] in N. inversion N as [|? ? Hr N']; subst. cbn [filter].
  destruct H as [->|H].
  - rewrite String.eqb_refl. f_equal. apply filter_none. intros x Hx.
    apply String.eqb_neq. intros E. apply Hr. rewrite <- E. now apply in_map.
  - assert (D : String.eqb (col_id r) (col_id row) = false).
    { apply String.eqb_neq. intros E. apply Hr. rewrite E. now apply in_map. }
    rewrite D. now apply IH.
Qed.

Lemma storeRaw_state (e : RawEntry) (db : Database) :
  storeRaw e db =
  match find (fun r => String.eqb (col_id r) (raw_id e)) (memories db) with
  | Some _ => (Returned true, snd (UPDATE_memories_by_id (raw_id e) (raw_update e) db))
  | None =>
      match find (fun r => String.eqb (col_content r) (raw_content e)) (memories db) with
      | Some _ => (Returned false, db)
      | None =>
          (Returned true,
           {| memories := memories db ++ [raw_row e]; memory_edges := memory_edges db |})
      end
  end.
Proof.
  unfold storeRaw, bind, all, run, ret.
  destruct (find (fun r => String.eqb (col_id r) (raw_id e)) (memories db)) eqn:F;
    [reflexivity|].
  destruct (find (fun r => String.eqb (col_content r) (raw_content e)) (memories db));
    [reflexivity|].
  unfold INSERT_memory. cbn [col_id raw_row].
  now rewrite (RawStoreSpec.existsb_find_col_id _ _ F).
Qed.

(** X21. What [storeRaw] has written, [getMemoriesByIds] reads back: when
    [storeRaw] returns [true] on a store where no two memories share an
    id, [getMemoriesByIds] of the entry's id returns that entry alone,
    with the defaults for the fields it lacked. So an entry that one
    store hands out through [getMemoriesSince] or [getMemoriesByIds]
    arrives in another store unchanged. [getMemoriesByIds] of no ids
    returns no entry, and of more ids than the engine binds throws. *)
Theorem storeRaw_then_getMemoriesByIds (max : nat) (e : RawEntry) (db : Database) :
  primary_key db -> (1 <= max)%nat ->
  fst (storeRaw e db) = Returned true ->
  getMemoriesByIds max [raw_id e] (snd (storeRaw e db)) = Returned [with_defaults e] /\
  (forall row, with_defaults (raw_of_row row) = raw_of_row row) /\
  getMemoriesByIds max [] (snd (storeRaw e db)) = Returned [] /\
  (forall ids, (max < List.length ids)%nat ->
     exists err, getMemoriesByIds max ids (snd (storeRaw e db)) = Thrown err).
Proof.
  intros PK M R.
  assert (G : forall row rows, NoDup (map col_id rows) -> In row rows ->
            col_id row = raw_id e -> raw_of_row row = with_defaults e ->
            map raw_of_row
                (filter (fun r => existsb (String.eqb (col_id r)) [raw_id e]) rows) =
            [with_defaults e]).
  { intros row rows N H I W.
    rewrite (filter_ext _ (fun r => String.eqb (col_id r) (col_id row))).
    - rewrite (filter_by_id_single row rows N H). cbn [map]. now rewrite W.
    - intros r. cbn [existsb]. now rewrite orb_false_r, I. }
  split; [|split; [|split]].
  - unfold getMemoriesByIds. cbn [List.length].
    assert (L : (max <? 1)%nat = false) by (apply Nat.ltb_ge; lia). rewrite L. f_equal.
    rewrite storeRaw_state in *.
    destruct (find (fun r => String.eqb (col_id r) (raw_id e)) (memories db)) as [old|] eqn:F.
    + cbn [snd]. unfold UPDATE_memories_by_id. cbn [snd memories].
      apply find_some in F. destruct F as [Hold Hid]. apply String.eqb_eq in Hid.
      apply (G (raw_update e old)).
      * rewrite map_map.
        rewrite (map_ext _ col_id); [exact PK|].
        intros r. now destruct (String.eqb (col_id r) (raw_id e)).
      * apply in_map_iff. exists old. split; [|assumption].
        apply String.eqb_eq in Hid. now rewrite Hid.
      * exact Hid.
      * unfold raw_of_row, with_defaults. cbn. now rewrite Hid.
    + destruct (find (fun r => String.eqb (col_content r) (raw_content e)) (memories db)).
      * cbn [fst] in R. discriminate.
      * cbn [snd memories]. apply (G (raw_row e)).
        -- rewrite map_app. cbn [map]. apply NoDup_app; [exact PK | repeat constructor; intros [] |].
           intros i Hi [<-|[]]. now apply (ReachSpec.find_col_id_None _ _ F).
        -- apply in_or_app. right. now left.
        -- reflexivity.
        -- reflexivity.
  - reflexivity.
  - reflexivity.
  - intros ids L. unfold getMemoriesByIds. destruct ids as [|i ids]; [cbn in L; lia|].
    apply Nat.ltb_lt in L. rewrite L. eauto.
Qed.

Lemma storeRaw_then_getMemoriesByIds_witness :
  let e := {| raw_id := "peer-7:43"; raw_content := "Prefer early returns";
              raw_created_at := 1700000000500; raw_source := None;
              raw_tags := Some ["style"]; raw_category := None |} in
  getMemoriesByIds 999 ["peer-7:43"] (snd (storeRaw e synced_db)) =
    Returned [{| raw_id := "peer-7:43"; raw_content := "Prefer early returns";
                 raw_created_at := 1700000000500; raw_source := Some "";
                 raw_tags := Some ["style"]; raw_category := Some "other" |}].
Proof.
  intros e.
  assert (PK : primary_key synced_db).
  { unfold primary_key. cbn. repeat constructor; cbn; intuition discriminate. }
  exact (proj1 (storeRaw_then_getMemoriesByIds 999 e synced_db PK ltac:(lia) eq_refl)).
Defined.

End SyncSpec.

(** ** embeddings.ts: after a failed load, by revision *)

Module RecoverySpec.

Import Js Embeddings Providers LazyInitSpec SingleFlightSpec.

Lemma settle_nth_other (p q : nat) (s : promise_state) (ps : list promise_state) :
  p <> q -> nth q (settle p s ps) Pending = nth q ps Pending.
Proof.
  revert p q. induction ps as [|x ps IH]; intros [|p] [|q] N; cbn; try reflexivity; try lia.
  apply IH. lia.
Qed.

(** The object after the load in flight has failed. *)
Lemma pipeline_rejects_state (rev : revision) (evs : list event) (p : nat) (err : JsError) :
  In p (loading (run rev evs)) ->
  pipeline_rejects rev p err (run rev evs) =
  {| extractor := None;
     initPromise := match rev with with_reset => None | without_reset => Some p end;
     promises := settle p (Rejected err) (promises (run rev evs));
     loading := [];
     pipeline_calls := pipeline_calls (run rev evs);
     loads_completed := 0;
     log := log (run rev evs) |} /\
  (p < List.length (promises (run rev evs)))%nat.
Proof.
  intros Lp. destruct (consistent_run rev evs) as (Hl & Hn & Hc).
  destruct (Hl p Lp) as (I & X & P & B). split; [|exact B].
  unfold pipeline_rejects.
  rewrite (proj2 (is_loading_spec p _) Lp), (stop_loading_nil p _ Hn Lp), X, I, Hc, X.
  reflexivity.
Qed.

(** X22. The later revision recovers from a failed load. When the load in
    flight fails, the next call of [ensureInitialized] starts a new load
    and is handed its promise; when that load resolves, the extractor is
    set, the new promise is fulfilled while the promise of the failed load
    stays rejected, the model has been loaded once, with one more call of
    [pipeline] than before the failure, and [ensureInitialized] returns
    at once from then on. *)
Theorem later_revision_recovers (evs : list event) (p ext : nat) (err : JsError) :
  In p (loading (run with_reset evs)) ->
  let p' := List.length (promises (run with_reset evs)) in
  let failed := run with_reset (evs ++ [PipelineRejects p err]) in
  let retried := run with_reset (evs ++ [PipelineRejects p err; Call]) in
  let recovered :=
    run with_reset (evs ++ [PipelineRejects p err; Call; PipelineResolves p' ext]) in
  ensureInitialized failed = (Awaits p', retried) /\
  loading retried = [p'] /\
  extractor recovered = Some ext /\
  promise recovered p' = Fulfilled /\
  promise recovered p = Rejected err /\
  loads_completed recovered = 1%nat /\
  pipeline_calls recovered = S (pipeline_calls (run with_reset evs)) /\
  ensureInitialized recovered = (Ready, recovered).
Proof.
  intros Lp p' failed retried recovered.
  destruct (pipeline_rejects_state with_reset evs p err Lp) as [F B].
  assert (Ef : failed = pipeline_rejects with_reset p err (run with_reset evs)).
  { unfold failed. rewrite run_app. reflexivity. }
  assert (Er : retried = snd (ensureInitialized failed)).
  { unfold retried, failed. rewrite !run_app. reflexivity. }
  assert (Ec : recovered = pipeline_resolves p' ext retried).
  { unfold recovered, retried. rewrite !run_app. reflexivity. }
  rewrite F in Ef.
  assert (R : retried =
    {| extractor := None; initPromise := Some p';
       promises := settle p (Rejected err) (promises (run with_reset evs)) ++ [Pending];
       loading := [p'];
       pipeline_calls := S (pipeline_calls (run with_reset evs));
       loads_completed := 0;
       log := log (run with_reset evs) ++
              ["Loading Transformers.js model: " ++ model ++ "..."]%string |}).
  { rewrite Er, Ef. unfold ensureInitialized. cbn. now rewrite settle_length. }
  assert (C : recovered =
    {| extractor := Some ext; initPromise := Some p';
       promises := settle p' Fulfilled
                     (settle p (Rejected err) (promises (run with_reset evs)) ++ [Pending]);
       loading := [];
       pipeline_calls := S (pipeline_calls (run with_reset evs));
       loads_completed := 1;
       log := (log (run with_reset evs) ++
               ["Loading Transformers.js model: " ++ model ++ "..."]%string) ++
              ["Model " ++ model ++ " loaded successfully (384-dim)"]%string |}).
  { rewrite Ec, R. unfold pipeline_resolves, is_loading, stop_loading. cbn.
    now rewrite Nat.eqb_refl. }
  split; [|split; [|split; [|split; [|split; [|split; [|split]]]]]].
  - rewrite R, Ef. unfold ensureInitialized. cbn. now rewrite settle_length.
  - now rewrite R.
  - now rewrite C.
  - rewrite C. unfold promise. cbn. apply settle_nth_same.
    rewrite length_app, settle_length. cbn. fold p'. lia.
  - rewrite C. unfold promise. cbn.
    rewrite settle_nth_other by (unfold p'; lia).
    rewrite app_nth1 by (rewrite settle_length; exact B).
    now apply settle_nth_same.
  - now rewrite C.
  - now rewrite C.
  - apply (ensureInitialized_after_load _ ext). now rewrite C.
Qed.

Lemma later_revision_recovers_witness :
  extractor (run with_reset [Call; Call; PipelineRejects 0 (Error "fetch failed"); Call;
                             PipelineResolves 1 7]) = Some 7%nat /\
  promises (run with_reset [Call; Call; PipelineRejects 0 (Error "fetch failed"); Call;
                            PipelineResolves 1 7]) =
    [Rejected (Error "fetch failed"); Fulfilled].
Proof.
  split; [|reflexivity].
  assert (L : In 0%nat (loading (run with_reset [Call; Call]))) by (now left).
  exact (proj1 (proj2 (proj2
    (later_revision_recovers [Call; Call] 0 7 (Error "fetch failed") L)))).
Defined.

(** X23. The earlier revision does not recover from a failed load. When
    the load in flight fails, the object is final: whatever calls and
    settlements follow, it stays as it is, with no extractor and with
    [initPromise] holding the rejected promise, so that every later
    [ensureInitialized] is handed that rejection and [pipeline] is never
    called again. *)
Theorem earlier_revision_never_recovers (evs evs' : list event) (p : nat) (err : JsError) :
  In p (loading (run without_reset evs)) ->
  let failed := run without_reset (evs ++ [PipelineRejects p err]) in
  run without_reset (evs ++ [PipelineRejects p err] ++ evs') = failed /\
  extractor failed = None /\
  ensureInitialized failed = (Awaits p, failed) /\
  promise failed p = Rejected err /\
  pipeline_calls failed = 1%nat.
Proof.
  intros Lp failed.
  destruct (pipeline_rejects_state without_reset evs p err Lp) as [F B].
  assert (Ef : failed = pipeline_rejects without_reset p err (run without_reset evs)).
  { unfold failed. rewrite run_app. reflexivity. }
  assert (X : extractor failed = None) by (rewrite Ef, F; reflexivity).
  assert (I : initPromise failed = Some p) by (rewrite Ef, F; reflexivity).
  assert (L : loading failed = []) by (rewrite Ef, F; reflexivity).
  assert (S : forall ev, step without_reset failed ev = failed).
  { intros [|q e|q e]; cbn [step].
    - unfold ensureInitialized. now rewrite X, I.
    - unfold pipeline_resolves. now rewrite (is_loading_false q failed L).
    - unfold pipeline_rejects. now rewrite (is_loading_false q failed L). }
  split; [|split; [|split; [|split]]].
  - rewrite app_assoc, run_app. fold failed.
    induction evs' as [|ev evs' IH]; [reflexivity|]. cbn [fold_left]. now rewrite S.
  - exact X.
  - unfold ensureInitialized. now rewrite X, I.
  - rewrite Ef, F. unfold promise. cbn. now apply settle_nth_same.
  - pose proof (calls_accounted_run without_reset (evs ++ [PipelineRejects p err])) as A.
    unfold calls_accounted in A. fold failed in A. now rewrite I in A.
Qed.

Lemma earlier_revision_never_recovers_witness :
  run without_reset ([Call] ++ [PipelineRejects 0 (Error "fetch failed")] ++
                     [Call; PipelineResolves 0 7; Call; PipelineResolves 1 7]) =
    run without_reset [Call; PipelineRejects 0 (Error "fetch failed")] /\
  extractor (run without_reset [Call; PipelineRejects 0 (Error "fetch failed")]) = None.
Proof.
  assert (L : In 0%nat (loading (run without_reset [Call]))) by (now left).
  destruct (earlier_revision_never_recovers [Call]
              [Call; PipelineResolves 0 7; Call; PipelineResolves 1 7]
              0 (Error "fetch failed") L) as (E & X & _).
  split; [exact E | exact X].
Defined.

End RecoverySpec.

(** ** memory-db.ts: the times of the last sync *)

Module SyncStateSpec.

Import Js MemoryDB MemoryDBRest.
Local Open Scope string_scope.
Local Open Scope list_scope.

Lemma find_peer_app (p : string) (tbl tbl' : SyncState) :
  existsb (fun r => String.eqb (peer_id r) p) tbl = false ->
  find (fun r => String.eqb (peer_id r) p) (tbl ++ tbl') =
  find (fun r => String.eqb (peer_id r) p) tbl'.
Proof.
  induction tbl as [|r tbl IH]; [reflexivity|]. cbn [existsb app find].
  destruct (String.eqb (peer_id r) p); [discriminate|]. exact IH.
Qed.

(** X24. [getLastSyncTime] of a peer is the time last set for it, and 0
    for a peer for which none was set; [setLastSyncTime] for one peer
    changes the time of no other, keeps the peers that were there, and
    keeps one row for each peer. *)
Theorem setLastSyncTime_then_getLastSyncTime (peerId : string) (timestamp : Z)
    (tbl : SyncState) :
  getLastSyncTime peerId (setLastSyncTime peerId timestamp tbl) = timestamp /\
  (forall other, other <> peerId ->
     getLastSyncTime other (setLastSyncTime peerId timestamp tbl) =
     getLastSyncTime other tbl) /\
  getLastSyncTime peerId [] = 0%Z /\
  (NoDup (map peer_id tbl) ->
   NoDup (map peer_id (setLastSyncTime peerId timestamp tbl))) /\
  (forall q, In q (map peer_id tbl) ->
     In q (map peer_id (setLastSyncTime peerId timestamp tbl))).
Proof.
  unfold setLastSyncTime, getLastSyncTime.
  destruct (existsb (fun r => String.eqb (peer_id r) peerId) tbl) eqn:X.
  - assert (I : map peer_id
                  (map (fun r => if String.eqb (peer_id r) peerId
                                 then {| peer_id := peer_id r; last_sync_at := timestamp |}
                                 else r) tbl) = map peer_id tbl).
    { rewrite map_map. apply map_ext. intros r.
      now destruct (String.eqb (peer_id r) peerId). }
    split; [|split; [|split; [reflexivity|split]]].
    + clear I. induction tbl as [|r tbl IH]; [discriminate|]. cbn [map find existsb] in *.
      destruct (String.eqb (peer_id r) peerId) eqn:E.
      * cbn [peer_id find]. rewrite E. reflexivity.
      * rewrite E. apply IH. exact X.
    + intros other N. clear X I. induction tbl as [|r tbl IH]; [reflexivity|].
      cbn [map].
      destruct (String.eqb (peer_id r) peerId) eqn:E; cbn [find peer_id].
      * apply String.eqb_eq in E.
        assert (D : String.eqb (peer_id r) other = false).
        { apply String.eqb_neq. congruence. }
        rewrite D. exact IH.
      * destruct (String.eqb (peer_id r) other); [reflexivity | exact IH].
    + intros N. now rewrite I.
    + intros q Hq. now rewrite I.
  - split; [|split; [|split; [reflexivity|split]]].
    + rewrite (find_peer_app peerId tbl _ X). cbn [find peer_id].
      now rewrite String.eqb_refl.
    + intros other N. induction tbl as [|r tbl IH].
      * cbn [app find peer_id].
        assert (D : String.eqb peerId other = false) by (apply String.eqb_neq; congruence).
        now rewrite D.
      * cbn [app find existsb] in *.
        destruct (String.eqb (peer_id r) other); [reflexivity|].
        apply IH. now apply orb_false_iff in X.
    + intros N. rewrite map_app. cbn [map peer_id].
      apply NoDup_app; [exact N | repeat constructor; intros [] |].
      intros i Hi [Ei|[]]. cbn [peer_id] in Ei. subst i.
      apply in_map_iff in Hi. destruct Hi as (r & E & Hr).
      assert (Y : existsb (fun r => String.eqb (peer_id r) peerId) tbl = true).
      { apply existsb_exists. exists r. split; [assumption|]. now apply String.eqb_eq. }
      congruence.
    + intros q Hq. rewrite map_app. apply in_or_app. now left.
Qed.

End SyncStateSpec.

(** ** memory-db.ts: what is stored or linked is found *)

Module RecallSpec.

Import Number NumberFacts Js MemoryDB MemoryDBRest SortFacts.
Import SearchSpec StoreSpec DeleteSpec KeysSpec RankingSpec RelatedSpec.
Local Open Scope string_scope.
Local Open Scope list_scope.
Local Open Scope float_scope.

Lemma store_row_decodes (db db' : Database) (now : Z) (uuid content : string)
    (embedding : list float) (opts : StoreOpts) (result : StoreResult) :
  store now uuid content embedding opts db = (Returned result, db') ->
  exists row,
    In row (memories db') /\ decoded row = Some embedding /\
    entry_of_row row embedding =
      {| id := id (result_entry result); content := content; embedding := embedding;
         created_at := now; source := nullish (opt_source opts) "";
         tags := nullish (opt_tags opts) []; category := col_category row |}.
Proof.
  unfold store, bind, all, run, ret.
  destruct (vectorSearch db embedding 1 _) as [|r rest] eqn:V.
  - unfold INSERT_memory. cbn [col_id].
    destruct (existsb (fun r => String.eqb (col_id r) uuid) (memories db)); [discriminate|].
    cbv beta iota. intros [= <- <-].
    eexists. split; [cbn [memories]; apply in_or_app; right; left; reflexivity|].
    split; [now apply decoded_encoded | reflexivity].
  - assert (Hr : In r (vectorSearch db embedding 1
                      (nullish (dedupeThreshold opts) default_dedupeThreshold)))
      by (rewrite V; now left).
    apply vectorSearch_In, scan_In in Hr. destruct Hr as (old & Hold & Hs).
    apply scan_row_Some in Hs. destruct Hs as (st & D & _ & ->).
    unfold UPDATE_memories_by_id. cbv beta iota. intros [= <- <-].
    exists (overwrite content embedding now opts (entry_of_row old st) old).
    split.
    { cbn [memories entry entry_of_row id]. apply in_map_iff. exists old.
      split; [|assumption]. now rewrite String.eqb_refl. }
    split; [now apply decoded_encoded | reflexivity].
Qed.

(** X25. What [store] has stored, a search finds. When [store] returns,
    a search of the store it leaves, with a limit that is at least the
    number of memories, returns a result with the returned id, the
    stored content and embedding, and the cosine of the query and the
    stored embedding as its score, whenever that score reaches the
    minimum asked for. *)
Theorem store_then_vectorSearch (db db' : Database) (now : Z) (uuid content : string)
    (embedding : list float) (opts : StoreOpts) (result : StoreResult)
    (q : list float) (limit : nat) (minScore : float) :
  store now uuid content embedding opts db = (Returned result, db') ->
  (count db' <= limit)%nat ->
  ge (cosineSimilarity q embedding) minScore = true ->
  exists r,
    In r (vectorSearch db' q limit minScore) /\
    id (entry r) = id (result_entry result) /\
    MemoryDB.content (entry r) = content /\
    MemoryDB.embedding (entry r) = embedding /\
    score r = cosineSimilarity q embedding.
Proof.
  intros S C G. destruct (store_row_decodes _ _ _ _ _ _ _ _ S) as (row & Hin & D & E).
  exists {| entry := entry_of_row row embedding; score := cosineSimilarity q embedding |}.
  split; [now apply vectorSearch_complete|].
  cbn [entry score]. rewrite E. cbn. auto.
Qed.

Lemma store_then_vectorSearch_witness :
  exists result db',
    store 1700000000001 uuid_2 "Prefer early returns" [0; 1] tabs_opts tabs_db =
      (Returned result, db') /\
    map (fun r => id (entry r)) (vectorSearch db' [0; 1] 5 0.3) = [uuid_2] /\
    exists r, In r (vectorSearch db' [0; 1] 5 0.3) /\ id (entry r) = id (result_entry result).
Proof.
  destruct (store 1700000000001 uuid_2 "Prefer early returns" [0; 1] tabs_opts tabs_db)
    as [[result|e] db'] eqn:S; [|vm_compute in S; discriminate].
  assert (C : (count db' <= 5)%nat).
  { assert (S' := S). vm_compute in S'. injection S' as _ <-. vm_compute. lia. }
  destruct (store_then_vectorSearch _ _ _ _ _ _ _ _ [0; 1] 5 0.3 S C eq_refl)
    as (r & Hr & Hi & _).
  exists result, db'. split; [reflexivity|]. split; [|eauto].
  clear r Hr Hi C. vm_compute in S. injection S as _ <-. vm_compute. reflexivity.
Defined.

(** X26. [addEdge] with the id of an edge that exists changes nothing and
    says nothing. With a new id, it throws the engine's foreign-key error
    and changes nothing when one of the two memories is not stored;
    when both are stored it adds the edge and nothing else, and then
    of two distinct memories each is related to the other: [getRelated]
    of either returns the other, for no relation and for the relation of
    the edge. *)
Theorem addEdge_relates_both_ends (now : Z) (uuid fromId toId rel : string)
    (db : Database) :
  let edge := {| edge_id := uuid; from_id := fromId; to_id := toId;
                 relation := rel; edge_created_at := now |} in
  let db' := snd (addEdge now uuid fromId toId rel db) in
  (In uuid (map edge_id (memory_edges db)) ->
   addEdge now uuid fromId toId rel db = (Returned tt, db)) /\
  (~ In uuid (map edge_id (memory_edges db)) ->
   ~ In fromId (ids db) \/ ~ In toId (ids db) ->
   addEdge now uuid fromId toId rel db =
     (Thrown (SqliteError "FOREIGN KEY constraint failed"), db)) /\
  (~ In uuid (map edge_id (memory_edges db)) ->
   In fromId (ids db) -> In toId (ids db) ->
   fst (addEdge now uuid fromId toId rel db) = Returned tt /\
   memories db' = memories db /\
   memory_edges db' = memory_edges db ++ [edge] /\
   (fromId <> toId ->
    forall r, selects r edge ->
      In toId (map id (getRelated fromId r db')) /\
      In fromId (map id (getRelated toId r db')))).
Proof.
  intros edge db'.
  assert (XE : existsb (fun e' => String.eqb (edge_id e') uuid) (memory_edges db) = true <->
               In uuid (map edge_id (memory_edges db))).
  { rewrite existsb_exists, in_map_iff. split.
    - intros (e & He & E). apply String.eqb_eq in E. eauto.
    - intros (e & E & He). exists e. split; [assumption|]. now apply String.eqb_eq. }
  assert (XM : forall i, existsb (fun r => String.eqb (col_id r) i) (memories db) = true <->
               In i (ids db)).
  { intros i. unfold ids. rewrite existsb_exists, in_map_iff. split.
    - intros (r & Hr & E). apply String.eqb_eq in E. eauto.
    - intros (r & E & Hr). exists r. split; [assumption|]. now apply String.eqb_eq. }
  subst db'. unfold addEdge, bind, ret, INSERT_OR_IGNORE_edge. cbn [edge_id from_id to_id].
  fold edge.
  destruct (existsb (fun e' => String.eqb (edge_id e') uuid) (memory_edges db)) eqn:X.
  - split; [reflexivity|]. assert (I := proj1 XE eq_refl).
    split; intros N; contradiction.
  - assert (N : ~ In uuid (map edge_id (memory_edges db))).
    { intros H. apply XE in H. discriminate. }
    split; [intros H; contradiction|].
    destruct (existsb (fun r => String.eqb (col_id r) fromId) (memories db)) eqn:A;
      [destruct (existsb (fun r => String.eqb (col_id r) toId) (memories db)) eqn:B|];
      cbn [andb].
    + apply XM in A, B. split; [intros _ [H|H]; contradiction|].
      intros _ _ _. cbn [fst snd memories memory_edges].
      split; [reflexivity|]. split; [reflexivity|]. split; [reflexivity|].
      intros D r Sr.
      unfold ids in A, B. apply in_map_iff in A, B.
      destruct A as (ma & Ea & Ha), B as (mb & Eb & Hb).
      split; apply in_map_iff.
      * exists (entry_without_embedding mb). split; [exact Eb|].
        apply getRelated_In. exists mb, edge. cbn [memories memory_edges].
        split; [assumption|]. split; [apply in_or_app; right; now left|].
        split; [reflexivity|]. apply related_pair_spec.
        split; [congruence|]. split; [left; cbn; auto | exact Sr].
      * exists (entry_without_embedding ma). split; [exact Ea|].
        apply getRelated_In. exists ma, edge. cbn [memories memory_edges].
        split; [assumption|]. split; [apply in_or_app; right; now left|].
        split; [reflexivity|]. apply related_pair_spec.
        split; [congruence|]. split; [right; cbn; auto | exact Sr].
    + split; [reflexivity|]. intros _ _ H. exfalso.
      assert (Y : existsb (fun r => String.eqb (col_id r) toId) (memories db) = true)
        by now apply XM.
      congruence.
    + split; [reflexivity|]. intros _ H. exfalso.
      assert (Y : existsb (fun r => String.eqb (col_id r) fromId) (memories db) = true)
        by now apply XM.
      congruence.
Qed.

End RecallSpec.
